(** * Two cellular automata: the Nagel-Schreckenberg traffic model and
      Conway's Game of Life

    A shallow embedding of the code cells of the two notebooks
    ([NagelSchreckenbergModel.ipynb] and the Game of Life notebook) and the
    properties of their update rules.

    Conventions of the embedding.
    - Python integers are [Z]; Python lists are [list]; reading or writing a
      list outside its range raises [IndexError], which is [None] here.
    - The notebooks keep [pos], [vel], [traffic], [board] as global variables
      that the cells overwrite; here they are the fields of an explicit state
      threaded through a state-and-error monad.
    - [np.random.rand()] reads the hidden module-level generator.  The values
      it hands out, in call order, are a stream [u : nat -> Q]; the state
      records how many calls have been made.  A float64 is a rational number
      and [<] on floats is exact, so [Q] loses nothing.
    - The cells of the numpy arrays hold the floats [0.0], [1.0], [2.0],
      [3.0] and sums of at most eight of them; they are modelled by the
      integers they denote. *)

From Stdlib Require Import ZArith QArith Lia Ascii.
From stdpp Require Import base option list gmap strings pretty.

Local Open Scope Z_scope.

(** ** Python lists and numpy indices *)

Module Py.

(** [l[i]] for [0 <= i]. *)
Definition getitem {A} (l : list A) (i : nat) : option A := l !! i.

(** [l[i] = x] for [0 <= i]: an assignment outside the list raises. *)
Definition setitem {A} (l : list A) (i : nat) (x : A) : option (list A) :=
  if decide (i < length l)%nat then Some (<[i:=x]> l) else None.

(** [l.pop(i)] for [0 <= i]: the element and the shortened list. *)
Definition pop {A} (l : list A) (i : nat) : option (A * list A) :=
  x ← l !! i; Some (x, delete i l).

(** [l.insert(0, x)]. *)
Definition insert0 {A} (l : list A) (x : A) : list A := x :: l.

(** A numpy index [k] along an axis of size [n]: negative indices count
    from the end, anything outside [-n, n) raises [IndexError]. *)
Definition axis (n : nat) (k : Z) : option nat :=
  if decide (0 <= k < Z.of_nat n) then Some (Z.to_nat k)
  else if decide (- Z.of_nat n <= k < 0) then Some (Z.to_nat (Z.of_nat n + k))
  else None.

(** [a[k, l]] on a two-dimensional array stored by rows. *)
Definition get2 (a : list (list Z)) (k l : Z) : option Z :=
  r ← axis (length a) k;
  row ← a !! r;
  c ← axis (length row) l;
  row !! c.

(** [a[k, l] = x]. *)
Definition set2 (a : list (list Z)) (k l : Z) (x : Z) : option (list (list Z)) :=
  r ← axis (length a) k;
  row ← a !! r;
  c ← axis (length row) l;
  Some (<[r := <[c := x]> row]> a).

(** [np.zeros((m, n))]. *)
Definition zeros (m n : nat) : list (list Z) := replicate m (replicate n 0).

(** [np.zeros((m, l))] where the number of columns is an integer variable:
    a negative dimension raises [ValueError]. *)
Definition np_zeros (m : nat) (l : Z) : option (list (list Z)) :=
  if decide (0 <= l) then Some (zeros m (Z.to_nat l)) else None.

End Py.

(** [r < p] on the rationals, as a boolean. *)
Definition Qltb (r p : Q) : bool := negb (Qle_bool p r).

(** ** The Nagel-Schreckenberg notebook *)

Module NS.

(** The global variables the cells read and overwrite. *)
Record state := State {
  pos : list Z;             (* positions, in vehicle order *)
  vel : list Z;             (* velocities, in vehicle order *)
  traffic : list (list Z);  (* the space-time array, one row per time step *)
  calls : nat               (* calls made to np.random.rand() so far *)
}.

(** Statements: state in, an exception ([IndexError], or the [ValueError]
    of [np.zeros]) or a result and the state out. *)
Definition M (A : Type) : Type := state → option (A * state).

#[global] Instance M_ret : MRet M := λ A x s, Some (x, s).
#[global] Instance M_bind : MBind M := λ A B f m s,
  match m s with Some (x, s') => f x s' | None => None end.

Definition raise {A} : M A := λ _, None.
Definition lift {A} (o : option A) : M A := λ s, x ← o; Some (x, s).

Definition get_pos (i : nat) : M Z := λ s, lift (Py.getitem (pos s) i) s.
Definition get_vel (i : nat) : M Z := λ s, lift (Py.getitem (vel s) i) s.

Definition set_pos (i : nat) (x : Z) : M unit := λ s,
  p ← Py.setitem (pos s) i x;
  Some (tt, State p (vel s) (traffic s) (calls s)).
Definition set_vel (i : nat) (x : Z) : M unit := λ s,
  v ← Py.setitem (vel s) i x;
  Some (tt, State (pos s) v (traffic s) (calls s)).

Definition pop_pos (i : nat) : M Z := λ s,
  '(x, p) ← Py.pop (pos s) i;
  Some (x, State p (vel s) (traffic s) (calls s)).
Definition pop_vel (i : nat) : M Z := λ s,
  '(x, v) ← Py.pop (vel s) i;
  Some (x, State (pos s) v (traffic s) (calls s)).

Definition insert0_pos (x : Z) : M unit := λ s,
  Some (tt, State (Py.insert0 (pos s) x) (vel s) (traffic s) (calls s)).
Definition insert0_vel (x : Z) : M unit := λ s,
  Some (tt, State (pos s) (Py.insert0 (vel s) x) (traffic s) (calls s)).

(** [traffic = a]. *)
Definition assign_traffic (a : list (list Z)) : M unit := λ s,
  Some (tt, State (pos s) (vel s) a (calls s)).

(** [pos = l] and [vel = l]. *)
Definition assign_pos (l : list Z) : M unit := λ s,
  Some (tt, State l (vel s) (traffic s) (calls s)).
Definition assign_vel (l : list Z) : M unit := λ s,
  Some (tt, State (pos s) l (traffic s) (calls s)).

(** [traffic[t, k] = x]. *)
Definition set_traffic (t : nat) (k : Z) (x : Z) : M unit := λ s,
  a ← Py.set2 (traffic s) (Z.of_nat t) k x;
  Some (tt, State (pos s) (vel s) a (calls s)).

(** [for x in l: body x]. *)
Fixpoint for_each {A} (l : list A) (body : A → M unit) : M unit :=
  match l with
  | [] => mret tt
  | x :: l => body x ;; for_each l body
  end.

(** [if b: c] with no else branch. *)
Definition when (b : bool) (c : M unit) : M unit := if b then c else mret tt.

(** [repr(x)] of a Python integer: its decimal digits, after a minus sign
    when it is negative. *)
Definition repr (x : Z) : string := pretty x.

(** The string ['\t']. *)
Definition tab : string := String "009"%char EmptyString.

(** [repr(i) + '\t' + repr(x) + '\t' + repr(v)]. *)
Definition table_row (i : nat) (x v : Z) : string :=
  repr (Z.of_nat i) +:+ tab +:+ repr x +:+ tab +:+ repr v.

(** A string with no tabulation in it. *)
Fixpoint tab_free (s : string) : Prop :=
  match s with
  | EmptyString => True
  | String c s => c ≠ "009"%char ∧ tab_free s
  end.

(** The running sums of a list of gaps: what the initialisation cell
    computes (lemma [initialize_run]). *)
Fixpoint running (acc : Z) (gaps : list Z) : list Z :=
  match gaps with
  | [] => []
  | g :: gaps => (acc + g) :: running (acc + g) gaps
  end.

(** The value the snapshot loop writes for a vehicle of velocity [v]. *)
Definition traffic_value (v : Z) : Z :=
  if v =? 0 then 1 else if v =? 1 then 2 else 3.

(** What the snapshot loop leaves in a row: the values of the vehicles
    [(position, velocity)], written in order (lemma [draw_run]). *)
Definition paint (cells : list (Z * Z)) (row : list Z) : list Z :=
  foldl (λ row c, <[Z.to_nat c.1 := traffic_value c.2]> row) row cells.

Section Model.

(** [L], [N], [vmax] and [p] are set once by the notebook and never
    overwritten; [u] is the stream of values of [np.random.rand()]. *)
Variables (L : Z) (N : nat) (vmax : Z) (p : Q) (u : nat → Q).

(** [np.random.rand()]. *)
Definition np_random_rand : M Q := λ s,
  Some (u (calls s), State (pos s) (vel s) (traffic s) (S (calls s))).

(** The body of [for i in range(N)] in the update cells, block by block
    under the comments of the source; the text is the same in the
    single-step cell and in the simulation proper.  [N - 1] is only
    evaluated inside the loop, where [1 <= N]. *)

(* acceleration *)
Definition acceleration (i : nat) : M unit :=
  v ← get_vel i;
  when (v <? vmax) (v ← get_vel i; set_vel i (v + 1)).

(* slowing down / impose periodic boundary condition on velocities *)
Definition slowing_down (i : nat) : M unit :=
  if Z.of_nat i <? Z.of_nat N - 1 then
    v ← get_vel i; xj ← get_pos (i + 1); xi ← get_pos i;
    when (xj - xi <=? v)
      (xj ← get_pos (i + 1); xi ← get_pos i; set_vel i (xj - xi - 1))
  else
    v ← get_vel i; xi ← get_pos i; x0 ← get_pos 0;
    when ((L - xi - 1) + x0 <=? v)
      (xi ← get_pos i; x0 ← get_pos 0; set_vel i ((L - xi - 1) + x0 - 1)).

(* random deceleration *)
Definition random_deceleration (i : nat) : M unit :=
  v ← get_vel i;
  when (1 <=? v)
    (r ← np_random_rand;
     when (Qltb r p) (v ← get_vel i; set_vel i (v - 1))).

(* move vehicles *)
Definition move_vehicle (i : nat) : M unit :=
  xi ← get_pos i; v ← get_vel i; set_pos i (xi + v).

(* impose periodic boundary condition on positions *)
Definition periodic_boundary : M unit :=
  xl ← get_pos (N - 1);
  when (L <=? xl)
    (newpos0 ← pop_pos (N - 1);
     newvel0 ← pop_vel (N - 1);
     insert0_pos (newpos0 - L);;
     insert0_vel newvel0).

Definition update_vehicle (i : nat) : M unit :=
  acceleration i;;
  slowing_down i;;
  random_deceleration i;;
  move_vehicle i;;
  periodic_boundary.

(** [for i in range(N): ...], one time step. *)
Definition update : M unit := for_each (seq 0 N) update_vehicle.

(** The "draw to traffic array" loop of time step [t]. *)
Definition draw_vehicle (t : nat) (i : nat) : M unit :=
  v ← get_vel i;
  if v =? 0 then x ← get_pos i; set_traffic t x 1
  else
    v ← get_vel i;
    if v =? 1 then x ← get_pos i; set_traffic t x 2
    else x ← get_pos i; set_traffic t x 3.

Definition draw (t : nat) : M unit := for_each (seq 0 N) (draw_vehicle t).

(** The simulation proper: [traffic = np.zeros((T, L))], then
    [for t in range(T): draw; update]. *)
Definition time_step (t : nat) : M unit := draw t ;; update.

Definition simulate (T : nat) : M unit :=
  (a ← lift (Py.np_zeros T L); assign_traffic a);;
  for_each (seq 0 T) time_step.

(** The vehicles after [t] time steps. *)
Fixpoint updates (t : nat) (s : state) : option state :=
  match t with
  | O => Some s
  | S t => s' ← updates t s; snd <$> update s'
  end.

(** The initialisation cell.  [gaps] and [vels] are the values returned
    by the calls of [np.random.randint] in the two list comprehensions
    (see [randint_outcome] for their ranges). *)
Definition initialize (gaps vels : list Z) : M unit :=
  (* pos = [ 0 for i in range(N) ] *)
  assign_pos (replicate N 0);;
  (* pos[0] = gaps[0] *)
  (g ← lift (Py.getitem gaps 0); set_pos 0 g);;
  (* for i in range(1, N): pos[i] = pos[i-1] + gaps[i] *)
  for_each (seq 1 (N - 1))
    (λ i, x ← get_pos (i - 1); g ← lift (Py.getitem gaps i); set_pos i (x + g));;
  (* vel = [ ... ] *)
  assign_vel vels.

(** [n] values of [np.random.randint(lo, hi)]: integers of [lo, hi). *)
Definition randint_outcome (lo hi : Z) (n : nat) (l : list Z) : Prop :=
  length l = n ∧ Forall (λ x, lo ≤ x < hi) l.

(** *** The cells that print the vehicles *)

(** The loop [for i in range(N): print(repr(i) + '\t' + repr(pos[i]) +
    '\t' + repr(vel[i]))] on the indices [l]: the lines written to the
    standard output, and whether the loop ran to its end ([false]:
    [IndexError], raised before the line of the missing element is
    printed). *)
Fixpoint print_rows (l : list nat) (s : state) : list string * bool :=
  match l with
  | [] => ([], true)
  | i :: l =>
      match pos s !! i, vel s !! i with
      | Some x, Some v =>
          let r := print_rows l s in (table_row i x v :: r.1, r.2)
      | _, _ => ([], false)
      end
  end.

(** The whole cell: [print('i\t x[i]\t v[i]')], then the loop. *)
Definition print_table (s : state) : list string * bool :=
  let r := print_rows (seq 0 N) s in
  (("i" +:+ tab +:+ " x[i]" +:+ tab +:+ " v[i]") :: r.1, r.2).

(** The code cells in the order of the notebook: the initialisation, the
    single time step, and the simulation proper of [T] time steps (the
    cells in between print and plot). *)
Definition notebook (gaps vels : list Z) (T : nat) : M unit :=
  initialize gaps vels;; update;; simulate T.

(** *** The update of one vehicle as a function

    What the five blocks of [update_vehicle] compute, read off the code
    (lemma [update_vehicle_run] below proves the two equal). *)

Definition accelerate (v : Z) : Z := if v <? vmax then v + 1 else v.

(** The vehicle whose position vehicle [i] reads, and the gap it
    computes from it. *)
Definition ahead (i : nat) : nat :=
  if Z.of_nat i <? Z.of_nat N - 1 then (i + 1)%nat else 0%nat.
Definition gap_to (i : nat) (xi xa : Z) : Z :=
  if Z.of_nat i <? Z.of_nat N - 1 then xa - xi else (L - xi - 1) + xa.

Definition slow_down (gap v : Z) : Z := if gap <=? v then gap - 1 else v.

Definition randomize (k : nat) (v : Z) : Z * nat :=
  if 1 <=? v then (if Qltb (u k) p then v - 1 else v, S k) else (v, k).

(** The first four blocks. *)
Definition vehicle_move (i : nat) (s : state) : option state :=
  v ← vel s !! i; xi ← pos s !! i; xa ← pos s !! ahead i;
  let r := randomize (calls s) (slow_down (gap_to i xi xa) (accelerate v)) in
  Some (State (<[i := xi + r.1]> (pos s)) (<[i := r.1]> (vel s)) (traffic s) r.2).

(** The last block. *)
Definition rotate (s : state) : state :=
  match pos s !! (N - 1)%nat, vel s !! (N - 1)%nat with
  | Some xl, Some vl =>
      if L <=? xl
      then State ((xl - L) :: delete (N - 1)%nat (pos s))
                 (vl :: delete (N - 1)%nat (vel s)) (traffic s) (calls s)
      else s
  | _, _ => s
  end.

Definition vehicle_step (i : nat) (s : state) : option state :=
  rotate <$> vehicle_move i s.

(** *** States of the road *)

(** Positions strictly increase along the list. *)
Definition ascending (l : list Z) : Prop :=
  ∀ i a b, l !! i = Some a → l !! S i = Some b → a < b.

(** A well-formed state in the sense of the data model: [N] vehicles on
    the cells [0 .. L-1], in ascending order, with velocities in
    [0 .. vmax]. *)
Record well_formed (s : state) : Prop := {
  wf_pos : length (pos s) = N;
  wf_vel : length (vel s) = N;
  wf_ascending : ascending (pos s);
  wf_cells : Forall (λ x, 0 ≤ x ≤ L - 1) (pos s);
  wf_bounds : Forall (λ v, 0 ≤ v ≤ vmax) (vel s)
}.

(** What the update loop keeps true between two vehicles: besides the
    order, at least one free cell lies between the last vehicle and the
    first one across the end of the road.  [lo] is the least velocity: [0],
    or [-1] after an initialisation that left a vehicle off the road. *)
Record invariant (lo : Z) (s : state) : Prop := {
  inv_pos : length (pos s) = N;
  inv_vel : length (vel s) = N;
  inv_ascending : ascending (pos s);
  inv_first : ∀ x, pos s !! 0%nat = Some x → 0 ≤ x;
  inv_last : ∀ y, pos s !! (N - 1)%nat = Some y → y ≤ L - 1;
  inv_wrap : ∀ x y, pos s !! 0%nat = Some x → pos s !! (N - 1)%nat = Some y →
                    2 ≤ L + x - y;
  inv_bounds : ∀ i v, vel s !! i = Some v → lo ≤ v ≤ vmax
}.

(** An outcome of the initialisation with the last vehicle at position
    [L]: every gap is [L // N]. *)
Definition off_road_start (s : state) : Prop :=
  ∃ g, 2 ≤ g ∧ Z.of_nat N * g = L ∧
       pos s = running 0 (replicate N g) ∧ length (vel s) = N ∧
       ∀ i v, vel s !! i = Some v → 0 ≤ v ≤ vmax.

(** The states the notebook reaches: an outcome of the initialisation
    cell, followed by any number of update loops and snapshot loops. *)
Inductive reachable : state → Prop :=
| reach_initialize gaps vels s0 s :
    randint_outcome 1 (1 + L / Z.of_nat N) N gaps →
    randint_outcome 0 (vmax + 1) N vels →
    initialize gaps vels s0 = Some (tt, s) →
    reachable s
| reach_update s s' :
    reachable s → update s = Some (tt, s') → reachable s'
| reach_draw t s s' :
    reachable s → draw t s = Some (tt, s') → reachable s'.

(** *** The snapshot array *)

(** A snapshot array of [T] rows and [W] columns. *)
Definition sheet (T W : nat) (a : list (list Z)) : Prop :=
  length a = T ∧ Forall (λ row, length row = W) a.

(** The vehicles of the indices [l], as written by the snapshot loop. *)
Definition cells_of (s : state) (l : list nat) : list (Z * Z) :=
  (λ i, (pos s !!! i, vel s !!! i)) <$> l.

(** Row [t] of the snapshot array shows the vehicles of the state [st]:
    the cell of each vehicle holds the value of its velocity, every other
    cell of the road holds [0]. *)
Definition shows (row : list Z) (st : state) : Prop :=
  length row = Z.to_nat L ∧
  (∀ i x v, pos st !! i = Some x → vel st !! i = Some v →
            row !! Z.to_nat x = Some (traffic_value v)) ∧
  (∀ c, (c < Z.to_nat L)%nat → (∀ i x, pos st !! i = Some x → Z.to_nat x ≠ c) →
        row !! c = Some 0).

End Model.

(** The number of cells of a row of the snapshot array that show a
    vehicle. *)
Definition occupied (row : list Z) : nat := length (filter (λ x, x ≠ 0) row).

End NS.
(** ** The Game of Life notebook *)

Module Life.

(** [range(a, b)]. *)
Definition range (a b : Z) : list Z := seqZ a (b - a).

(** [for x in l: acc = body acc x], where the body may raise. *)
Fixpoint for_fold {A B} (body : B → A → option B) (l : list A) (acc : B) : option B :=
  match l with
  | [] => Some acc
  | x :: l => acc' ← body acc x; for_fold body l acc'
  end.

Section Model.

(** The size of the board, set once by the notebook. *)
Variable N : nat.

Let n : Z := Z.of_nat N.

(** The neighbour list [nbrs]: a dictionary from coordinate pairs to
    lists of coordinate pairs, filled by the assignments of the cell in
    their order (a later assignment to the same key overwrites). *)
Definition nbrs : gmap (Z * Z) (list (Z * Z)) :=
  (* initialize dictionary *)
  let nbrs : gmap (Z * Z) (list (Z * Z)) := ∅ in
  (* neighbors of corners *)
  let nbrs := <[(0, 0) := [(0, 1); (1, 1); (1, 0)]]> nbrs in
  let nbrs := <[(0, n-1) := [(1, n-1); (1, n-2); (0, n-2)]]> nbrs in
  let nbrs := <[(n-1, n-1) := [(n-1, n-2); (n-2, n-2); (n-2, n-1)]]> nbrs in
  let nbrs := <[(n-1, 0) := [(n-2, 0); (n-2, 1); (n-1, 1)]]> nbrs in
  (* neighbors of left edge *)
  let nbrs := foldl (λ nbrs j,
    <[(0, j) := [(0, j+1); (1, j+1); (1, j); (1, j-1); (0, j-1)]]> nbrs)
    nbrs (range 1 (n-1)) in
  (* neighbors of top edge *)
  let nbrs := foldl (λ nbrs i,
    <[(i, n-1) := [(i+1, n-1); (i+1, n-2); (i, n-2); (i-1, n-2); (i-1, n-1)]]> nbrs)
    nbrs (range 1 (n-1)) in
  (* neighbors of right edge *)
  let nbrs := foldl (λ nbrs j,
    <[(n-1, j) := [(n-1, j-1); (n-2, j-1); (n-2, j); (n-2, j+1); (n-1, j+1)]]> nbrs)
    nbrs (range 1 (n-1)) in
  (* neighbors of bottom edge *)
  let nbrs := foldl (λ nbrs i,
    <[(i, 0) := [(i-1, 0); (i-1, 1); (i, 1); (i+1, 1); (i+1, 0)]]> nbrs)
    nbrs (range 1 (n-1)) in
  (* neighbors of interior nodes *)
  let nbrs := foldl (λ nbrs i, foldl (λ nbrs j,
    <[(i, j) := [(i, j+1); (i+1, j+1); (i+1, j); (i+1, j-1);
                 (i, j-1); (i-1, j-1); (i-1, j); (i-1, j+1)]]> nbrs)
    nbrs (range 1 (n-1)))
    nbrs (range 1 (n-1)) in
  nbrs.

(** The float [0.2] of the initialisation cell: the double nearest to one
    fifth, [3602879701896397 / 2^54]. *)
Definition one_fifth : Q := (3602879701896397 # 18014398509481984)%Q.

(** The body of the two loops of the initialisation cell, on the board and
    the number of calls made to [np.random.rand()] so far; [u] is the
    stream of the values the calls return. *)
Definition seed_cell (u : nat → Q) (st : list (list Z) * nat) (i j : Z) :
    option (list (list Z) * nat) :=
  (* if np.random.rand() < 0.2: board[i,j] = 1.0 *)
  if Qltb (u st.2) one_fifth
  then board ← Py.set2 st.1 i j 1; Some (board, S st.2)
  else Some (st.1, S st.2).

(** [board = np.zeros((N,N))] and the initialisation cell. *)
Definition initialize_board (u : nat → Q) (k : nat) : option (list (list Z) * nat) :=
  let board := Py.zeros N N in
  for_fold (λ st i,
    for_fold (λ st j, seed_cell u st i j) (range 0 n) st)
    (range 0 n) (board, k).

(** One turn reads the neighbour list it is given: the notebook's global
    [nbrs], a parameter here. *)
Variable table : gmap (Z * Z) (list (Z * Z)).

(** [for (k,l) in ...: numnbr += board[k,l]].  The sum is a float64; it is
    the integer computed here as long as no partial sum exceeds [2^53] in
    absolute value ([exact_sums] below), as on the boards of zeros and
    ones. *)
Definition add_neighbour (board : list (list Z)) (numnbr : Z) (kl : Z * Z) : option Z :=
  x ← Py.get2 board kl.1 kl.2; Some (numnbr + x).

(** The body of the two loops over the cells: a missing key raises
    [KeyError], an index outside the board [IndexError]. *)
Definition update_cell (board newboard : list (list Z)) (i j : Z) :
    option (list (list Z)) :=
  (* initialize number of neighbors, loop over neighbors *)
  ns ← table !! (i, j);
  numnbr ← for_fold (add_neighbour board) ns 0;
  (* update board[i,j] to newboard[i,j] *)
  c ← Py.get2 board i j;
  if c =? 1 then
    if (numnbr <? 2) || (3 <? numnbr) then Py.set2 newboard i j 0
    else Py.set2 newboard i j 1
  else
    if numnbr =? 3 then Py.set2 newboard i j 1
    else Py.set2 newboard i j 0.

(** One turn: a new board of zeros, the loops over all cells, and
    [board = np.array(newboard)]. *)
Definition turn (board : list (list Z)) : option (list (list Z)) :=
  let newboard := Py.zeros N N in
  for_fold (λ newboard i,
    for_fold (λ newboard j, update_cell board newboard i j) (range 0 n) newboard)
    (range 0 n) newboard.

(** [for t in range(T)]: the turn, [T] times. *)
Fixpoint turns (T : nat) (board : list (list Z)) : option (list (list Z)) :=
  match T with
  | O => Some board
  | S T => board' ← turn board; turns T board'
  end.

End Model.

(** The code cells in the order of the notebook: the board, its random
    initialisation, the neighbour list, one turn, and [T] more turns (the
    cells in between plot the board). *)
Definition notebook (N : nat) (u : nat → Q) (T : nat) : option (list (list Z)) :=
  '(board, _) ← initialize_board N u 0;
  board ← turn N (nbrs N) board;
  turns N (nbrs N) T board.

(** *** Boards and neighbour lists *)

(** An [N] by [N] array. *)
Definition shape (N : nat) (a : list (list Z)) : Prop :=
  length a = N ∧ Forall (λ row, length row = N) a.

(** Every cell holds [0.0] (dead) or [1.0] (alive). *)
Definition binary (a : list (list Z)) : Prop :=
  Forall (Forall (λ x, x = 0 ∨ x = 1)) a.

(** A neighbour list that [turn] can use on an [N] by [N] board: every
    cell has an entry, and every listed pair is a legal numpy index. *)
Definition table_valid (N : nat) (table : gmap (Z * Z) (list (Z * Z))) : Prop :=
  ∀ i j, 0 ≤ i < Z.of_nat N → 0 ≤ j < Z.of_nat N →
    ∃ ns, table !! (i, j) = Some ns ∧
          Forall (λ c, - Z.of_nat N ≤ c.1 < Z.of_nat N ∧
                       - Z.of_nat N ≤ c.2 < Z.of_nat N) ns.

(** Boards and neighbour lists on which the float64 additions of a turn
    are exact: at most eight neighbours per entry, as in [nbrs], and cells
    that hold integers of [-2^50 .. 2^50], so that every partial sum is an
    integer of [-2^53 .. 2^53]. *)
Definition exact_sums (table : gmap (Z * Z) (list (Z * Z)))
    (board : list (list Z)) : Prop :=
  map_Forall (λ _ ns, (length ns ≤ 8)%nat) table ∧
  Forall (Forall (λ x, - 2 ^ 50 ≤ x ≤ 2 ^ 50)) board.

(** The cell in row [i], column [j]. *)
Definition at2 (a : list (list Z)) (i j : nat) : option Z := a !! i ≫= (.!! j).

(** The board read by columns: the cell [(i, j)] of the result is the cell
    [(j, i)] of the board. *)
Definition transpose (N : nat) (a : list (list Z)) : list (list Z) :=
  (λ i : nat, (λ j : nat, default 0 (at2 a j i)) <$> seq 0 N) <$> seq 0 N.

(** The value the initialisation leaves in the cell [(r, l)] when it
    starts after [k0] calls of [np.random.rand()]: the calls are made row
    by row. *)
Definition seeded (N : nat) (u : nat → Q) (k0 : nat) (r l : nat) : Z :=
  if Qltb (u (k0 + r * N + l)%nat) one_fifth then 1 else 0.

(** The board and the call counter after the first [m] cells of the
    initialisation, in the order of its two loops. *)
Definition seeded_up_to (N : nat) (u : nat → Q) (k0 : nat) (m : nat)
    (st : list (list Z) * nat) : Prop :=
  st.2 = (k0 + m)%nat ∧ shape N st.1 ∧
  ∀ r l, (r < N)%nat → (l < N)%nat →
    at2 st.1 r l = Some (if decide (r * N + l < m)%nat then seeded N u k0 r l else 0).

(** The entry of [nbrs] for the cell [(i, j)] of an [n] by [n] board, read
    off the assignments from the last one to the first one. *)
Definition mid (n x : Z) : bool := (1 <=? x) && (x <? n - 1).

Definition entry (n i j : Z) : list (Z * Z) :=
  if mid n i && mid n j then
    [(i, j+1); (i+1, j+1); (i+1, j); (i+1, j-1);
     (i, j-1); (i-1, j-1); (i-1, j); (i-1, j+1)]
  else if mid n i && (j =? 0) then
    [(i-1, 0); (i-1, 1); (i, 1); (i+1, 1); (i+1, 0)]
  else if (i =? n-1) && mid n j then
    [(n-1, j-1); (n-2, j-1); (n-2, j); (n-2, j+1); (n-1, j+1)]
  else if mid n i && (j =? n-1) then
    [(i+1, n-1); (i+1, n-2); (i, n-2); (i-1, n-2); (i-1, n-1)]
  else if (i =? 0) && mid n j then
    [(0, j+1); (1, j+1); (1, j); (1, j-1); (0, j-1)]
  else if (i =? n-1) && (j =? 0) then [(n-2, 0); (n-2, 1); (n-1, 1)]
  else if (i =? n-1) && (j =? n-1) then [(n-1, n-2); (n-2, n-2); (n-2, n-1)]
  else if (i =? 0) && (j =? n-1) then [(1, n-1); (1, n-2); (0, n-2)]
  else [(0, 1); (1, 1); (1, 0)].

End Life.

(** ** The rules as the specification words them

    Second definitions, written from the text of the specification and not
    from the code; the theorems below compare them with the code. *)

Module Spec.

Module Traffic.

(** "Agent = {position, velocity}", "agents: ordered sequence of Agent". *)
Record Agent := { position : Z; velocity : Z }.

#[global] Instance Agent_inhabited : Inhabited Agent :=
  populate {| position := 0; velocity := 0 |}.

Section Rules.

Variables (L : Z) (vmax : Z) (p : Q) (u : nat → Q).

(** 1. Acceleration: "if velocity < v_max, velocity += 1". *)
Definition acceleration (v : Z) : Z :=
  if decide (v < vmax) then v + 1 else v.

(** 2. The gap of agent [i]: to the next agent in the sequence, and
    for the wrap agent "(L - position - 1) + position_of_agent_0",
    where [x0] is the position taken for agent 0. *)
Definition gap (agents : list Agent) (x0 : Z) (i : nat) : Z :=
  let x := position (agents !!! i) in
  if decide (S i = length agents) then (L - x - 1) + x0
  else position (agents !!! S i) - x.

(** 2. Slowing down: "if velocity >= gap, clamp velocity = gap - 1". *)
Definition slowing_down (g v : Z) : Z :=
  if decide (g ≤ v) then g - 1 else v.

(** 3. Random deceleration: "if velocity >= 1, draw a uniform random
    value; if < p, velocity -= 1".  [k] counts the values drawn. *)
Definition random_deceleration (k : nat) (v : Z) : Z * nat :=
  if decide (1 ≤ v)
  then (if Qlt_le_dec (u k) p then v - 1 else v, S k)
  else (v, k).

(** The four sub-rules on agent [i]; 4. Motion: "position = position +
    velocity", with no reduction modulo [L]. *)
Definition apply_rules (x0 : Z) (i : nat) (st : list Agent * nat) :
    list Agent * nat :=
  let a := st.1 !!! i in
  let v1 := acceleration (velocity a) in
  let v2 := slowing_down (gap st.1 x0 i) v1 in
  let r := random_deceleration st.2 v2 in
  (<[i := {| position := position a + r.1; velocity := r.1 |}]> st.1, r.2).

(** The agents in index order, each one on the sequence the previous
    ones have left; agent 0 is read where it is at that moment. *)
Definition move_all (st : list Agent * nat) : list Agent * nat :=
  foldl (λ cur i, apply_rules (position (cur.1 !!! 0%nat)) i cur)
        st (seq 0 (length st.1)).

(** The same with the gap of the wrap agent measured against the
    position agent 0 had at the start of the tick. *)
Definition move_all_snapshot (st : list Agent * nat) : list Agent * nat :=
  let x0 := position (st.1 !!! 0%nat) in
  foldl (λ cur i, apply_rules x0 i cur) st (seq 0 (length st.1)).

(** 5. Wrap normalization: "if the last agent's position is >= L ...
    subtract L from its position and move it to the front". *)
Definition normalize (agents : list Agent) : list Agent :=
  match last agents with
  | Some a =>
      if decide (L ≤ position a)
      then {| position := position a - L; velocity := velocity a |}
             :: take (length agents - 1) agents
      else agents
  | None => agents
  end.

Definition step (st : list Agent * nat) : list Agent * nat :=
  let st' := move_all st in (normalize st'.1, st'.2).

Definition step_snapshot (st : list Agent * nat) : list Agent * nat :=
  let st' := move_all_snapshot st in (normalize st'.1, st'.2).

End Rules.


End Traffic.

Module Life.

(** The state of a cell of the current grid. *)
Definition alive (grid : list (list Z)) (c : Z * Z) : bool :=
  bool_decide (Py.get2 grid c.1 c.2 = Some 1).

(** "count alive neighbors via the table" *)
Definition alive_neighbours (grid : list (list Z)) (ns : list (Z * Z)) : nat :=
  length (filter (λ c, alive grid c = true) ns).

(** The four cases of the rule. *)
Definition next_state (is_alive : bool) (count : nat) : bool :=
  if is_alive then
    if bool_decide (count < 2 ∨ 3 < count)%nat
    then false   (* alive with <2 or >3 alive neighbours: dead *)
    else true    (* alive with 2 or 3: stays alive *)
  else
    if bool_decide (count = 3)%nat
    then true    (* dead with exactly 3: becomes alive *)
    else false.  (* all other dead cells stay dead *)

Definition of_bool (b : bool) : Z := if b then 1 else 0.

(** The next state of the cell [(i, j)], from the current grid alone. *)
Definition next_cell (table : gmap (Z * Z) (list (Z * Z)))
    (grid : list (list Z)) (i j : nat) : Z :=
  let c := (Z.of_nat i, Z.of_nat j) in
  of_bool (next_state (alive grid c)
             (alive_neighbours grid (default [] (table !! c)))).

(** The next grid: a new grid, every cell of it computed from the current
    grid. *)
Definition step (N : nat) (table : gmap (Z * Z) (list (Z * Z)))
    (grid : list (list Z)) : list (list Z) :=
  (λ i : nat, (λ j : nat, next_cell table grid i j) <$> seq 0 N) <$> seq 0 N.

(** Fixed boundary policy: "corner cells have exactly 3 neighbors, edge
    (non-corner) cells exactly 5, interior cells exactly 8". *)
Definition on_border (n x : Z) : bool := (x =? 0) || (x =? n - 1).

Definition fixed_count (n i j : Z) : nat :=
  if on_border n i && on_border n j then 3
  else if on_border n i || on_border n j then 5
  else 8.

(** Fixed boundary policy: the neighbours of a cell are the cells of the
    grid that touch it. *)
Definition touches (n : Z) (c d : Z * Z) : Prop :=
  c ≠ d ∧ c.1 - 1 ≤ d.1 ≤ c.1 + 1 ∧ c.2 - 1 ≤ d.2 ≤ c.2 + 1 ∧
  0 ≤ d.1 < n ∧ 0 ≤ d.2 < n.

End Life.

End Spec.

(** The state of the code as the sequence of agents of the data model. *)
Definition agents_of (s : NS.state) : list Spec.Traffic.Agent :=
  zip_with Spec.Traffic.Build_Agent (NS.pos s) (NS.vel s).

(** ** Two claims as they are worded *)

(** The claim C6 as it is worded, on the code: the code takes no seed, so
    "identical seed and parameters" are identical parameters [L], [N],
    [vmax], [p], [T] and an identical initial state. *)
Definition determined_by_parameters (L : Z) (N : nat) (vmax : Z) (p : Q)
    (T : nat) (s : NS.state) : Prop :=
  ∀ u1 u2 : nat → Q,
    NS.simulate L N vmax p u1 T s = NS.simulate L N vmax p u2 T s.



(** * Properties of the traffic notebook *)

Section NS_run.

Import NS.

Variables (L : Z) (N : nat) (vmax : Z) (p : Q) (u : nat → Q).

(** ** Running the statements *)

Lemma bind_run {A B} (m : M A) (f : A → M B) (s : state) :
  (m ≫= f) s = match m s with Some (x, s') => f x s' | None => None end.
Proof. reflexivity. Qed.

Lemma get_vel_run i s v : vel s !! i = Some v → get_vel i s = Some (v, s).
Proof. intros H. unfold get_vel, lift, Py.getitem. by rewrite H. Qed.

Lemma get_pos_run i s x : pos s !! i = Some x → get_pos i s = Some (x, s).
Proof. intros H. unfold get_pos, lift, Py.getitem. by rewrite H. Qed.

Lemma set_vel_run i s v :
  (i < length (vel s))%nat →
  set_vel i v s = Some (tt, State (pos s) (<[i:=v]> (vel s)) (traffic s) (calls s)).
Proof. intros H. unfold set_vel, Py.setitem. by rewrite decide_True. Qed.

Lemma set_pos_run i s x :
  (i < length (pos s))%nat →
  set_pos i x s = Some (tt, State (<[i:=x]> (pos s)) (vel s) (traffic s) (calls s)).
Proof. intros H. unfold set_pos, Py.setitem. by rewrite decide_True. Qed.

Lemma state_eta s : State (pos s) (vel s) (traffic s) (calls s) = s.
Proof. by destruct s. Qed.

Lemma acceleration_run i s v :
  vel s !! i = Some v →
  acceleration vmax i s =
    Some (tt, State (pos s) (<[i := accelerate vmax v]> (vel s)) (traffic s) (calls s)).
Proof.
  intros Hv. pose proof (lookup_lt_Some _ _ _ Hv) as Hlt.
  unfold acceleration, accelerate, when.
  rewrite bind_run, (get_vel_run _ _ _ Hv).
  destruct (v <? vmax).
  - rewrite bind_run, (get_vel_run _ _ _ Hv). by apply set_vel_run.
  - rewrite list_insert_id by done. by rewrite state_eta.
Qed.

Lemma slowing_down_run i s v xi xa :
  vel s !! i = Some v → pos s !! i = Some xi → pos s !! ahead N i = Some xa →
  slowing_down L N i s =
    Some (tt, State (pos s) (<[i := slow_down (gap_to L N i xi xa) v]> (vel s))
                    (traffic s) (calls s)).
Proof.
  intros Hv Hxi Hxa. pose proof (lookup_lt_Some _ _ _ Hv) as Hlt.
  unfold slowing_down, slow_down, gap_to, ahead, when in *.
  destruct (Z.of_nat i <? Z.of_nat N - 1).
  - rewrite !bind_run, (get_vel_run _ _ _ Hv), bind_run, (get_pos_run _ _ _ Hxa),
      bind_run, (get_pos_run _ _ _ Hxi).
    destruct (xa - xi <=? v).
    + rewrite !bind_run, (get_pos_run _ _ _ Hxa), bind_run, (get_pos_run _ _ _ Hxi).
      by apply set_vel_run.
    + rewrite list_insert_id by done. by rewrite state_eta.
  - rewrite !bind_run, (get_vel_run _ _ _ Hv), bind_run, (get_pos_run _ _ _ Hxi),
      bind_run, (get_pos_run _ _ _ Hxa).
    destruct (L - xi - 1 + xa <=? v).
    + rewrite !bind_run, (get_pos_run _ _ _ Hxi), bind_run, (get_pos_run _ _ _ Hxa).
      by apply set_vel_run.
    + rewrite list_insert_id by done. by rewrite state_eta.
Qed.

Lemma random_deceleration_run i s v :
  vel s !! i = Some v →
  random_deceleration p u i s =
    Some (tt, State (pos s) (<[i := (randomize p u (calls s) v).1]> (vel s))
                    (traffic s) (randomize p u (calls s) v).2).
Proof.
  intros Hv. pose proof (lookup_lt_Some _ _ _ Hv) as Hlt.
  unfold random_deceleration, randomize, when.
  rewrite bind_run, (get_vel_run _ _ _ Hv).
  destruct (1 <=? v).
  - rewrite bind_run. unfold np_random_rand at 1.
    destruct (Qltb (u (calls s)) p); simpl.
    + rewrite bind_run. rewrite (get_vel_run i _ v) by done.
      by rewrite set_vel_run.
    + by rewrite list_insert_id.
  - simpl. rewrite list_insert_id by done. by rewrite state_eta.
Qed.

Lemma move_vehicle_run i s v xi :
  vel s !! i = Some v → pos s !! i = Some xi →
  move_vehicle i s = Some (tt, State (<[i := xi + v]> (pos s)) (vel s) (traffic s) (calls s)).
Proof.
  intros Hv Hxi. pose proof (lookup_lt_Some _ _ _ Hxi) as Hlt.
  unfold move_vehicle.
  rewrite bind_run, (get_pos_run _ _ _ Hxi), bind_run, (get_vel_run _ _ _ Hv).
  by apply set_pos_run.
Qed.

Lemma periodic_boundary_run s :
  (1 ≤ N)%nat → length (pos s) = N → length (vel s) = N →
  periodic_boundary L N s = Some (tt, rotate L N s).
Proof.
  intros HN Hp Hv.
  destruct (lookup_lt_is_Some_2 (pos s) (N - 1)%nat) as [xl Hxl]; [lia|].
  destruct (lookup_lt_is_Some_2 (vel s) (N - 1)%nat) as [vl Hvl]; [lia|].
  unfold periodic_boundary, rotate, when.
  rewrite bind_run, (get_pos_run _ _ _ Hxl), Hxl, Hvl.
  destruct (L <=? xl); [|done].
  rewrite !bind_run. unfold pop_pos at 1, Py.pop. rewrite Hxl. simpl.
  rewrite bind_run. unfold pop_vel at 1, Py.pop. simpl. by rewrite Hvl.
Qed.

Lemma ahead_lt i : (i < N)%nat → (ahead N i < N)%nat.
Proof. intros Hi. unfold ahead. case_match; lia. Qed.

(** The body of the update loop computes [vehicle_step]. *)
Lemma update_vehicle_run i s :
  (i < N)%nat → length (pos s) = N → length (vel s) = N →
  update_vehicle L N vmax p u i s = (λ s', (tt, s')) <$> vehicle_step L N vmax p u i s.
Proof.
  intros Hi Hp Hv. pose proof (ahead_lt i Hi) as Ha.
  destruct (lookup_lt_is_Some_2 (vel s) i) as [v Hvi]; [lia|].
  destruct (lookup_lt_is_Some_2 (pos s) i) as [xi Hxi]; [lia|].
  destruct (lookup_lt_is_Some_2 (pos s) (ahead N i)) as [xa Hxa]; [lia|].
  unfold vehicle_step, vehicle_move. rewrite Hvi, Hxi, Hxa. simpl.
  unfold update_vehicle.
  rewrite bind_run, (acceleration_run i s v) by done.
  rewrite bind_run, (slowing_down_run i _ (accelerate vmax v) xi xa);
    [|by apply list_lookup_insert_eq; lia|done..].
  rewrite bind_run,
    (random_deceleration_run i _ (slow_down (gap_to L N i xi xa) (accelerate vmax v)));
    [|simpl; rewrite list_lookup_insert_eq; [done|rewrite length_insert; lia]].
  set (r := randomize _ _ _ _).
  rewrite bind_run, (move_vehicle_run i _ r.1 xi);
    [|simpl; rewrite list_lookup_insert_eq; [done|rewrite !length_insert; lia]|done].
  rewrite periodic_boundary_run;
    [|lia|simpl; by rewrite length_insert|simpl; by rewrite !length_insert].
  simpl. by rewrite !list_insert_insert_eq.
Qed.

Lemma for_each_app {A} (l1 l2 : list A) (body : A → M unit) (s : state) :
  for_each (l1 ++ l2) body s =
    match for_each l1 body s with
    | Some (_, s') => for_each l2 body s'
    | None => None
    end.
Proof.
  revert s. induction l1 as [|x l1 IH]; intros s; simpl; [done|].
  rewrite !bind_run. destruct (body x s) as [[[] s']|]; [apply IH|done].
Qed.

(** The simulation proper on a road of [0 <= L] cells: the loop of time
    steps on the new array of zeros. *)
Lemma simulate_nonneg (T : nat) (s : state) :
  0 ≤ L →
  simulate L N vmax p u T s =
    for_each (seq 0 T) (time_step L N vmax p u)
      (State (pos s) (vel s) (Py.zeros T (Z.to_nat L)) (calls s)).
Proof.
  intros HL. unfold simulate. rewrite bind_run.
  unfold mbind at 1, M_bind, lift, Py.np_zeros.
  by destruct (decide (0 ≤ L)).
Qed.

(** With a negative [L] the cell raises at [np.zeros((T, L))]. *)
Lemma simulate_negative (T : nat) (s : state) :
  L < 0 → simulate L N vmax p u T s = None.
Proof.
  intros HL. unfold simulate. rewrite bind_run.
  unfold mbind at 1, M_bind, lift, Py.np_zeros.
  destruct (decide (0 ≤ L)); [lia|done].
Qed.

End NS_run.

(** ** The update loop keeps the road in order *)

Section NS_invariant.

Import NS.

Variables (L : Z) (N : nat) (vmax : Z) (p : Q) (u : nat → Q).

(** The least velocity before the step: [0], or [-1] when [0 <= vmax]. *)
Variable lo : Z.
Hypothesis lo_range : -1 ≤ lo ≤ 0.
Hypothesis vmax_nonneg : lo < 0 → 0 ≤ vmax.

Lemma accelerate_bounds v : lo ≤ v ≤ vmax → 0 ≤ accelerate vmax v ≤ vmax.
Proof. unfold accelerate. destruct (Z.ltb_spec v vmax); lia. Qed.

Lemma slow_down_bounds gap v :
  1 ≤ gap → 0 ≤ v → 0 ≤ slow_down gap v ≤ v ∧ slow_down gap v ≤ gap - 1.
Proof. unfold slow_down. destruct (Z.leb_spec gap v); lia. Qed.

Lemma randomize_bounds k v : 0 ≤ v → 0 ≤ (randomize p u k v).1 ≤ v.
Proof.
  unfold randomize. destruct (Z.leb_spec 1 v); simpl; [|lia].
  destruct (Qltb (u k) p); simpl; lia.
Qed.

(** With a gap of at least one cell the four rules give a velocity between
    [0] and [vmax] that stays inside the gap. *)
Lemma rules_bounds k gap v :
  1 ≤ gap → lo ≤ v ≤ vmax →
  let w := (randomize p u k (slow_down gap (accelerate vmax v))).1 in
  0 ≤ w ≤ vmax ∧ w ≤ gap - 1.
Proof.
  intros Hg Hv w.
  pose proof (accelerate_bounds v Hv) as Ha.
  pose proof (slow_down_bounds gap (accelerate vmax v) Hg (proj1 Ha)) as Hs.
  pose proof (randomize_bounds k (slow_down gap (accelerate vmax v)) (proj1 (proj1 Hs))) as Hr.
  subst w. lia.
Qed.

Lemma ascending_lt (l : list Z) (i j : nat) (a b : Z) :
  ascending l → (i < j)%nat → l !! i = Some a → l !! j = Some b → a < b.
Proof.
  intros Hasc Hij Ha. revert b. induction j as [|j IH]; intros b Hb; [lia|].
  destruct (decide (i = j)) as [->|Hne]; [by eapply Hasc|].
  destruct (lookup_lt_is_Some_2 l j) as [c Hc].
  { apply lookup_lt_Some in Hb. lia. }
  specialize (IH ltac:(lia) c Hc). specialize (Hasc j c b Hc Hb). lia.
Qed.

Lemma ascending_NoDup (l : list Z) : ascending l → NoDup l.
Proof.
  intros Hasc. apply NoDup_alt. intros i j x Hi Hj.
  destruct (Nat.lt_trichotomy i j) as [Hlt|[Heq|Hlt]]; [|done|].
  - pose proof (ascending_lt l i j x x Hasc Hlt Hi Hj). lia.
  - pose proof (ascending_lt l j i x x Hasc Hlt Hj Hi). lia.
Qed.

(** A vehicle that is not the last one moves within the gap in front of it
    and the list keeps its order: the test of the last block fails. *)
Lemma vehicle_step_inner i s :
  (Z.of_nat i < Z.of_nat N - 1) → invariant L N vmax lo s →
  ∃ s', vehicle_step L N vmax p u i s = Some s' ∧ invariant L N vmax lo s'.
Proof.
  intros Hi [Hp Hv Hasc Hfirst Hlast Hwrap Hb].
  destruct (lookup_lt_is_Some_2 (vel s) i) as [v Hvi]; [lia|].
  destruct (lookup_lt_is_Some_2 (pos s) i) as [xi Hxi]; [lia|].
  destruct (lookup_lt_is_Some_2 (pos s) (S i)) as [xa Hxa]; [lia|].
  destruct (lookup_lt_is_Some_2 (pos s) (N - 1)) as [y Hy]; [lia|].
  destruct (lookup_lt_is_Some_2 (vel s) (N - 1)) as [vy Hvy]; [lia|].
  pose proof (Hasc i xi xa Hxi Hxa) as Hgap.
  pose proof (Hlast y Hy) as Hyl.
  unfold vehicle_step, vehicle_move, ahead, gap_to.
  rewrite (proj2 (Z.ltb_lt _ _) Hi), Nat.add_1_r, Hvi, Hxi, Hxa. simpl.
  set (w := (randomize p u (calls s) (slow_down (xa - xi) (accelerate vmax v))).1).
  destruct (rules_bounds (calls s) (xa - xi) v) as [Hw1 Hw2]; [lia|by eapply Hb|].
  fold w in Hw1, Hw2.
  eexists. split; [done|].
  unfold rotate. simpl.
  rewrite list_lookup_insert_ne, Hy by lia.
  rewrite list_lookup_insert_ne, Hvy by lia.
  rewrite (proj2 (Z.leb_gt _ _)) by lia.
  constructor; simpl.
  - by rewrite length_insert.
  - by rewrite length_insert.
  - intros k a b. rewrite !list_lookup_insert_Some.
    intros [(<- & <- & _)|[Hk Ha]] [(Hk' & <- & _)|[Hk' Hb']]; try lia.
    + rewrite Hxa in Hb'. injection Hb' as <-. lia.
    + subst i. assert (a < xi) by (by eapply Hasc). lia.
    + by eapply Hasc.
  - intros x. rewrite list_lookup_insert_Some.
    intros [(Hi0 & <- & _)|[_ Hx]]; [|by apply Hfirst].
    rewrite Hi0 in Hxi. specialize (Hfirst xi Hxi). lia.
  - intros y'. rewrite list_lookup_insert_ne by lia. apply Hlast.
  - intros x y'. rewrite (list_lookup_insert_ne _ i (N - 1)) by lia.
    rewrite list_lookup_insert_Some. intros [(Hi0 & <- & _)|[_ Hx]] Hy'.
    + rewrite Hi0 in Hxi. specialize (Hwrap xi y' Hxi Hy'). lia.
    + by apply Hwrap.
  - intros k vk. rewrite list_lookup_insert_Some.
    intros [(_ & <- & _)|[_ Hk]]; [lia|by eapply Hb].
Qed.

(** The last vehicle moves within the wrap gap; when it passes the end of
    the road it becomes the first vehicle of the list. *)
Lemma vehicle_step_last s :
  (1 ≤ N)%nat → invariant L N vmax lo s →
  ∃ s', vehicle_step L N vmax p u (N - 1) s = Some s' ∧ invariant L N vmax lo s'.
Proof.
  intros HN [Hp Hv Hasc Hfirst Hlast Hwrap Hb].
  destruct (lookup_lt_is_Some_2 (vel s) (N - 1)) as [v Hvi]; [lia|].
  destruct (lookup_lt_is_Some_2 (pos s) (N - 1)) as [xi Hxi]; [lia|].
  destruct (lookup_lt_is_Some_2 (pos s) 0) as [x0 Hx0]; [lia|].
  pose proof (Hlast xi Hxi) as Hyl.
  pose proof (Hfirst x0 Hx0) as Hx0l.
  pose proof (Hwrap x0 xi Hx0 Hxi) as Hgap.
  assert (x0 ≤ xi) as Hle.
  { destruct (decide (N - 1 = 0)%nat) as [Hz|Hz];
      [rewrite Hz, Hx0 in Hxi; injection Hxi as <-; lia|].
    assert (x0 < xi); [|lia]. eapply (ascending_lt (pos s) 0 (N - 1)); eauto. lia. }
  unfold vehicle_step, vehicle_move, ahead, gap_to.
  rewrite (proj2 (Z.ltb_ge _ _)) by lia. rewrite Hvi, Hxi, Hx0. simpl.
  set (w := (randomize p u (calls s) (slow_down (L - xi - 1 + x0) (accelerate vmax v))).1).
  destruct (rules_bounds (calls s) (L - xi - 1 + x0) v) as [Hw1 Hw2]; [lia|by eapply Hb|].
  fold w in Hw1, Hw2.
  eexists. split; [done|].
  unfold rotate. simpl.
  rewrite !list_lookup_insert_eq by lia.
  destruct (Z.leb_spec L (xi + w)) as [Hrot|Hrot].
  - (* the vehicle wraps around *)
    assert (∀ k, (delete (N - 1)%nat (<[(N - 1)%nat:=xi + w]> (pos s))) !! k =
                 if decide (k < N - 1)%nat then pos s !! k else None) as Hdp.
    { intros k. rewrite list_lookup_delete. case_decide.
      - by rewrite list_lookup_insert_ne by lia.
      - apply lookup_ge_None_2. rewrite length_insert. lia. }
    assert (∀ k, (delete (N - 1)%nat (<[(N - 1)%nat:=w]> (vel s))) !! k =
                 if decide (k < N - 1)%nat then vel s !! k else None) as Hdv.
    { intros k. rewrite list_lookup_delete. case_decide.
      - by rewrite list_lookup_insert_ne by lia.
      - apply lookup_ge_None_2. rewrite length_insert. lia. }
    constructor; simpl.
    + rewrite length_delete, length_insert by (rewrite list_lookup_insert_eq by lia; eauto). lia.
    + rewrite length_delete, length_insert by (rewrite list_lookup_insert_eq by lia; eauto). lia.
    + intros [|k] a b; simpl; rewrite !Hdp.
      * intros [= <-]. case_decide; [|done]. rewrite Hx0. intros [= <-]. lia.
      * repeat case_decide; try done. apply Hasc.
    + intros x [= <-]. lia.
    + intros y. destruct (N - 1)%nat as [|m] eqn:Hm; simpl.
      * intros [= <-]. lia.
      * rewrite Hdp, decide_True by lia. intros Hy.
        assert (y < xi); [|lia]. eapply (ascending_lt (pos s) m (N - 1)); eauto; [lia|].
        by rewrite Hm.
    + intros x y [= <-]. destruct (N - 1)%nat as [|m] eqn:Hm; simpl.
      * intros [= <-]. lia.
      * rewrite Hdp, decide_True by lia. intros Hy.
        assert (y < xi); [|lia]. eapply (ascending_lt (pos s) m (N - 1)); eauto; [lia|].
        by rewrite Hm.
    + intros [|k] vk; simpl.
      * intros [= <-]. lia.
      * rewrite Hdv. case_decide; [|done]. apply Hb.
  - (* the vehicle stays on the road *)
    constructor; simpl.
    + by rewrite length_insert.
    + by rewrite length_insert.
    + intros k a b. rewrite !list_lookup_insert_Some.
      intros [(<- & <- & _)|[Hk Ha]] [(Hk' & <- & _)|[Hk' Hb']]; try lia.
      * apply lookup_lt_Some in Hb'. lia.
      * rewrite Hk' in Hxi. assert (a < xi) by (by eapply Hasc). lia.
      * by eapply Hasc.
    + intros x. rewrite list_lookup_insert_Some.
      intros [(_ & <- & _)|[_ Hx]]; [lia|by apply Hfirst].
    + intros y. rewrite list_lookup_insert_eq by lia. intros [= <-]. lia.
    + intros x y. rewrite (list_lookup_insert_eq _ (N - 1)) by lia.
      rewrite list_lookup_insert_Some. intros [(_ & <- & _)|[_ Hx]] [= <-]; [lia|].
      rewrite Hx0 in Hx. injection Hx as <-. lia.
    + intros k vk. rewrite list_lookup_insert_Some.
      intros [(_ & <- & _)|[_ Hk]]; [lia|by eapply Hb].
Qed.

Lemma vehicle_step_invariant i s :
  (i < N)%nat → invariant L N vmax lo s →
  ∃ s', vehicle_step L N vmax p u i s = Some s' ∧ invariant L N vmax lo s'.
Proof.
  intros Hi Hinv. destruct (decide (i = N - 1)%nat) as [->|Hne].
  - apply vehicle_step_last; [lia|done].
  - apply vehicle_step_inner; [lia|done].
Qed.

Lemma for_each_invariant (l : list nat) (s : state) :
  Forall (λ i, i < N)%nat l → invariant L N vmax lo s →
  ∃ s', for_each l (update_vehicle L N vmax p u) s = Some (tt, s') ∧
        invariant L N vmax lo s'.
Proof.
  intros Hl. revert s. induction Hl as [|i l Hi Hl IH]; intros s Hinv; simpl.
  - by exists s.
  - destruct (vehicle_step_invariant i s Hi Hinv) as (s1 & Hs1 & Hinv1).
    rewrite bind_run, update_vehicle_run, Hs1 by (done || apply Hinv). simpl.
    by apply IH.
Qed.

(** One time step cannot fail on a state that satisfies the invariant, and
    the invariant holds again after it. *)
Lemma update_invariant_from (s : state) :
  invariant L N vmax lo s →
  ∃ s', update L N vmax p u s = Some (tt, s') ∧ invariant L N vmax lo s'.
Proof.
  apply for_each_invariant, Forall_forall. intros i Hi%elem_of_seq. lia.
Qed.

End NS_invariant.

(** The same for the states with velocities in [0 .. vmax]. *)
Lemma update_invariant (L : Z) (N : nat) (vmax : Z) (p : Q) (u : nat → Q)
    (s : NS.state) :
  NS.invariant L N vmax 0 s →
  ∃ s', NS.update L N vmax p u s = Some (tt, s') ∧ NS.invariant L N vmax 0 s'.
Proof. apply update_invariant_from; lia. Qed.

(** ** The initialisation cell *)

Section NS_initialize.

Import NS.

Variables (L : Z) (N : nat) (vmax : Z) (p : Q) (u : nat → Q).

Lemma length_running acc gaps : length (running acc gaps) = length gaps.
Proof. revert acc. induction gaps; intros acc; simpl; auto. Qed.

Lemma running_lookup_S acc gaps i x g :
  running acc gaps !! i = Some x → gaps !! S i = Some g →
  running acc gaps !! S i = Some (x + g).
Proof.
  revert acc i. induction gaps as [|g0 gaps IH]; intros acc i; [done|].
  destruct i as [|i]; simpl.
  - intros [= <-]. destruct gaps as [|g1 gaps]; [done|]. simpl. by intros [= ->].
  - apply IH.
Qed.

Lemma running_ascending acc gaps :
  Forall (λ g, 1 ≤ g) gaps → ascending (running acc gaps).
Proof.
  intros Hg i a b Ha Hb.
  destruct (lookup_lt_is_Some_2 gaps (S i)) as [g Hgi].
  { apply lookup_lt_Some in Hb. by rewrite length_running in Hb. }
  rewrite (running_lookup_S _ _ _ _ _ Ha Hgi) in Hb. injection Hb as <-.
  rewrite Forall_forall in Hg. specialize (Hg g (list_elem_of_lookup_2 _ _ _ Hgi)). lia.
Qed.

Lemma initialize_loop gaps (k : nat) (s : state) g0 :
  length gaps = N → length (pos s) = N → (k < N)%nat →
  gaps !! 0%nat = Some g0 → pos s !! 0%nat = Some g0 →
  ∃ ps, for_each (seq 1 k)
          (λ i, x ← get_pos (i - 1); g ← lift (Py.getitem gaps i); set_pos i (x + g)) s
        = Some (tt, State ps (vel s) (traffic s) (calls s)) ∧
        length ps = N ∧
        ∀ j, (j ≤ k)%nat → ps !! j = running 0 gaps !! j.
Proof.
  intros Hg Hp Hk Hg0 Hp0. induction k as [|k IH].
  - exists (pos s). simpl. unfold mret, M_ret. rewrite state_eta.
    split; [done|]. split; [done|]. intros j Hj. assert (j = 0)%nat as -> by lia.
    rewrite Hp0. destruct gaps; simplify_eq/=. done.
  - destruct IH as (ps & Hrun & Hlen & Hps); [lia|].
    rewrite seq_S, for_each_app, Hrun.
    destruct (lookup_lt_is_Some_2 ps k) as [x Hx]; [lia|].
    destruct (lookup_lt_is_Some_2 gaps (S k)) as [g Hgk]; [lia|].
    exists (<[S k := x + g]> ps). split; [|split].
    + simpl. rewrite !bind_run.
      rewrite (get_pos_run _ _ x) by (simpl; by rewrite Nat.sub_0_r).
      rewrite bind_run. unfold lift at 1, Py.getitem. rewrite Hgk. simpl.
      rewrite set_pos_run by (simpl; lia). done.
    + by rewrite length_insert.
    + intros j Hj. destruct (decide (j = S k)) as [->|Hne].
      * rewrite list_lookup_insert_eq by lia. symmetry.
        apply running_lookup_S; [|done]. rewrite <- Hps by lia. done.
      * rewrite list_lookup_insert_ne by lia. apply Hps. lia.
Qed.

(** The cell computes the running sums of the gaps; it raises when there
    is no vehicle ([gaps[0]] on an empty list). *)
Lemma initialize_run gaps vels (s : state) :
  length gaps = N → (1 ≤ N)%nat →
  initialize N gaps vels s =
    Some (tt, State (running 0 gaps) vels (traffic s) (calls s)).
Proof.
  intros Hg HN. unfold initialize.
  destruct (lookup_lt_is_Some_2 gaps 0) as [g0 Hg0]; [lia|].
  rewrite bind_run. unfold assign_pos at 1.
  rewrite !bind_run. unfold lift at 1.
  change (Py.getitem gaps 0) with (gaps !! 0%nat). rewrite Hg0. simpl.
  rewrite set_pos_run by (simpl; rewrite length_replicate; lia).
  cbn [pos vel traffic calls].
  set (s1 := State _ _ _ _).
  destruct (initialize_loop gaps (N - 1) s1 g0) as (ps & Hrun & Hlen & Hps);
    [done|subst s1; simpl; by rewrite length_insert, length_replicate|lia|done| |].
  { subst s1. simpl. apply list_lookup_insert_eq. rewrite length_replicate. lia. }
  rewrite bind_run, Hrun. unfold assign_vel. simpl. do 3 f_equal.
  apply list_eq_same_length with N; [by rewrite length_running|done|].
  intros i x y Hi Hx Hy. rewrite Hps in Hx by lia. congruence.
Qed.

(** An outcome of the initialisation with every vehicle on the road
    satisfies the invariant of the update loop. *)
Lemma initialize_invariant gaps vels s0 s :
  randint_outcome 1 (1 + L / Z.of_nat N) N gaps →
  randint_outcome 0 (vmax + 1) N vels →
  initialize N gaps vels s0 = Some (tt, s) →
  Forall (λ x, x ≤ L - 1) (pos s) →
  invariant L N vmax 0 s.
Proof.
  intros [Hgl Hg] [Hvl Hv] Hrun Hroad.
  destruct (decide (N = 0)%nat) as [->|HN].
  { destruct gaps; [|done]. by vm_compute in Hrun. }
  rewrite initialize_run in Hrun by (done || lia). simplify_eq/=.
  assert (ascending (running 0 gaps)) as Hasc.
  { apply running_ascending. eapply Forall_impl; [exact Hg|]. simpl. lia. }
  constructor; simpl.
  - by rewrite length_running.
  - done.
  - done.
  - intros x Hx. destruct gaps as [|g gaps]; simplify_eq/=.
    apply Forall_cons in Hg as [? _]. lia.
  - intros y Hy. rewrite Forall_forall in Hroad. apply Hroad.
    eapply list_elem_of_lookup_2; eauto.
  - intros x y Hx Hy.
    assert (y ≤ L - 1).
    { rewrite Forall_forall in Hroad. apply Hroad. eapply list_elem_of_lookup_2; eauto. }
    destruct gaps as [|g gaps]; simplify_eq/=. apply Forall_cons in Hg as [? _]. lia.
  - intros i v Hi. rewrite Forall_forall in Hv.
    specialize (Hv v (list_elem_of_lookup_2 _ _ _ Hi)). lia.
Qed.

End NS_initialize.

(** ** The update loop and the rules of the specification *)

Section NS_refinement.

Import NS.

Variables (L : Z) (N : nat) (vmax : Z) (p : Q) (u : nat → Q).

Lemma Qltb_lt (r q : Q) : Qltb r q = true ↔ (r < q)%Q.
Proof.
  unfold Qltb. rewrite negb_true_iff, <- not_true_iff_false, Qle_bool_iff.
  split; [apply Qnot_le_lt|apply Qlt_not_le].
Qed.

Lemma length_agents_of s :
  length (pos s) = N → length (vel s) = N → length (agents_of s) = N.
Proof. intros Hp Hv. unfold agents_of. rewrite length_zip_with. lia. Qed.

Lemma agents_of_lookup s i x v :
  pos s !! i = Some x → vel s !! i = Some v →
  agents_of s !!! i = Spec.Traffic.Build_Agent x v.
Proof.
  intros Hx Hv. apply list_lookup_total_correct.
  unfold agents_of. rewrite lookup_zip_with, Hx. simpl. by rewrite Hv.
Qed.

Lemma rules_agree k g v :
  Spec.Traffic.random_deceleration p u k
    (Spec.Traffic.slowing_down g (Spec.Traffic.acceleration vmax v)) =
  randomize p u k (slow_down g (accelerate vmax v)).
Proof.
  unfold Spec.Traffic.random_deceleration, Spec.Traffic.slowing_down,
    Spec.Traffic.acceleration, randomize, slow_down, accelerate.
  assert (∀ a b, (if decide (a < b) then true else false) = (a <? b)) as Hlt.
  { intros a b. case_decide; destruct (Z.ltb_spec a b); (done || lia). }
  assert (∀ a b, (if decide (a ≤ b) then true else false) = (a <=? b)) as Hle.
  { intros a b. case_decide; destruct (Z.leb_spec a b); (done || lia). }
  set (v1 := if decide (v < vmax) then v + 1 else v).
  assert (v1 = if v <? vmax then v + 1 else v) as ->.
  { subst v1. rewrite <- Hlt. by case_decide. }
  set (v1 := if v <? vmax then v + 1 else v).
  set (v2 := if decide (g ≤ v1) then g - 1 else v1).
  assert (v2 = if g <=? v1 then g - 1 else v1) as ->.
  { subst v2. rewrite <- Hle. by case_decide. }
  set (v2 := if g <=? v1 then g - 1 else v1).
  rewrite <- Hle. case_decide; [|done].
  destruct (Qltb (u k) p) eqn:E; destruct (Qlt_le_dec (u k) p) as [Hq|Hq]; try done.
  - apply Qltb_lt in E. exfalso. by apply (Qlt_not_le _ _ E).
  - apply Qltb_lt in Hq. congruence.
Qed.

(** The first four blocks on vehicle [i] are the four sub-rules on agent
    [i], with the position of agent 0 read at that moment. *)
Lemma vehicle_move_rules i s :
  (i < N)%nat → length (pos s) = N → length (vel s) = N →
  ∃ s', vehicle_move L N vmax p u i s = Some s' ∧
        (agents_of s', calls s') =
          Spec.Traffic.apply_rules L vmax p u
            (Spec.Traffic.position (agents_of s !!! 0%nat)) i (agents_of s, calls s) ∧
        traffic s' = traffic s ∧
        length (pos s') = N ∧ length (vel s') = N ∧
        (∀ j, j ≠ i → pos s' !! j = pos s !! j).
Proof.
  intros Hi Hp Hv. pose proof (ahead_lt N i Hi) as Ha.
  destruct (lookup_lt_is_Some_2 (vel s) i) as [v Hvi]; [lia|].
  destruct (lookup_lt_is_Some_2 (pos s) i) as [xi Hxi]; [lia|].
  destruct (lookup_lt_is_Some_2 (pos s) (ahead N i)) as [xa Hxa]; [lia|].
  destruct (lookup_lt_is_Some_2 (pos s) 0) as [x0 Hx0]; [lia|].
  destruct (lookup_lt_is_Some_2 (vel s) 0) as [v0 Hv0]; [lia|].
  unfold vehicle_move. rewrite Hvi, Hxi, Hxa. simpl.
  eexists. split; [done|]. simpl. repeat split.
  - unfold Spec.Traffic.apply_rules. simpl.
    rewrite (agents_of_lookup s i xi v), (agents_of_lookup s 0 x0 v0) by done. simpl.
    assert (Spec.Traffic.gap L (agents_of s) x0 i = gap_to L N i xi xa) as ->.
    { unfold Spec.Traffic.gap, gap_to, ahead in *.
      rewrite (agents_of_lookup s i xi v), (length_agents_of s) by done. simpl.
      destruct (Z.ltb_spec (Z.of_nat i) (Z.of_nat N - 1)).
      - rewrite decide_False by lia.
        destruct (lookup_lt_is_Some_2 (vel s) (S i)) as [va Hva]; [lia|].
        rewrite Nat.add_1_r in Hxa.
        by rewrite (agents_of_lookup s (S i) xa va).
      - rewrite decide_True by lia. congruence. }
    rewrite rules_agree. unfold agents_of. simpl. by rewrite insert_zip_with.
  - by rewrite length_insert.
  - by rewrite length_insert.
  - intros j Hj. by rewrite list_lookup_insert_ne.
Qed.

(** The last block is the wrap normalization. *)
Lemma rotate_normalize s :
  length (pos s) = N → length (vel s) = N →
  agents_of (rotate L N s) = Spec.Traffic.normalize L (agents_of s) ∧
  calls (rotate L N s) = calls s ∧ traffic (rotate L N s) = traffic s.
Proof.
  intros Hp Hv. unfold rotate, Spec.Traffic.normalize.
  rewrite last_lookup, (length_agents_of s) by done.
  destruct (decide (N = 0)%nat) as [HN|HN].
  { rewrite HN in *. destruct s as [[|? ?] [|? ?] ? ?]; done. }
  destruct (lookup_lt_is_Some_2 (pos s) (N - 1)) as [xl Hxl]; [lia|].
  destruct (lookup_lt_is_Some_2 (vel s) (N - 1)) as [vl Hvl]; [lia|].
  rewrite Hxl, Hvl. replace (pred N) with (N - 1)%nat by lia.
  unfold agents_of at 2. rewrite lookup_zip_with, Hxl. simpl. rewrite Hvl. simpl.
  destruct (Z.leb_spec L xl); [rewrite decide_True by done|by rewrite decide_False by lia].
  simpl. split; [|done]. unfold agents_of. simpl. f_equal.
  rewrite zip_with_take. f_equal.
  - rewrite delete_take_drop, drop_ge, app_nil_r by lia. done.
  - rewrite delete_take_drop, drop_ge, app_nil_r by lia. done.
Qed.

(** While the last vehicle is on the road, the last block does nothing
    after a vehicle that is not the last one. *)
Lemma rotate_idle s :
  (∀ y, pos s !! (N - 1)%nat = Some y → y < L) → rotate L N s = s.
Proof.
  intros Hy. unfold rotate.
  destruct (pos s !! (N - 1)%nat) as [xl|]; [|done].
  destruct (vel s !! (N - 1)%nat) as [vl|]; [|done].
  specialize (Hy xl eq_refl). by rewrite (proj2 (Z.leb_gt _ _)) by lia.
Qed.

Lemma update_prefix (s : state) (k : nat) :
  length (pos s) = N → length (vel s) = N →
  (∀ y, pos s !! (N - 1)%nat = Some y → y < L) →
  (k < N)%nat →
  ∃ s', for_each (seq 0 k) (update_vehicle L N vmax p u) s = Some (tt, s') ∧
        (agents_of s', calls s') =
          foldl (λ cur i, Spec.Traffic.apply_rules L vmax p u
                    (Spec.Traffic.position (cur.1 !!! 0%nat)) i cur)
                (agents_of s, calls s) (seq 0 k) ∧
        traffic s' = traffic s ∧
        length (pos s') = N ∧ length (vel s') = N ∧
        pos s' !! (N - 1)%nat = pos s !! (N - 1)%nat.
Proof.
  intros Hp Hv Hlast. induction k as [|k IH]; intros Hk.
  - exists s. by repeat split.
  - destruct IH as (s1 & Hrun & Hag & Htr & Hp1 & Hv1 & Hl1); [lia|].
    destruct (vehicle_move_rules k s1) as (s2 & Hmv & Hag2 & Htr2 & Hp2 & Hv2 & Hl2);
      [lia|done..|].
    exists s2. rewrite seq_S, for_each_app, Hrun. simpl.
    rewrite bind_run, update_vehicle_run by (done || lia).
    unfold vehicle_step. rewrite Hmv. simpl.
    rewrite rotate_idle by (rewrite Hl2, Hl1 by lia; done).
    split; [done|]. rewrite foldl_app. simpl. rewrite <- Hag. simpl.
    split; [done|]. split; [congruence|]. split; [done|]. split; [done|].
    rewrite Hl2 by lia. done.
Qed.

(** On a state whose last vehicle is on the road, one time step of the
    code is one step of the specification: the four sub-rules on each
    agent in index order, then the wrap normalization. *)
Lemma update_refines (s : state) :
  length (pos s) = N → length (vel s) = N →
  (∀ y, pos s !! (N - 1)%nat = Some y → y < L) →
  ∃ s', update L N vmax p u s = Some (tt, s') ∧
        (agents_of s', calls s') =
          Spec.Traffic.step L vmax p u (agents_of s, calls s) ∧
        traffic s' = traffic s.
Proof.
  intros Hp Hv Hlast. unfold update, Spec.Traffic.step, Spec.Traffic.move_all. simpl.
  rewrite (length_agents_of s) by done.
  destruct (decide (N = 0)%nat) as [HN|HN].
  { exists s. rewrite HN in *. destruct s as [[|? ?] [|? ?] ? ?]; done. }
  assert (seq 0 N = seq 0 (N - 1) ++ [(N - 1)%nat]) as ->.
  { rewrite <- seq_S. f_equal. lia. }
  destruct (update_prefix s (N - 1)) as (s1 & Hrun & Hag & Htr & Hp1 & Hv1 & Hl1);
    [done..|lia|].
  destruct (vehicle_move_rules (N - 1) s1) as (s2 & Hmv & Hag2 & Htr2 & Hp2 & Hv2 & Hl2);
    [lia|done..|].
  exists (rotate L N s2). rewrite for_each_app, Hrun. simpl.
  rewrite bind_run, update_vehicle_run by (done || lia).
  unfold vehicle_step. rewrite Hmv. simpl.
  destruct (rotate_normalize s2) as (Hr1 & Hr2 & Hr3); [done..|].
  split; [done|]. rewrite foldl_app. cbn [foldl]. rewrite <- Hag. cbn [fst snd].
  rewrite <- Hag2. cbn [fst snd]. rewrite Hr1, Hr2, Hr3. split; [done|congruence].
Qed.

End NS_refinement.

(** ** The snapshot loop and the reachable states *)

Section NS_reachable.

Import NS.

Variables (L : Z) (N : nat) (vmax : Z) (p : Q) (u : nat → Q).

Lemma set_traffic_frame t k x s s' :
  set_traffic t k x s = Some (tt, s') →
  pos s' = pos s ∧ vel s' = vel s ∧ calls s' = calls s.
Proof.
  unfold set_traffic. destruct (Py.set2 _ _ _ _); simpl; [|done].
  by intros [= <-].
Qed.

(** The snapshot loop writes one value per vehicle. *)
Lemma draw_vehicle_run t i s x v :
  pos s !! i = Some x → vel s !! i = Some v →
  draw_vehicle t i s = set_traffic t x (traffic_value v) s.
Proof.
  intros Hx Hv. unfold draw_vehicle, traffic_value.
  rewrite bind_run, (get_vel_run _ _ _ Hv).
  destruct (v =? 0).
  - by rewrite bind_run, (get_pos_run _ _ _ Hx).
  - rewrite bind_run, (get_vel_run _ _ _ Hv).
    destruct (v =? 1); by rewrite bind_run, (get_pos_run _ _ _ Hx).
Qed.

Lemma draw_vehicle_frame t i s s' :
  draw_vehicle t i s = Some (tt, s') →
  pos s' = pos s ∧ vel s' = vel s ∧ calls s' = calls s.
Proof.
  destruct (vel s !! i) as [v|] eqn:Hv.
  - destruct (pos s !! i) as [x|] eqn:Hx.
    + rewrite (draw_vehicle_run t i s x v) by done. apply set_traffic_frame.
    + unfold draw_vehicle. rewrite bind_run, (get_vel_run _ _ _ Hv).
      destruct (v =? 0).
      * rewrite bind_run. unfold get_pos, lift, Py.getitem. by rewrite Hx.
      * rewrite bind_run, (get_vel_run _ _ _ Hv).
        destruct (v =? 1); rewrite bind_run; unfold get_pos, lift, Py.getitem;
          by rewrite Hx.
  - unfold draw_vehicle. rewrite bind_run. unfold get_vel, lift, Py.getitem.
    by rewrite Hv.
Qed.

(** It changes neither the vehicles nor the random source. *)
Lemma draw_frame t s s' :
  draw N t s = Some (tt, s') →
  pos s' = pos s ∧ vel s' = vel s ∧ calls s' = calls s.
Proof.
  unfold draw. generalize (seq 0 N). intros l. revert s.
  induction l as [|i l IH]; intros s; simpl.
  - by intros [= <-].
  - rewrite bind_run. destruct (draw_vehicle t i s) as [[[] s1]|] eqn:Hd; [|done].
    intros Hrest. apply draw_vehicle_frame in Hd as (Hp & Hv & Hc).
    destruct (IH _ Hrest) as (-> & -> & ->). done.
Qed.

Lemma invariant_frame lo s s' :
  pos s' = pos s → vel s' = vel s →
  invariant L N vmax lo s → invariant L N vmax lo s'.
Proof. intros Hp Hv [? ? ? ? ? ? ?]. constructor; rewrite ?Hp, ?Hv; done. Qed.

Lemma invariant_cells lo s :
  invariant L N vmax lo s → Forall (λ x, 0 ≤ x ≤ L - 1) (pos s).
Proof.
  intros [Hp Hv Hasc Hfirst Hlast Hwrap Hb]. apply Forall_lookup. intros i x Hx.
  pose proof (lookup_lt_Some _ _ _ Hx) as Hi.
  destruct (lookup_lt_is_Some_2 (pos s) 0) as [x0 Hx0]; [lia|].
  destruct (lookup_lt_is_Some_2 (pos s) (N - 1)) as [xl Hxl]; [lia|].
  specialize (Hfirst x0 Hx0). specialize (Hlast xl Hxl).
  assert (x0 ≤ x).
  { destruct (decide (i = 0)%nat) as [->|Hne]; [by simplify_eq|].
    pose proof (ascending_lt (pos s) 0 i x0 x Hasc ltac:(lia) Hx0 Hx). lia. }
  assert (x ≤ xl).
  { destruct (decide (i = N - 1)%nat) as [->|Hne]; [by simplify_eq|].
    pose proof (ascending_lt (pos s) i (N - 1) x xl Hasc ltac:(lia) Hx Hxl). lia. }
  lia.
Qed.

Lemma invariant_well_formed s : invariant L N vmax 0 s → well_formed L N vmax s.
Proof.
  intros Hinv. pose proof (invariant_cells 0 s Hinv) as Hcells.
  destruct Hinv as [Hp Hv Hasc Hfirst Hlast Hwrap Hb].
  constructor; try done. apply Forall_lookup. intros i v. apply Hb.
Qed.

End NS_reachable.

(** ** A start with a vehicle off the road *)

Section NS_off_road.

Import NS.

Variables (L : Z) (N : nat) (vmax : Z) (p : Q) (u : nat → Q).

Lemma invariant_weaken lo lo' s :
  lo' ≤ lo → invariant L N vmax lo s → invariant L N vmax lo' s.
Proof.
  intros Hlo [? ? ? ? ? ? Hb]. constructor; try done.
  intros i v Hv. specialize (Hb i v Hv). lia.
Qed.

(** The last running sum is at most [n * g] when no gap exceeds [g], and
    reaches it only when every gap is [g]. *)
Lemma running_last_le (g acc : Z) (gaps : list Z) (y : Z) :
  Forall (λ x, x ≤ g) gaps → last (running acc gaps) = Some y →
  y ≤ acc + Z.of_nat (length gaps) * g ∧
  (y = acc + Z.of_nat (length gaps) * g → gaps = replicate (length gaps) g).
Proof.
  intros Hg. revert acc. induction Hg as [|x gaps Hx Hg IH]; intros acc; [done|].
  cbn [running length]. destruct gaps as [|x' gaps].
  - cbn. intros [= <-]. split; [lia|]. intros Hx'. f_equal. lia.

  - change (last (acc + x :: running (acc + x) (x' :: gaps)))
      with (last (running (acc + x) (x' :: gaps))).
    intros Hy. destruct (IH _ Hy) as [Hle Heq]. split; [lia|].
    intros Hyeq. assert (x = g) as -> by lia.
    rewrite (Heq ltac:(lia)) at 1. done.
Qed.

(** The outcomes of the initialisation: all vehicles on the road and the
    invariant of the update loop, or the last vehicle at position [L]. *)
Lemma initialize_outcome gaps vels s0 s :
  Z.of_nat N < L →
  randint_outcome 1 (1 + L / Z.of_nat N) N gaps →
  randint_outcome 0 (vmax + 1) N vels →
  initialize N gaps vels s0 = Some (tt, s) →
  invariant L N vmax 0 s ∨ off_road_start L N vmax s.
Proof.
  intros HNL Hgaps Hvels Hrun.
  destruct (decide (Forall (λ x, x ≤ L - 1) (pos s))) as [Hroad|Hroad].
  { left. by eapply initialize_invariant. }
  right. destruct Hgaps as [Hgl Hg]. destruct Hvels as [Hvl Hv].
  destruct (decide (N = 0)%nat) as [HN|HN].
  { rewrite HN in *. destruct gaps; [|done]. by vm_compute in Hrun. }
  rewrite initialize_run in Hrun by (done || lia). simplify_eq/=.
  set (g := L / Z.of_nat (length gaps)) in *.
  assert (Z.of_nat (length gaps) * g ≤ L) as Hmul.
  { subst g. apply Z.mul_div_le. lia. }
  assert (ascending (running 0 gaps)) as Hasc.
  { apply running_ascending. eapply Forall_impl; [exact Hg|]. simpl. lia. }
  destruct (lookup_lt_is_Some_2 (running 0 gaps) (length gaps - 1)) as [y Hy].
  { rewrite length_running. lia. }
  assert (last (running 0 gaps) = Some y) as Hlast.
  { rewrite last_lookup, length_running. by replace (pred (length gaps)) with (length gaps - 1)%nat by lia. }
  destruct (running_last_le g 0 gaps y) as [Hle Heq]; [|done|].
  { eapply Forall_impl; [exact Hg|]. simpl. lia. }
  assert (L ≤ y) as Hy_off.
  { apply not_Forall_Exists in Hroad; [|apply _].
    apply Exists_exists in Hroad as (x & Hx & Hxl). simpl in Hxl.
    apply list_elem_of_lookup in Hx as [i Hi].
    pose proof (lookup_lt_Some _ _ _ Hi) as Hil. rewrite length_running in Hil.
    destruct (decide (i = length gaps - 1)%nat) as [->|Hne]; [simplify_eq; lia|].
    pose proof (ascending_lt _ i (length gaps - 1) x y Hasc ltac:(lia) Hi Hy). lia. }
  exists g. split; [|split; [lia|split; [|split]]].
  - assert (g ≠ 1) by nia. assert (1 ≤ g); [|lia].
    apply Z.div_le_lower_bound; lia.
  - rewrite (Heq ltac:(lia)) at 1. done.
  - done.
  - intros i v Hi. rewrite Forall_forall in Hv.
    specialize (Hv v (list_elem_of_lookup_2 _ _ _ Hi)). lia.
Qed.

End NS_off_road.

(** The positions when every gap is [g]. *)
Lemma running_replicate (n : nat) (acc g : Z) (i : nat) :
  (i < n)%nat → NS.running acc (replicate n g) !! i = Some (acc + (Z.of_nat i + 1) * g).
Proof.
  revert acc i. induction n as [|n IH]; intros acc i Hi; [lia|].
  destruct i as [|i]; simpl.
  - f_equal. lia.
  - rewrite IH by lia. f_equal. lia.
Qed.

(** The three velocity rules when the gap can be [0]: the velocity can
    become [-1]. *)
Lemma rules_bounds_tight (vmax : Z) (p : Q) (u : nat → Q) (k : nat) (gap v : Z) :
  0 ≤ gap → 0 ≤ v ≤ vmax →
  let w := (NS.randomize p u k (NS.slow_down gap (NS.accelerate vmax v))).1 in
  -1 ≤ w ≤ vmax ∧ w ≤ gap - 1.
Proof.
  intros Hg Hv. unfold NS.randomize, NS.slow_down, NS.accelerate.
  destruct (Z.ltb_spec v vmax);
    [destruct (Z.leb_spec gap (v + 1))|destruct (Z.leb_spec gap v)];
    [destruct (Z.leb_spec 1 (gap - 1))|destruct (Z.leb_spec 1 (v + 1))
    |destruct (Z.leb_spec 1 (gap - 1))|destruct (Z.leb_spec 1 v)];
    try destruct (Qltb (u k) p); simpl; lia.
Qed.

(** The update loop started with the last vehicle at position [L]: the test
    of the last block succeeds after vehicle 0, the lists are rotated in the
    middle of the loop, and the loop goes on; at its end the vehicles are on
    the road, in order. *)
Lemma update_off_road_start (L : Z) (N : nat) (vmax : Z) (p : Q) (u : nat → Q)
    (s : NS.state) :
  Z.of_nat N < L → NS.off_road_start L N vmax s →
  ∃ s', NS.update L N vmax p u s = Some (tt, s') ∧ NS.invariant L N vmax (-1) s'.
Proof.
  intros HNL (g & Hg & HL & Hpos & Hvl & Hvb).
  destruct s as [ps vs tr k]. simpl in *. subst ps.
  destruct (decide (N = 0)%nat) as [->|HN0]; [lia|].
  destruct (decide (N = 1)%nat) as [->|HN1]; [|destruct (decide (N = 2)%nat) as [->|HN2]].
  - (* one vehicle *)
    destruct vs as [|v [|? ?]]; try done.
    unfold NS.update. cbn [seq NS.for_each]. rewrite bind_run.
    rewrite update_vehicle_run by (simpl; lia).
    unfold NS.vehicle_step, NS.vehicle_move, NS.ahead, NS.gap_to. simpl.
    replace (0 + g) with L by lia.
    set (w := (NS.randomize p u k (NS.slow_down (L - L - 1 + L) (NS.accelerate vmax v))).1).
    destruct (rules_bounds vmax p u 0 ltac:(lia) ltac:(lia) k (L - L - 1 + L) v) as [Hw1 Hw2];
      [lia|apply (Hvb 0%nat); done|]. fold w in Hw1, Hw2.
    unfold NS.rotate. simpl. rewrite (proj2 (Z.leb_le _ _)) by lia.
    eexists. split; [done|]. constructor; simpl; [done|done|..].
    + intros i a b Ha Hb. destruct i; done.
    + intros x [= <-]. lia.
    + intros y [= <-]. lia.
    + intros x y [= <-] [= <-]. lia.
    + intros [|i] v'; [|done]. intros [= <-]. lia.
  - (* two vehicles *)
    destruct vs as [|v0 [|v1 [|? ?]]]; try done.
    unfold NS.update. cbn [seq NS.for_each]. rewrite bind_run.
    rewrite update_vehicle_run by (simpl; lia).
    unfold NS.vehicle_step at 1, NS.vehicle_move, NS.ahead, NS.gap_to. simpl.
    replace (0 + g + g - (0 + g)) with g by lia.
    set (w := (NS.randomize p u k (NS.slow_down g (NS.accelerate vmax v0))).1).
    set (k1 := (NS.randomize p u k (NS.slow_down g (NS.accelerate vmax v0))).2).
    destruct (rules_bounds vmax p u 0 ltac:(lia) ltac:(lia) k g v0) as [Hw1 Hw2];
      [lia|apply (Hvb 0%nat); done|]. fold w in Hw1, Hw2.
    unfold NS.rotate at 1. simpl. rewrite (proj2 (Z.leb_le _ _)) by lia. simpl.
    rewrite bind_run, update_vehicle_run by (simpl; lia).
    unfold NS.vehicle_step, NS.vehicle_move, NS.ahead, NS.gap_to. simpl.
    set (w' := (NS.randomize p u k1 (NS.slow_down _ (NS.accelerate vmax w))).1).
    destruct (rules_bounds_tight vmax p u k1 (L - (0 + g + w) - 1 + (0 + g + g - L)) w)
      as [Hw1' Hw2']; [lia|lia|]. fold w' in Hw1', Hw2'.
    unfold NS.rotate. simpl. rewrite (proj2 (Z.leb_gt _ _)) by lia.
    eexists. split; [done|]. constructor; simpl; [done|done|..].
    + intros [|[|i]] a b; simpl; try done. intros [= <-] [= <-]. lia.
    + intros x [= <-]. lia.
    + intros y [= <-]. lia.
    + intros x y [= <-] [= <-]. lia.
    + intros [|[|i]] v'; simpl; try done; intros [= <-]; [|lia].
      specialize (Hvb 1%nat v1 eq_refl). lia.
  - (* three vehicles or more *)
    destruct (lookup_lt_is_Some_2 vs 0) as [v0 Hv0]; [lia|].
    destruct (lookup_lt_is_Some_2 vs (N - 1)) as [vl Hvl']; [lia|].
    assert (∀ i, (i < N)%nat →
              NS.running 0 (replicate N g) !! i = Some ((Z.of_nat i + 1) * g)) as Hrun.
    { intros i Hi. rewrite running_replicate by done. f_equal; lia. }
    unfold NS.update.
    replace (seq 0 N) with (0%nat :: seq 1 (N - 1))
      by (destruct N; [done|]; simpl; by rewrite Nat.sub_0_r).
    cbn [NS.for_each]. rewrite bind_run.
    rewrite update_vehicle_run by (simpl; rewrite ?length_running, ?length_replicate; lia).
    unfold NS.vehicle_step, NS.vehicle_move, NS.ahead, NS.gap_to.
    cbn [NS.pos NS.vel NS.calls NS.traffic].
    rewrite (proj2 (Z.ltb_lt _ _)) by lia.
    rewrite Hv0, !Hrun by lia. simpl.
    replace ((Z.of_nat 1 + 1) * g - (Z.of_nat 0 + 1) * g) with g by lia.
    set (w := (NS.randomize p u k (NS.slow_down g (NS.accelerate vmax v0))).1).
    destruct (rules_bounds vmax p u 0 ltac:(lia) ltac:(lia) k g v0) as [Hw1 Hw2];
      [lia|by apply (Hvb 0%nat)|]. fold w in Hw1, Hw2.
    unfold NS.rotate. cbn [NS.pos NS.vel NS.calls NS.traffic].
    rewrite !list_lookup_insert_ne, Hrun, Hvl' by lia.
    rewrite (proj2 (Z.leb_le _ _)) by (replace (Z.of_nat (N - 1) + 1) with (Z.of_nat N); lia).
    replace ((Z.of_nat (N - 1) + 1) * g - L) with 0
      by (replace (Z.of_nat (N - 1) + 1) with (Z.of_nat N); lia).
    replace ((Z.of_nat 0 + 1) * g + w) with (g + w) by lia.
    match goal with |- context [NS.for_each _ _ ?s1] => set (S1 := s1) end.
    assert (NS.invariant L N vmax 0 S1) as Hinv.
    { assert (∀ j, (delete (N - 1)%nat (<[0%nat:=g + w]> (NS.running 0 (replicate N g)))) !! j =
                   if decide (j = 0)%nat then Some (g + w)
                   else if decide (j < N - 1)%nat then Some ((Z.of_nat j + 1) * g) else None) as Hdp.
      { intros j. rewrite list_lookup_delete.
        destruct (decide (j < N - 1)%nat) as [Hj|Hj];
          destruct (decide (j = 0)%nat) as [->|Hj0]; try lia.
        - by rewrite list_lookup_insert_eq by (rewrite length_running, length_replicate; lia).
        - rewrite list_lookup_insert_ne by lia. apply Hrun. lia.
        - apply lookup_ge_None_2.
          rewrite length_insert, length_running, length_replicate. lia. }
      assert (∀ (x : Z) l, (x :: l) !! (N - 1)%nat = l !! (N - 2)%nat) as Hc.
      { intros x l. by replace (N - 1)%nat with (S (N - 2)) by lia. }
      subst S1. constructor; cbn [NS.pos NS.vel].
      - simpl. rewrite length_delete, length_insert, length_running, length_replicate; [lia|].
        apply lookup_lt_is_Some_2. rewrite length_insert, length_running, length_replicate. lia.
      - simpl. rewrite length_delete, length_insert; [lia|].
        apply lookup_lt_is_Some_2. rewrite length_insert. lia.
      - intros [|j] a b; simpl; rewrite !Hdp.
        + intros [= <-]. rewrite decide_True by done. intros [= <-]. lia.
        + repeat case_decide; try done; intros [= <-] [= <-]; nia.
      - intros x [= <-]. lia.
      - intros y. rewrite Hc, Hdp.
        rewrite decide_False by lia. rewrite decide_True by lia. intros [= <-]. nia.
      - intros x y [= <-]. rewrite Hc, Hdp.
        rewrite decide_False by lia. rewrite decide_True by lia. intros [= <-]. nia.
      - intros [|j] v; simpl.
        + intros [= <-]. by apply (Hvb (N - 1)%nat).
        + rewrite list_lookup_delete. case_decide.
          * destruct (decide (j = 0)%nat) as [->|Hj0].
            -- rewrite list_lookup_insert_eq by lia. intros [= <-]. lia.
            -- rewrite list_lookup_insert_ne by lia. apply Hvb.
          * rewrite list_lookup_insert_ne by lia. apply Hvb. }
    destruct (for_each_invariant L N vmax p u 0 ltac:(lia) ltac:(lia) (seq 1 (N - 1)) S1)
      as (s' & Hs' & Hinv'); [|done|].
    { apply Forall_forall. intros i Hi%elem_of_seq. lia. }
    exists s'. split; [done|]. apply invariant_weaken with 0; [lia|done].
Qed.

(** ** The reachable states with fewer vehicles than cells *)

Section NS_reachable_all.

Import NS.

Variables (L : Z) (N : nat) (vmax : Z) (p : Q) (u : nat → Q).

Hypothesis N_lt_L : Z.of_nat N < L.

(** With a vehicle on the road, the bound [vmax] of the initial velocities
    is not negative. *)
Lemma reachable_vmax s : reachable L N vmax p u s → (0 < N)%nat → 0 ≤ vmax.
Proof.
  induction 1 as [gaps vels s0 s Hg [Hlen Hv] Hrun|s s' _ IH Hrun|t s s' _ IH Hrun];
    [|done..].
  intros HN. destruct vels as [|v vels]; [simpl in Hlen; lia|].
  apply Forall_cons in Hv as [Hv _]. lia.
Qed.

(** Every reachable state satisfies the invariant of the update loop with
    the velocities from [-1] on, or is an initial state with the last
    vehicle at position [L]. *)
Lemma reachable_invariant s :
  reachable L N vmax p u s →
  invariant L N vmax (-1) s ∨ off_road_start L N vmax s.
Proof.
  intros Hreach. pose proof (reachable_vmax s Hreach) as Hvmax.
  induction Hreach as [gaps vels s0 s Hg Hv Hrun|s s' Hreach IH Hrun|t s s' Hreach IH Hrun].
  - destruct (initialize_outcome L N vmax gaps vels s0 s N_lt_L Hg Hv Hrun) as [Hinv|Hoff];
      [left|by right]. apply invariant_weaken with 0; [lia|done].
  - left. destruct IH as [Hinv|Hoff].
    + destruct (decide (N = 0)%nat) as [HN|HN].
      * unfold update in Hrun. rewrite HN in Hrun. simpl in Hrun.
        by injection Hrun as <-.
      * destruct (update_invariant_from L N vmax p u (-1) ltac:(lia)
                    ltac:(intros _; apply Hvmax; lia) s Hinv) as (s'' & Hrun' & Hinv').
        congruence.
    + destruct (update_off_road_start L N vmax p u s N_lt_L Hoff) as (s'' & Hrun' & Hinv').
      congruence.
  - apply draw_frame in Hrun as (Hp & Hv & _). destruct IH as [Hinv|Hoff].
    + left. by eapply invariant_frame.
    + right. unfold off_road_start. by rewrite Hp, Hv.
Qed.

(** The update loop succeeds from every reachable state, and leaves the
    vehicles on the road, in order. *)
Lemma reachable_update s :
  reachable L N vmax p u s →
  ∃ s', update L N vmax p u s = Some (tt, s') ∧ invariant L N vmax (-1) s'.
Proof.
  intros Hreach. destruct (reachable_invariant s Hreach) as [Hinv|Hoff].
  - destruct (decide (N = 0)%nat) as [HN|HN].
    + exists s. split; [|done]. unfold update. by rewrite HN.
    + apply (update_invariant_from L N vmax p u (-1)); [lia| |done].
      intros _. apply (reachable_vmax s Hreach). lia.
  - by apply update_off_road_start.
Qed.

(** The cells of the vehicles of a state of the invariant. *)
Lemma invariant_cells_mod lo s :
  invariant L N vmax lo s → (λ x, x `mod` L) <$> pos s = pos s.
Proof.
  intros Hinv. pose proof (invariant_cells L N vmax lo s Hinv) as Hcells.
  induction Hcells as [|x l Hx _ IH]; [done|]. simpl.
  f_equal; [apply Z.mod_small; lia|done].
Qed.

(** The initial state with the last vehicle at position [L]: the vehicles
    are in order, on pairwise different cells of the circular road. *)
Lemma off_road_cells s :
  off_road_start L N vmax s →
  NoDup ((λ x, x `mod` L) <$> pos s) ∧ ascending (pos s) ∧
  Forall (λ x, 0 ≤ x ≤ L) (pos s).
Proof.
  intros (g & Hg & HL & Hpos & _). rewrite Hpos.
  assert (∀ i x, running 0 (replicate N g) !! i = Some x →
            (i < N)%nat ∧ x = (Z.of_nat i + 1) * g) as Hrun.
  { intros i x Hx. pose proof (lookup_lt_Some _ _ _ Hx) as Hi.
    rewrite length_running, length_replicate in Hi.
    rewrite running_replicate in Hx by done. split; [done|]. injection Hx as <-. lia. }
  split; [|split].
  - apply NoDup_alt. intros i j c. rewrite !list_lookup_fmap.
    destruct (running 0 (replicate N g) !! i) as [x|] eqn:Hx; [|done].
    destruct (running 0 (replicate N g) !! j) as [y|] eqn:Hy; [|done].
    apply Hrun in Hx as [Hi ->]. apply Hrun in Hy as [Hj ->]. simpl.
    intros [= <-] [= Heq].
    assert (∀ k, (k < N)%nat →
              ((Z.of_nat k + 1) * g) `mod` L =
                if decide (k = N - 1)%nat then 0 else (Z.of_nat k + 1) * g) as Hmod.
    { intros k Hk. case_decide as Hkl.
      - replace ((Z.of_nat k + 1) * g) with L by (subst k; nia).
        apply Z.mod_same. lia.
      - apply Z.mod_small. nia. }
    rewrite !Hmod in Heq by done. repeat case_decide; nia.
  - intros i a b Ha Hb. apply Hrun in Ha as [_ ->]. apply Hrun in Hb as [_ ->]. nia.
  - apply Forall_lookup. intros i x Hx. apply Hrun in Hx as [Hi ->]. nia.
Qed.

End NS_reachable_all.
(** ** The claims about one time step *)

(** Proves [ascending] on a list given by its elements. *)
Ltac solve_ascending :=
  let i := fresh "i" in
  intros i ? ?;
  repeat (destruct i as [|i]; simpl; [by (intros [= <-] [= <-]) || by intros [= <-]|]);
  done.

Section NS_step_claims.

Import NS.

(** C1. On every well-formed traffic state the update loop succeeds and
    computes one step of the specification: the four sub-rules
    (acceleration, slowing down with the wrap agent's gap
    [(L - position - 1) + position_of_agent_0], random deceleration drawing
    only when the velocity is at least 1, motion without reduction modulo
    [L]) on each agent in index order, followed by the wrap
    normalization; it draws the same number of random values and leaves
    the snapshot array alone. *)
Theorem update_applies_the_four_rules (L : Z) (N : nat) (vmax : Z) (p : Q)
    (u : nat → Q) (s : state) :
  well_formed L N vmax s →
  ∃ s', update L N vmax p u s = Some (tt, s') ∧
        (agents_of s', calls s') =
          Spec.Traffic.step L vmax p u (agents_of s, calls s) ∧
        traffic s' = traffic s.
Proof.
  intros [Hp Hv _ Hcells _]. apply update_refines; [done..|].
  intros y Hy. rewrite Forall_forall in Hcells.
  specialize (Hcells y (list_elem_of_lookup_2 _ _ _ Hy)). lia.
Qed.

Lemma update_applies_the_four_rules_witness :
  let s := State [0; 5] [0; 0] [] 0 in
  well_formed 10 2 2 s ∧
  ∃ s', update 10 2 2 (1#5) (λ _, 1#2)%Q s = Some (tt, s') ∧
        (agents_of s', calls s') =
          Spec.Traffic.step 10 2 (1#5) (λ _, 1#2)%Q (agents_of s, calls s) ∧
        traffic s' = traffic s.
Proof.
  intros s.
  assert (well_formed 10 2 2 s) as Hwf.
  { constructor; simpl; [done|done|solve_ascending|repeat constructor; lia..]. }
  split; [exact Hwf|].
  exact (update_applies_the_four_rules 10 2 2 (1#5) (λ _, 1#2)%Q s Hwf).
Defined.

(** C4. With fewer vehicles than cells, in every reachable state the
    vehicles stand in ascending order on pairwise different cells of the
    circular road (the initialisation can leave the last vehicle at
    position [L], the cell 0 of the next lap, and only there can a
    position leave [0 .. L-1]); the update loop succeeds from it, and
    after the step the vehicles stand on pairwise different cells of
    [0 .. L-1], in ascending order.  When the step starts with all the
    vehicles on the road, its last action is the wrap normalization of
    the specification (a last vehicle at or beyond [L] loses [L] and
    moves to the front of both lists). *)
Theorem reachable_states_keep_order (L : Z) (N : nat) (vmax : Z) (p : Q)
    (u : nat → Q) (s : state) :
  Z.of_nat N < L →
  reachable L N vmax p u s →
  (NoDup ((λ x, x `mod` L) <$> pos s) ∧ ascending (pos s) ∧
   Forall (λ x, 0 ≤ x ≤ L) (pos s)) ∧
  ∃ s', update L N vmax p u s = Some (tt, s') ∧
        NoDup (pos s') ∧ ascending (pos s') ∧
        Forall (λ x, 0 ≤ x ≤ L - 1) (pos s') ∧
        (Forall (λ x, x ≤ L - 1) (pos s) →
         agents_of s' =
           Spec.Traffic.normalize L
             (Spec.Traffic.move_all L vmax p u (agents_of s, calls s)).1).
Proof.
  intros HNL Hreach.
  destruct (reachable_update L N vmax p u HNL s Hreach) as (s' & Hrun & Hinv').
  split.
  { destruct (reachable_invariant L N vmax p u HNL s Hreach) as [Hinv|Hoff].
    - rewrite (invariant_cells_mod L N vmax (-1) s Hinv).
      split; [apply ascending_NoDup, Hinv|]. split; [apply Hinv|].
      eapply Forall_impl; [by apply invariant_cells with N vmax (-1)|].
      simpl. intros x Hx. lia.
    - by apply off_road_cells with N vmax. }
  exists s'. split; [done|].
  split; [apply ascending_NoDup, Hinv'|]. split; [apply Hinv'|].
  split; [by apply invariant_cells with N vmax (-1)|].
  intros Hroad.
  assert (∀ y, pos s !! (N - 1)%nat = Some y → y < L) as Hlast.
  { intros y Hy. rewrite Forall_forall in Hroad.
    specialize (Hroad y (list_elem_of_lookup_2 _ _ _ Hy)). lia. }
  assert (length (pos s) = N ∧ length (vel s) = N) as [Hp Hv].
  { destruct (reachable_invariant L N vmax p u HNL s Hreach) as [Hinv|Hoff].
    - split; apply Hinv.
    - destruct Hoff as (g & _ & _ & -> & Hv & _).
      by rewrite length_running, length_replicate. }
  destruct (update_refines L N vmax p u s Hp Hv Hlast) as (s'' & Hrun' & Hag & _).
  rewrite Hrun in Hrun'. injection Hrun' as <-.
  unfold Spec.Traffic.step in Hag. by injection Hag.
Qed.

Lemma reachable_states_keep_order_witness :
  let s := State [1; 5] [0; 2] [] 0 in
  Z.of_nat 2 < 10 ∧
  reachable 10 2 2 (1#5) (λ _, 1#2)%Q s ∧
  (NoDup ((λ x, x `mod` 10) <$> pos s) ∧ ascending (pos s) ∧
   Forall (λ x, 0 ≤ x ≤ 10) (pos s)) ∧
  ∃ s', update 10 2 2 (1#5) (λ _, 1#2)%Q s = Some (tt, s') ∧
        NoDup (pos s') ∧ ascending (pos s') ∧
        Forall (λ x, 0 ≤ x ≤ 10 - 1) (pos s') ∧
        (Forall (λ x, x ≤ 10 - 1) (pos s) →
         agents_of s' =
           Spec.Traffic.normalize 10
             (Spec.Traffic.move_all 10 2 (1#5) (λ _, 1#2)%Q (agents_of s, calls s)).1).
Proof.
  intros s.
  assert (Z.of_nat 2 < 10) as HNL by lia.
  assert (reachable 10 2 2 (1#5) (λ _, 1#2)%Q s) as Hreach.
  { apply (reach_initialize 10 2 2 (1#5) (λ _, 1#2)%Q [1; 4] [0; 2] (State [] [] [] 0)).
    - split; [done|]. repeat constructor; vm_compute; congruence.
    - split; [done|]. repeat constructor; vm_compute; congruence.
    - reflexivity. }
  split; [exact HNL|]. split; [exact Hreach|].
  exact (reachable_states_keep_order 10 2 2 (1#5) (λ _, 1#2)%Q s HNL Hreach).
Defined.

(** With as many vehicles as cells the initialisation has one
    outcome, every gap equal to [1] and the last vehicle at position [L];
    the first update loop then puts two vehicles on one cell.  With
    [L = 2], [N = 2]: the positions [1; 2] become [0; 0]. *)
Lemma full_road_collides :
  randint_outcome 1 (1 + 2 / Z.of_nat 2) 2 [1; 1] ∧
  (∀ gaps, randint_outcome 1 (1 + 2 / Z.of_nat 2) 2 gaps → gaps = [1; 1]) ∧
  ∃ s, initialize 2 [1; 1] [0; 0] (State [] [] [] 0) = Some (tt, s) ∧
       pos s = [1; 2] ∧
       update 2 2 2 (1#5) (λ _, 1#2)%Q s = Some (tt, State [0; 0] [0; -1] [] 0).
Proof.
  split; [|split].
  - split; [done|]. repeat constructor; vm_compute; congruence.
  - intros gaps [Hlen Hall]. destruct gaps as [|a [|b [|? ?]]]; try done.
    apply Forall_cons in Hall as [Ha Hall]. apply Forall_cons in Hall as [Hb _].
    change (2 / Z.of_nat 2) with 1 in Ha, Hb. f_equal; [lia|f_equal; lia].
  - eexists. split; [by vm_compute|]. split; by vm_compute.
Qed.

End NS_step_claims.

(** ** The gap of the last vehicle *)

Section NS_wrap_gap.

Import NS.

(** A state of the invariant with the velocities from [0] on has every
    velocity between [0] and [vmax]; the initialisation gives such a state
    whenever it leaves the last vehicle on the road
    ([initialize_invariant]) and the update loop keeps it
    ([update_invariant]). *)
Lemma invariant_velocity_bounds (L : Z) (N : nat) (vmax : Z) (s : state) :
  invariant L N vmax 0 s → Forall (λ v, 0 ≤ v ≤ vmax) (vel s).
Proof.
  intros Hinv. apply (wf_bounds L N vmax s), invariant_well_formed, Hinv.
Qed.

(** C7. The velocity bounds fail on a well-formed state: with [L = 10],
    three vehicles at [0; 1; 9], all stopped, [vmax = 2], vehicle 0 is
    blocked at cell 0 by vehicle 1, the last vehicle computes the gap
    [(10 - 9 - 1) + 0 = 0] and its velocity becomes [0 - 1 = -1]: it moves
    backwards from cell 9 to cell 8. *)
Theorem wrap_gap_zero_gives_negative_velocity :
  let s := State [0; 1; 9] [0; 0; 0] [] 0 in
  well_formed 10 3 2 s ∧
  update 10 3 2 (1#5) (λ _, 1#2)%Q s = Some (tt, State [0; 2; 8] [0; 1; -1] [] 1).
Proof.
  split; [|by vm_compute].
  constructor; simpl; [done|done|solve_ascending|repeat constructor; lia..].
Qed.

(** The same from the initialisation with [L = 4], [N = 2] and both gaps
    equal to [2], which puts the last vehicle on cell [4]: the single-step
    cell moves it to the front after vehicle 0 and then updates vehicle 0 a
    second time, as the last vehicle, with gap [0]. *)
Lemma off_road_start_gives_negative_velocity :
  ∃ s, initialize 2 [2; 2] [0; 0] (State [] [] [] 0) = Some (tt, s) ∧
       pos s = [2; 4] ∧
       update 4 2 2 (1#5) (λ _, 1#2)%Q s = Some (tt, State [0; 2] [0; -1] [] 1).
Proof. eexists. split; [by vm_compute|]. split; by vm_compute. Qed.

(** When a collision follows: with a fourth vehicle at cell 7 the last
    vehicle lands on the cell vehicle 2 has just moved to. *)
Lemma wrap_gap_zero_gives_collision :
  let s := State [0; 1; 7; 9] [0; 0; 0; 0] [] 0 in
  well_formed 10 4 2 s ∧
  update 10 4 2 (1#5) (λ _, 1#2)%Q s = Some (tt, State [0; 2; 8; 8] [0; 1; 1; -1] [] 2).
Proof.
  split; [|by vm_compute].
  constructor; simpl; [done|done|solve_ascending|repeat constructor; lia..].
Qed.

(** C3. The last vehicle reads [pos[0]] after vehicle 0 has moved.  From
    the outcome [gaps = [1; 2]], [vel = [0; 1]] of the initialisation with
    [L = 4], [N = 2], [vmax = 2]: vehicle 0 moves from cell 1 to cell 2;
    the last vehicle, at cell 3 with velocity 2 after acceleration, computes
    the gap [(4 - 3 - 1) + 2 = 2] from the new position, keeps velocity 1
    and wraps to cell 0.  With the position vehicle 0 had at the start of
    the tick the gap is [(4 - 3 - 1) + 1 = 1] and the vehicle stays at cell
    3 with velocity 0. *)
Theorem wrap_gap_reads_moved_vehicle_0 :
  let s := State [1; 3] [0; 1] [] 0 in
  let s' := State [0; 2] [1; 1] [] 2 in
  initialize 2 [1; 2] [0; 1] (State [] [] [] 0) = Some (tt, s) ∧
  reachable 4 2 2 (1#5) (λ _, 1#2)%Q s ∧
  update 4 2 2 (1#5) (λ _, 1#2)%Q s = Some (tt, s') ∧
  agents_of s' = (Spec.Traffic.step 4 2 (1#5) (λ _, 1#2)%Q (agents_of s, calls s)).1 ∧
  (Spec.Traffic.step_snapshot 4 2 (1#5) (λ _, 1#2)%Q (agents_of s, calls s)).1 =
    [Spec.Traffic.Build_Agent 2 1; Spec.Traffic.Build_Agent 3 0].
Proof.
  intros s s'. split; [by vm_compute|]. split.
  { apply (reach_initialize 4 2 2 (1#5) (λ _, 1#2)%Q [1; 2] [0; 1] (State [] [] [] 0)).
    - split; [done|]. repeat constructor; vm_compute; congruence.
    - split; [done|]. repeat constructor; vm_compute; congruence.
    - by vm_compute. }
  split; [by vm_compute|]. split; by vm_compute.
Qed.

End NS_wrap_gap.

(** ** What a run depends on *)

Section NS_random_source.

Import NS.

Variables (L : Z) (N : nat) (vmax : Z).

Lemma for_each_ext {A} (l : list A) (f g : A → M unit) (s : state) :
  (∀ x s, f x s = g x s) → for_each l f s = for_each l g s.
Proof.
  intros Hfg. revert s. induction l as [|x l IH]; intros s; simpl; [done|].
  rewrite !bind_run, Hfg. destruct (g x s) as [[[] s1]|]; [apply IH|done].
Qed.

(** The update loop sees the random source only through the outcomes of
    the tests [np.random.rand() < p]. *)
Lemma random_deceleration_ext (p1 p2 : Q) (u1 u2 : nat → Q) i s :
  (∀ k, Qltb (u1 k) p1 = Qltb (u2 k) p2) →
  random_deceleration p1 u1 i s = random_deceleration p2 u2 i s.
Proof.
  intros Hu. unfold random_deceleration. rewrite !bind_run.
  destruct (get_vel i s) as [[v s1]|]; [|done].
  unfold when. destruct (1 <=? v); [|done].
  rewrite !bind_run. unfold np_random_rand. by rewrite Hu.
Qed.

Lemma update_vehicle_ext (p1 p2 : Q) (u1 u2 : nat → Q) i s :
  (∀ k, Qltb (u1 k) p1 = Qltb (u2 k) p2) →
  update_vehicle L N vmax p1 u1 i s = update_vehicle L N vmax p2 u2 i s.
Proof.
  intros Hu. unfold update_vehicle. rewrite !bind_run.
  destruct (acceleration vmax i s) as [[[] s1]|]; [|done].
  rewrite !bind_run. destruct (slowing_down L N i s1) as [[[] s2]|]; [|done].
  rewrite !bind_run. by rewrite (random_deceleration_ext p1 p2 u1 u2).
Qed.

Lemma update_ext (p1 p2 : Q) (u1 u2 : nat → Q) s :
  (∀ k, Qltb (u1 k) p1 = Qltb (u2 k) p2) →
  update L N vmax p1 u1 s = update L N vmax p2 u2 s.
Proof.
  intros Hu. apply for_each_ext. intros i s1. by apply update_vehicle_ext.
Qed.

Lemma simulate_ext (p1 p2 : Q) (u1 u2 : nat → Q) T s :
  (∀ k, Qltb (u1 k) p1 = Qltb (u2 k) p2) →
  simulate L N vmax p1 u1 T s = simulate L N vmax p2 u2 T s.
Proof.
  intros Hu. destruct (decide (0 ≤ L)) as [HL|HL].
  2: { by rewrite !simulate_negative by lia. }
  rewrite !simulate_nonneg by done.
  apply for_each_ext. intros t s2. unfold time_step. rewrite !bind_run.
  destruct (draw N t s2) as [[[] s3]|]; [|done]. by apply update_ext.
Qed.

Lemma Qltb_proper (a b q : Q) : (a == b)%Q → Qltb a q = Qltb b q.
Proof.
  intros Hab. destruct (Qltb b q) eqn:E.
  - apply Qltb_lt. apply Qltb_lt in E. by rewrite Hab.
  - apply not_true_iff_false. rewrite Qltb_lt.
    apply not_true_iff_false in E. rewrite Qltb_lt in E. by rewrite Hab.
Qed.

Lemma Qltb_zero (r : Q) : (0 <= r)%Q → Qltb r 0 = false.
Proof.
  intros Hr. apply not_true_iff_false. rewrite Qltb_lt. by apply Qle_not_lt.
Qed.

End NS_random_source.

Section NS_determinism_claims.

Import NS.

(** C6, as worded, fails: the update loop reads the hidden module-level
    generator, which the code neither receives nor seeds.  With the
    parameters of the notebook's kind ([L = 10], [N = 2], [vmax = 2],
    [p = 0.2]) and the same initial state, a run whose draws are all [0.5]
    lets both vehicles accelerate, and a run whose draws are all [0.0]
    keeps them where they are. *)
Lemma runs_differ_with_the_hidden_generator :
  let s := State [0; 5] [0; 0] [] 0 in
  simulate 10 2 2 (1#5) (λ _, 1#2)%Q 2 s =
    Some (tt, State [3; 8] [2; 2]
                [[1; 0; 0; 0; 0; 1; 0; 0; 0; 0]; [0; 2; 0; 0; 0; 0; 2; 0; 0; 0]] 4) ∧
  simulate 10 2 2 (1#5) (λ _, 0)%Q 2 s =
    Some (tt, State [0; 5] [0; 0]
                [[1; 0; 0; 0; 0; 1; 0; 0; 0; 0]; [1; 0; 0; 0; 0; 1; 0; 0; 0; 0]] 4) ∧
  ¬ determined_by_parameters 10 2 2 (1#5) 2 s.
Proof.
  intros s. split; [by vm_compute|]. split; [by vm_compute|].
  intros H. specialize (H (λ _, 1#2)%Q (λ _, 0)%Q). by vm_compute in H.
Qed.

(** C6, amended.  A run is a function of the parameters, the initial
    state and the values the calls of [np.random.rand()] return: two runs
    that are handed the same values produce the same positions, velocities
    and snapshot array, whatever the number of steps. *)
Theorem runs_agree_on_equal_draws (L : Z) (N : nat) (vmax : Z) (p : Q)
    (u1 u2 : nat → Q) (T : nat) (s : state) :
  (∀ k, (u1 k == u2 k)%Q) →
  simulate L N vmax p u1 T s = simulate L N vmax p u2 T s ∧
  update L N vmax p u1 s = update L N vmax p u2 s.
Proof.
  intros Hu. split; [apply simulate_ext|apply update_ext];
    intros k; apply Qltb_proper, Hu.
Qed.

Lemma runs_agree_on_equal_draws_witness :
  let s := State [0; 5] [0; 0] [] 0 in
  (∀ k : nat, ((λ _, 1#2) k == (λ _, 2#4) k)%Q) ∧
  simulate 10 2 2 (1#5) (λ _, 1#2)%Q 3 s = simulate 10 2 2 (1#5) (λ _, 2#4)%Q 3 s ∧
  update 10 2 2 (1#5) (λ _, 1#2)%Q s = update 10 2 2 (1#5) (λ _, 2#4)%Q s.
Proof.
  intros s.
  assert (∀ k : nat, ((λ _, 1#2) k == (λ _, 2#4) k)%Q) as Hu by (intros k; reflexivity).
  split; [exact Hu|].
  exact (runs_agree_on_equal_draws 10 2 2 (1#5) (λ _, 1#2)%Q (λ _, 2#4)%Q 3 s Hu).
Defined.

(** C8. With [p = 0] the test [np.random.rand() < p] never succeeds, the
    values of [np.random.rand()] lying in [0, 1): any two runs agree,
    whatever the random source hands out.  In the concrete case [L = 10],
    [N = 2], [vmax = 2], vehicles at [0; 5] and stopped, one step gives
    the velocities [1; 1] and the positions [1; 6]; the last vehicle
    computes the gap [(10 - 5 - 1) + 1 = 5]. *)
Theorem zero_probability_is_deterministic (u1 u2 : nat → Q) :
  (∀ k, (0 <= u1 k)%Q) → (∀ k, (0 <= u2 k)%Q) →
  (∀ L N vmax T s,
     simulate L N vmax 0 u1 T s = simulate L N vmax 0 u2 T s ∧
     update L N vmax 0 u1 s = update L N vmax 0 u2 s) ∧
  (∀ tr k, update 10 2 2 0 u1 (State [0; 5] [0; 0] tr k) =
             Some (tt, State [1; 6] [1; 1] tr (S (S k)))) ∧
  gap_to 10 2 1 5 1 = 5.
Proof.
  intros H1 H2. split; [|split; [|done]].
  - intros L N vmax T s.
    split; [apply simulate_ext|apply update_ext];
      intros k; by rewrite !Qltb_zero.
  - intros tr k. rewrite (update_ext 10 2 2 0 0 u1 (λ _, 0%Q)).
    + by vm_compute.
    + intros j. by rewrite !Qltb_zero.
Qed.

Lemma zero_probability_is_deterministic_witness :
  (∀ k : nat, (0 <= (λ _, 1#2) k)%Q) ∧ (∀ k : nat, (0 <= (λ _, 9#10) k)%Q) ∧
  (∀ L N vmax T s,
     simulate L N vmax 0 (λ _, 1#2)%Q T s = simulate L N vmax 0 (λ _, 9#10)%Q T s ∧
     update L N vmax 0 (λ _, 1#2)%Q s = update L N vmax 0 (λ _, 9#10)%Q s) ∧
  (∀ tr k, update 10 2 2 0 (λ _, 1#2)%Q (State [0; 5] [0; 0] tr k) =
             Some (tt, State [1; 6] [1; 1] tr (S (S k)))) ∧
  gap_to 10 2 1 5 1 = 5.
Proof.
  assert (∀ k : nat, (0 <= (λ _, 1#2) k)%Q) as H1 by (intros k; by vm_compute).
  assert (∀ k : nat, (0 <= (λ _, 9#10) k)%Q) as H2 by (intros k; by vm_compute).
  split; [exact H1|]. split; [exact H2|].
  exact (zero_probability_is_deterministic (λ _, 1#2)%Q (λ _, 9#10)%Q H1 H2).
Defined.

End NS_determinism_claims.

(** ** The snapshot array *)

Section NS_snapshot.

Import NS.

Variables (L : Z) (N : nat) (vmax : Z) (p : Q) (u : nat → Q).

Lemma sheet_zeros T W : sheet T W (Py.zeros T W).
Proof.
  unfold Py.zeros. split; [by rewrite length_replicate|].
  apply Forall_replicate. by rewrite length_replicate.
Qed.

Lemma sheet_row T W a t row : sheet T W a → a !! t = Some row → length row = W.
Proof.
  intros [_ Hrows] Ht. rewrite Forall_forall in Hrows.
  apply Hrows. by eapply list_elem_of_lookup_2.
Qed.

Lemma axis_nat (n i : nat) : (i < n)%nat → Py.axis n (Z.of_nat i) = Some i.
Proof. intros Hi. unfold Py.axis. rewrite decide_True by lia. by rewrite Nat2Z.id. Qed.

(** Writing inside the array. *)
Lemma set2_inside T W a (t : nat) (x v : Z) row :
  sheet T W a → a !! t = Some row → 0 ≤ x < Z.of_nat W →
  Py.set2 a (Z.of_nat t) x v = Some (<[t := <[Z.to_nat x := v]> row]> a).
Proof.
  intros Ha Ht Hx. pose proof (sheet_row _ _ _ _ _ Ha Ht) as Hrow.
  unfold Py.set2. rewrite axis_nat by (by eapply lookup_lt_Some). simpl.
  rewrite Ht. simpl. unfold Py.axis. rewrite decide_True by lia. done.
Qed.

(** Writing at column [W] or beyond raises [IndexError]. *)
Lemma set2_outside T W a (t : nat) (x v : Z) row :
  sheet T W a → a !! t = Some row → Z.of_nat W ≤ x →
  Py.set2 a (Z.of_nat t) x v = None.
Proof.
  intros Ha Ht Hx. pose proof (sheet_row _ _ _ _ _ Ha Ht) as Hrow.
  unfold Py.set2. rewrite axis_nat by (by eapply lookup_lt_Some). simpl.
  rewrite Ht. simpl. unfold Py.axis.
  rewrite decide_False by lia. rewrite decide_False by lia. done.
Qed.

Lemma sheet_insert T W a t row :
  sheet T W a → length row = W → sheet T W (<[t := row]> a).
Proof.
  intros [Hlen Hrows] Hrow. split; [by rewrite length_insert|].
  by apply Forall_insert.
Qed.

Lemma length_paint cells row : length (paint cells row) = length row.
Proof.
  revert row. induction cells as [|c cells IH]; intros row; simpl; [done|].
  unfold paint in *. simpl. by rewrite IH, length_insert.
Qed.

(** A cell no vehicle stands on keeps its value. *)
Lemma paint_other cells row (c : nat) :
  (∀ x v, (x, v) ∈ cells → Z.to_nat x ≠ c) → paint cells row !! c = row !! c.
Proof.
  revert row. induction cells as [|[x v] cells IH]; intros row Hc; [done|].
  unfold paint in *. simpl. rewrite IH by (intros; eapply Hc; by right).
  apply list_lookup_insert_ne. eapply Hc. by left.
Qed.

(** The cell of a vehicle holds the value of its velocity, provided no two
    vehicles stand on the same cell. *)
Lemma paint_vehicle cells row (x v : Z) :
  NoDup ((λ c, Z.to_nat c.1) <$> cells) → (x, v) ∈ cells →
  (Z.to_nat x < length row)%nat →
  paint cells row !! Z.to_nat x = Some (traffic_value v).
Proof.
  revert row. induction cells as [|[x' v'] cells IH]; intros row Hnd Hin Hx.
  - by apply elem_of_nil in Hin.
  - rewrite fmap_cons in Hnd. apply NoDup_cons in Hnd as [Hnotin Hnd].
    apply elem_of_cons in Hin as [[= <- <-]|Hin].
    + unfold paint. simpl. fold (paint cells (<[Z.to_nat x := traffic_value v]> row)).
      rewrite paint_other; [by apply list_lookup_insert_eq|].
      intros x2 v2 Hin2 Heq. apply Hnotin. simpl. rewrite <- Heq.
      apply list_elem_of_fmap. by exists (x2, v2).
    + unfold paint. simpl. fold (paint cells (<[Z.to_nat x' := traffic_value v']> row)).
      apply IH; [done..|]. by rewrite length_insert.
Qed.

(** The snapshot loop over the vehicles [l], all of them on columns of the
    array: it paints row [t] and changes nothing else. *)
Lemma draw_loop T W (t : nat) (l : list nat) (s : state) row :
  sheet T W (traffic s) → traffic s !! t = Some row →
  length (pos s) = N → length (vel s) = N →
  Forall (λ i, i < N)%nat l →
  Forall (λ i, ∀ x, pos s !! i = Some x → 0 ≤ x < Z.of_nat W) l →
  for_each l (draw_vehicle t) s =
    Some (tt, State (pos s) (vel s)
                (<[t := paint (cells_of s l) row]> (traffic s)) (calls s)).
Proof.
  intros Hsh Ht Hp Hv Hl. revert s row Hsh Ht Hp Hv.
  induction Hl as [|i l Hi Hl IH]; intros s row Hsh Ht Hp Hv Hroad.
  - simpl. unfold paint. simpl. rewrite list_insert_id by done.
    unfold mret, M_ret. by rewrite state_eta.
  - destruct (lookup_lt_is_Some_2 (pos s) i) as [x Hx]; [lia|].
    destruct (lookup_lt_is_Some_2 (vel s) i) as [v Hvi]; [lia|].
    apply Forall_cons in Hroad as [Hxr Hroad]. specialize (Hxr x Hx).
    cbn [for_each]. rewrite bind_run, (draw_vehicle_run t i s x v) by done.
    unfold set_traffic. rewrite (set2_inside T W _ t x _ row) by done. simpl.
    rewrite (IH _ (<[Z.to_nat x := traffic_value v]> row)); simpl.
    + rewrite list_insert_insert_eq. do 4 f_equal.
      unfold cells_of at 2. simpl.
      by rewrite (list_lookup_total_correct _ _ _ Hx), (list_lookup_total_correct _ _ _ Hvi).
    + apply sheet_insert; [done|]. rewrite length_insert. by eapply sheet_row.
    + apply list_lookup_insert_eq. by eapply lookup_lt_Some.
    + done.
    + done.
    + done.
Qed.

(** The snapshot loop raises [IndexError] when the last vehicle stands at
    column [W] or beyond. *)
Lemma draw_off_road T W (t : nat) (s : state) row x :
  sheet T W (traffic s) → traffic s !! t = Some row →
  length (pos s) = N → length (vel s) = N →
  Forall (λ i, ∀ x, pos s !! i = Some x → 0 ≤ x < Z.of_nat W) (seq 0 (N - 1)) →
  pos s !! (N - 1)%nat = Some x → Z.of_nat W ≤ x →
  draw N t s = None.
Proof.
  intros Hsh Ht Hp Hv Hroad Hx Hout.
  pose proof (lookup_lt_Some _ _ _ Hx) as HN.
  destruct (lookup_lt_is_Some_2 (vel s) (N - 1)) as [v Hvl]; [lia|].
  unfold draw. replace (seq 0 N) with (seq 0 (N - 1) ++ [(N - 1)%nat])
    by (rewrite <- seq_S; f_equal; lia).
  rewrite for_each_app, (draw_loop T W t _ s row); try done.
  - cbn [for_each]. rewrite bind_run, (draw_vehicle_run t _ _ x v) by done.
    unfold set_traffic. simpl.
    rewrite (set2_outside T W _ t x _ (paint (cells_of s (seq 0 (N - 1))) row)).
    + done.
    + apply sheet_insert; [done|]. rewrite length_paint. by eapply sheet_row.
    + apply list_lookup_insert_eq. by eapply lookup_lt_Some.
    + done.
  - apply Forall_forall. intros i Hi%elem_of_seq. lia.
Qed.

Lemma cells_of_elem s x v :
  length (pos s) = N → length (vel s) = N →
  (x, v) ∈ cells_of s (seq 0 N) ↔ ∃ i, pos s !! i = Some x ∧ vel s !! i = Some v.
Proof.
  intros Hp Hv. unfold cells_of. rewrite list_elem_of_fmap. split.
  - intros (i & [= -> ->] & Hi%elem_of_seq). exists i.
    split; apply list_lookup_lookup_total_lt; lia.
  - intros (i & Hx & Hvi). exists i.
    rewrite (list_lookup_total_correct _ _ _ Hx), (list_lookup_total_correct _ _ _ Hvi).
    split; [done|]. apply elem_of_seq. apply lookup_lt_Some in Hx. lia.
Qed.

Lemma cells_of_NoDup lo s :
  invariant L N vmax lo s → NoDup ((λ c, Z.to_nat c.1) <$> cells_of s (seq 0 N)).
Proof.
  intros Hinv. pose proof (invariant_cells L N vmax lo s Hinv) as Hcells.
  destruct Hinv as [Hp Hv Hasc _ _ _ _].
  unfold cells_of. rewrite <- list_fmap_compose.
  apply NoDup_fmap_2_strong; [|apply NoDup_seq].
  intros i j Hi%elem_of_seq Hj%elem_of_seq. simpl. intros Heq.
  destruct (lookup_lt_is_Some_2 (pos s) i) as [x Hx]; [lia|].
  destruct (lookup_lt_is_Some_2 (pos s) j) as [y Hy]; [lia|].
  rewrite (list_lookup_total_correct _ _ _ Hx), (list_lookup_total_correct _ _ _ Hy) in Heq.
  rewrite Forall_forall in Hcells.
  pose proof (Hcells x (list_elem_of_lookup_2 _ _ _ Hx)).
  pose proof (Hcells y (list_elem_of_lookup_2 _ _ _ Hy)).
  destruct (Nat.lt_trichotomy i j) as [Hlt|[Heq'|Hlt]]; [|done|].
  - pose proof (ascending_lt _ _ _ _ _ Hasc Hlt Hx Hy). lia.
  - pose proof (ascending_lt _ _ _ _ _ Hasc Hlt Hy Hx). lia.
Qed.

(** On a state that satisfies the invariant the snapshot loop succeeds;
    afterwards the cell of each vehicle holds the value of its velocity
    and the other cells of the row are as before. *)
Lemma draw_run lo T (t : nat) (s : state) row :
  invariant L N vmax lo s →
  sheet T (Z.to_nat L) (traffic s) → traffic s !! t = Some row →
  ∃ row',
    draw N t s = Some (tt, State (pos s) (vel s) (<[t := row']> (traffic s)) (calls s)) ∧
    length row' = Z.to_nat L ∧
    (∀ i x v, pos s !! i = Some x → vel s !! i = Some v →
              row' !! Z.to_nat x = Some (traffic_value v)) ∧
    (∀ c, (∀ i x, pos s !! i = Some x → Z.to_nat x ≠ c) → row' !! c = row !! c).
Proof.
  intros Hinv Hsh Ht.
  pose proof (invariant_cells L N vmax lo s Hinv) as Hcells.
  pose proof (inv_pos _ _ _ _ _ Hinv) as Hp. pose proof (inv_vel _ _ _ _ _ Hinv) as Hv.
  pose proof (sheet_row _ _ _ _ _ Hsh Ht) as Hrow.
  exists (paint (cells_of s (seq 0 N)) row). split; [|split; [|split]].
  - unfold draw. apply (draw_loop T (Z.to_nat L)); try done.
    + apply Forall_forall. intros i Hi%elem_of_seq. lia.
    + apply Forall_forall. intros i _ x Hx. rewrite Forall_forall in Hcells.
      specialize (Hcells x (list_elem_of_lookup_2 _ _ _ Hx)). lia.
  - by rewrite length_paint.
  - intros i x v Hx Hvi.
    assert (0 ≤ x ≤ L - 1) as Hxr.
    { rewrite Forall_forall in Hcells. apply Hcells. by eapply list_elem_of_lookup_2. }
    apply paint_vehicle.
    + by apply cells_of_NoDup with lo.
    + apply cells_of_elem; eauto.
    + lia.
  - intros c Hc. apply paint_other. intros x v Hin.
    apply cells_of_elem in Hin as (i & Hx & _); [|done..]. by eapply Hc.
Qed.

End NS_snapshot.

(** ** The simulation proper *)

Section NS_simulation.

Import NS.

Variables (L : Z) (N : nat) (vmax : Z) (p : Q) (u : nat → Q) (lo : Z).

Hypothesis lo_range : -1 ≤ lo ≤ 0.

Hypothesis vmax_nonneg : lo < 0 → 0 ≤ vmax.

Lemma agents_of_pos s :
  length (pos s) = length (vel s) → Spec.Traffic.position <$> agents_of s = pos s.
Proof. intros Hl. unfold agents_of. apply fmap_zip_with_l; [done|lia]. Qed.

Lemma agents_of_vel s :
  length (pos s) = length (vel s) → Spec.Traffic.velocity <$> agents_of s = vel s.
Proof. intros Hl. unfold agents_of. apply fmap_zip_with_r; [done|lia]. Qed.

(** The update loop neither reads nor writes the snapshot array. *)
Lemma update_frame (s1 s2 : state) :
  invariant L N vmax lo s1 →
  pos s2 = pos s1 → vel s2 = vel s1 → calls s2 = calls s1 →
  ∃ r1 r2, update L N vmax p u s1 = Some (tt, r1) ∧
           update L N vmax p u s2 = Some (tt, r2) ∧
           invariant L N vmax lo r1 ∧
           pos r2 = pos r1 ∧ vel r2 = vel r1 ∧ calls r2 = calls r1 ∧
           traffic r1 = traffic s1 ∧ traffic r2 = traffic s2.
Proof.
  intros Hinv1 Hp Hv Hc.
  assert (invariant L N vmax lo s2) as Hinv2 by (by eapply invariant_frame).
  destruct (update_invariant_from L N vmax p u lo lo_range vmax_nonneg s1 Hinv1) as (r1 & Hr1 & Hi1).
  destruct (update_invariant_from L N vmax p u lo lo_range vmax_nonneg s2 Hinv2) as (r2 & Hr2 & Hi2).
  assert (∀ s, invariant L N vmax lo s → ∀ y, pos s !! (N - 1)%nat = Some y → y < L) as Hlast.
  { intros s Hs y Hy. pose proof (inv_last _ _ _ _ _ Hs y Hy). lia. }
  destruct (update_refines L N vmax p u s1) as (r1' & Hr1' & Hag1 & Htr1);
    [apply Hinv1..|by apply Hlast|].
  destruct (update_refines L N vmax p u s2) as (r2' & Hr2' & Hag2 & Htr2);
    [apply Hinv2..|by apply Hlast|].
  rewrite Hr1 in Hr1'. rewrite Hr2 in Hr2'. simplify_eq.
  exists r1', r2'. split; [done|]. split; [done|]. split; [done|].
  assert (agents_of s2 = agents_of s1) as Hag by (unfold agents_of; congruence).
  rewrite Hag, Hc, <- Hag1 in Hag2. injection Hag2 as Hagents Hcalls.
  split; [|split; [|done]].
  - rewrite <- (agents_of_pos r2'), <- (agents_of_pos r1'), Hagents; [done|..].
    + by rewrite (inv_pos _ _ _ _ _ Hi1), (inv_vel _ _ _ _ _ Hi1).
    + by rewrite (inv_pos _ _ _ _ _ Hi2), (inv_vel _ _ _ _ _ Hi2).
  - rewrite <- (agents_of_vel r2'), <- (agents_of_vel r1'), Hagents; [done|..].
    + by rewrite (inv_pos _ _ _ _ _ Hi1), (inv_vel _ _ _ _ _ Hi1).
    + by rewrite (inv_pos _ _ _ _ _ Hi2), (inv_vel _ _ _ _ _ Hi2).
Qed.

Lemma simulate_loop T (k : nat) (s σ : state) :
  invariant L N vmax lo s → (k ≤ T)%nat →
  pos σ = pos s → vel σ = vel s → calls σ = calls s →
  traffic σ = Py.zeros T (Z.to_nat L) →
  ∃ σk sk,
    for_each (seq 0 k) (time_step L N vmax p u) σ = Some (tt, σk) ∧
    updates L N vmax p u k s = Some sk ∧ invariant L N vmax lo sk ∧
    pos σk = pos sk ∧ vel σk = vel sk ∧ calls σk = calls sk ∧
    sheet T (Z.to_nat L) (traffic σk) ∧
    (∀ t, (t < k)%nat → ∃ st row, updates L N vmax p u t s = Some st ∧
                                  traffic σk !! t = Some row ∧ shows L row st) ∧
    (∀ t, (k ≤ t < T)%nat → traffic σk !! t = Some (replicate (Z.to_nat L) 0)).
Proof.
  intros Hinv Hk Hp Hv Hc Htr. induction k as [|k IH].
  - exists σ, s. simpl.
    split; [done|]. split; [done|]. split; [done|]. split; [done|].
    split; [done|]. split; [done|].
    split; [rewrite Htr; apply sheet_zeros|]. split.
    + intros t Ht. lia.
    + intros t Ht. rewrite Htr. unfold Py.zeros. apply lookup_replicate_2. lia.
  - destruct IH as (σk & sk & Hrun & Hupd & Hinvk & Hpk & Hvk & Hck & Hsh & Hrows & Hzero);
      [lia|].
    assert (invariant L N vmax lo σk) as Hinvσ by (by eapply invariant_frame).
    destruct (draw_run L N vmax lo T k σk (replicate (Z.to_nat L) 0) Hinvσ Hsh)
      as (row' & Hdraw & Hlen & Hveh & Hother); [apply Hzero; lia|].
    set (σd := State (pos σk) (vel σk) (<[k := row']> (traffic σk)) (calls σk)) in *.
    destruct (update_frame sk σd Hinvk) as (r1 & r2 & Hr1 & Hr2 & Hi1 & Hp2 & Hv2 & Hc2 & _ & Ht2);
      [done..|].
    exists r2, r1. rewrite seq_S, for_each_app, Hrun. simpl.
    unfold time_step at 1. rewrite !bind_run, Hdraw, Hr2.
    split; [done|]. rewrite Hupd. simpl. rewrite Hr1. simpl.
    split; [done|]. split; [done|]. split; [done|]. split; [done|]. split; [done|].
    rewrite Ht2. subst σd. simpl. split; [by apply sheet_insert|]. split.
    + intros t Ht. destruct (decide (t = k)) as [->|Hne].
      * exists sk, row'. split; [done|].
        split; [apply list_lookup_insert_eq; destruct Hsh as [-> _]; lia|].
        split; [done|]. split.
        -- intros i x v Hx Hvi. apply (Hveh i); congruence.
        -- intros c Hcl Hfree. rewrite Hother.
           ++ by apply lookup_replicate_2.
           ++ intros i x Hx. apply (Hfree i). congruence.
      * destruct (Hrows t) as (st & row & Hst & Hrow & Hshow); [lia|].
        exists st, row. split; [done|]. split; [|done].
        by rewrite list_lookup_insert_ne.
    + intros t Ht. rewrite list_lookup_insert_ne by lia. apply Hzero. lia.
Qed.

End NS_simulation.

Section NS_snapshot_claims.

Import NS.

(** C10. When [N] divides [L] and every gap is drawn equal to [L // N],
    the largest value [np.random.randint(1, 1 + L//N)] can return, the
    initialisation cell puts the last vehicle at position [L], which is
    outside the cells [0 .. L-1]; the simulation proper, started on that
    state, raises [IndexError] at its first snapshot loop, when it writes
    [traffic[0, L]] in an array of [L] columns. *)
Theorem initialize_off_road (L : Z) (N : nat) (vmax : Z) (p : Q) (u : nat → Q)
    (vels : list Z) (T : nat) (s0 : state) :
  (1 ≤ N)%nat → 1 ≤ L / Z.of_nat N → Z.of_nat N * (L / Z.of_nat N) = L →
  length vels = N →
  randint_outcome 1 (1 + L / Z.of_nat N) N (replicate N (L / Z.of_nat N)) ∧
  ∃ s, initialize N (replicate N (L / Z.of_nat N)) vels s0 = Some (tt, s) ∧
       last (pos s) = Some L ∧
       simulate L N vmax p u (S T) s = None.
Proof.
  intros HN Hg HL Hvels. set (g := L / Z.of_nat N) in *.
  split.
  { split; [by rewrite length_replicate|]. apply Forall_replicate. lia. }
  eexists. split; [apply initialize_run; [by rewrite length_replicate|done]|].
  simpl. split.
  - rewrite last_lookup, length_running, length_replicate.
    replace (pred N) with (N - 1)%nat by lia.
    rewrite running_replicate by lia. f_equal. nia.
  - rewrite simulate_nonneg by nia.
    cbn [for_each seq]. rewrite bind_run. unfold time_step at 1. rewrite bind_run.
    rewrite (draw_off_road N (S T) (Z.to_nat L) 0 _ (replicate (Z.to_nat L) 0) L); try done.
    + simpl. apply sheet_zeros.
    + simpl. by rewrite length_running, length_replicate.
    + simpl. apply Forall_forall. intros i Hi%elem_of_seq x.
      rewrite running_replicate by lia. intros [= <-]. nia.
    + simpl. rewrite running_replicate by lia. f_equal. nia.
    + nia.
Qed.

Lemma initialize_off_road_witness :
  (1 ≤ 25)%nat ∧ 1 ≤ 100 / Z.of_nat 25 ∧ Z.of_nat 25 * (100 / Z.of_nat 25) = 100 ∧
  length (replicate 25 0) = 25%nat ∧
  randint_outcome 1 (1 + 100 / Z.of_nat 25) 25 (replicate 25 (100 / Z.of_nat 25)) ∧
  ∃ s, initialize 25 (replicate 25 (100 / Z.of_nat 25)) (replicate 25 0)
         (State [] [] [] 0) = Some (tt, s) ∧
       last (pos s) = Some 100 ∧
       simulate 100 25 2 (1#5) (λ _, 1#2)%Q (S 49) s = None.
Proof.
  assert (1 ≤ 25)%nat as H1 by lia.
  assert (1 ≤ 100 / Z.of_nat 25) as H2 by (by vm_compute).
  assert (Z.of_nat 25 * (100 / Z.of_nat 25) = 100) as H3 by (by vm_compute).
  assert (length (replicate 25 0) = 25%nat) as H4 by (by vm_compute).
  split; [exact H1|]. split; [exact H2|]. split; [exact H3|]. split; [exact H4|].
  exact (initialize_off_road 100 25 2 (1#5) (λ _, 1#2)%Q (replicate 25 0) 49
           (State [] [] [] 0) H1 H2 H3 H4).
Defined.




End NS_snapshot_claims.

(** * Properties of the Game of Life notebook *)

(** ** The neighbour list *)

Section FoldInsert.
Context {K V : Type} `{Countable K}.

Lemma foldl_insert_lookup_notin {A} (f : A → K) (g : A → V) (l : list A)
    (m : gmap K V) (k : K) :
  (∀ x, x ∈ l → f x ≠ k) →
  foldl (λ m x, <[f x := g x]> m) m l !! k = m !! k.
Proof.
  revert m. induction l as [|a l IH]; intros m Hk; simpl; [done|].
  rewrite IH by (intros x Hx; apply Hk; by right).
  apply lookup_insert_ne, Hk. by left.
Qed.

Lemma foldl_insert_lookup_in {A} (f : A → K) (g : A → V) (l : list A)
    (m : gmap K V) (a : A) :
  a ∈ l → (∀ x, x ∈ l → f x = f a → g x = g a) →
  foldl (λ m x, <[f x := g x]> m) m l !! f a = Some (g a).
Proof.
  revert m a. induction l as [|b l IH]; intros m a Ha Hg; simpl.
  - by apply elem_of_nil in Ha.
  - destruct (decide (f a ∈ f <$> l)) as [Hl|Hl].
    + apply list_elem_of_fmap in Hl as (a' & Hfa & Ha').
      rewrite Hfa, <- (Hg a') by (by right || done).
      apply IH; [done|]. intros x Hx Hfx.
      rewrite (Hg x), (Hg a'); [done|by right|done|by right|congruence].
    + rewrite foldl_insert_lookup_notin.
      * apply elem_of_cons in Ha as [->|Ha]; [apply lookup_insert_eq|].
        exfalso. apply Hl, list_elem_of_fmap. eauto.
      * intros x Hx Hfx. apply Hl, list_elem_of_fmap. eauto.
Qed.
End FoldInsert.

Lemma elem_of_range (a b x : Z) : x ∈ Life.range a b ↔ a ≤ x < b.
Proof. unfold Life.range. rewrite elem_of_seqZ. lia. Qed.

Section Nested.
Context {V : Type}.
Lemma foldl2_insert_lookup_notin (g : Z → Z → V) (li lj : list Z)
    (m : gmap (Z * Z) V) (a b : Z) :
  ¬ (a ∈ li ∧ b ∈ lj) →
  foldl (λ m i, foldl (λ m j, <[(i, j) := g i j]> m) m lj) m li !! (a, b) = m !! (a, b).
Proof.
  revert m. induction li as [|i li IH]; intros m Hn; simpl; [done|].
  rewrite IH by (intros [? ?]; apply Hn; split; [by right|done]).
  apply (foldl_insert_lookup_notin (λ j, (i, j)) (g i)).
  intros x Hx [= -> ->]. apply Hn. split; [by left|done].
Qed.

Lemma foldl2_insert_lookup_in (g : Z → Z → V) (li lj : list Z)
    (m : gmap (Z * Z) V) (a b : Z) :
  a ∈ li → b ∈ lj →
  foldl (λ m i, foldl (λ m j, <[(i, j) := g i j]> m) m lj) m li !! (a, b) = Some (g a b).
Proof.
  revert m. induction li as [|i li IH]; intros m Ha Hb; simpl.
  - by apply elem_of_nil in Ha.
  - destruct (decide (a ∈ li)) as [Hl|Hl]; [by apply IH|].
    apply elem_of_cons in Ha as [->|Ha]; [|done].
    rewrite foldl2_insert_lookup_notin by (by intros [? ?]).
    apply (foldl_insert_lookup_in (λ j, (i, j)) (g i)); [done|].
    by intros x _ [= ->].
Qed.
End Nested.

Ltac bools :=
  repeat first
    [ rewrite (proj2 (Z.leb_le _ _)) by lia
    | rewrite (proj2 (Z.leb_gt _ _)) by lia
    | rewrite (proj2 (Z.ltb_lt _ _)) by lia
    | rewrite (proj2 (Z.ltb_ge _ _)) by lia
    | rewrite (proj2 (Z.eqb_eq _ _)) by lia
    | rewrite (proj2 (Z.eqb_neq _ _)) by lia
    | rewrite andb_false_r
    | rewrite andb_true_r
    | progress cbn [andb] ].

Ltac skip_fold :=
  first
    [ rewrite foldl2_insert_lookup_notin by (rewrite !elem_of_range; lia)
    | rewrite foldl_insert_lookup_notin
        by (intros ? ?%elem_of_range [= ]; lia) ].

Ltac skip_insert :=
  rewrite lookup_insert_ne by (intros [= ]; lia).

Lemma nbrs_lookup (N : nat) (i j : Z) :
  0 ≤ i < Z.of_nat N → 0 ≤ j < Z.of_nat N →
  Life.nbrs N !! (i, j) = Some (Life.entry (Z.of_nat N) i j).
Proof.
  intros Hi Hj. unfold Life.nbrs, Life.entry, Life.mid. set (n := Z.of_nat N) in *.
  destruct (decide (1 ≤ i < n - 1)) as [Hmi|Hmi], (decide (1 ≤ j < n - 1)) as [Hmj|Hmj].
  - (* interior *)
    bools.
    apply (foldl2_insert_lookup_in (λ i j,
      [(i, j+1); (i+1, j+1); (i+1, j); (i+1, j-1); (i, j-1); (i-1, j-1); (i-1, j); (i-1, j+1)]));
      apply elem_of_range; lia.
  - (* bottom or top edge *)
    skip_fold. destruct (decide (j = 0)) as [->|Hj0].
    + bools.
      apply (foldl_insert_lookup_in (λ i0, (i0, 0))
        (λ i, [(i-1, 0); (i-1, 1); (i, 1); (i+1, 1); (i+1, 0)]) _ _ i); [apply elem_of_range; lia|].
      by intros x _ [= ->].
    + assert (j = n - 1) as -> by lia. repeat skip_fold. bools.
      apply (foldl_insert_lookup_in (λ i0, (i0, n - 1))
        (λ i, [(i+1, n-1); (i+1, n-2); (i, n-2); (i-1, n-2); (i-1, n-1)]) _ _ i); [apply elem_of_range; lia|].
      by intros x _ [= ->].
  - (* right or left edge *)
    repeat skip_fold. destruct (decide (i = n - 1)) as [->|Hi0].
    + bools.
      apply (foldl_insert_lookup_in (λ j0, (n - 1, j0))
        (λ j, [(n-1, j-1); (n-2, j-1); (n-2, j); (n-2, j+1); (n-1, j+1)]) _ _ j); [apply elem_of_range; lia|].
      by intros x _ [= ->].
    + assert (i = 0) as -> by lia. repeat skip_fold. bools.
      apply (foldl_insert_lookup_in (λ j0, (0, j0))
        (λ j, [(0, j+1); (1, j+1); (1, j); (1, j-1); (0, j-1)]) _ _ j); [apply elem_of_range; lia|].
      by intros x _ [= ->].
  - (* corners *)
    repeat skip_fold.
    destruct (decide (i = n - 1)) as [->|Hi0], (decide (j = 0)) as [->|Hj0].
    + bools. apply lookup_insert_eq.
    + assert (j = n - 1) as -> by lia. skip_insert. bools. apply lookup_insert_eq.
    + assert (i = 0) as -> by lia. skip_insert.
      destruct (decide (0 = n - 1)) as [Hn|Hn].
      * lia.
      * skip_insert. skip_insert. bools. apply lookup_insert_eq.
    + assert (i = 0) as -> by lia. assert (j = n - 1) as -> by lia.
      repeat skip_insert. bools. apply lookup_insert_eq.
Qed.

Section Life_turn.

Import Life.

Lemma axis_is_Some (n : nat) (k : Z) :
- Z.of_nat n ≤ k < Z.of_nat n → ∃ r, Py.axis n k = Some r ∧ (r < n)%nat.
Proof.
intros Hk. unfold Py.axis. repeat case_decide; [| |lia]; eexists; (split; [done|lia]).
Qed.

Lemma get2_is_Some (N : nat) (a : list (list Z)) (k l : Z) :
shape N a → - Z.of_nat N ≤ k < Z.of_nat N → - Z.of_nat N ≤ l < Z.of_nat N →
∃ x row, Py.get2 a k l = Some x ∧ row ∈ a ∧ x ∈ row.
Proof.
intros [Hlen Hrows] Hk Hl. unfold Py.get2.
destruct (axis_is_Some (length a) k) as (r & -> & Hr); [lia|]. simpl.
destruct (lookup_lt_is_Some_2 a r Hr) as [row Hrow]. rewrite Hrow. simpl.
assert (length row = N) as Hrl.
{ rewrite Forall_forall in Hrows. apply Hrows. eapply list_elem_of_lookup_2; eauto. }
destruct (axis_is_Some (length row) l) as (c & -> & Hc); [lia|]. simpl.
destruct (lookup_lt_is_Some_2 row c Hc) as [x Hx]. rewrite Hx.
exists x, row. split; [done|]. split; eapply list_elem_of_lookup_2; eauto.
Qed.

Lemma binary_elem (a : list (list Z)) (row : list Z) (x : Z) :
binary a → row ∈ a → x ∈ row → x = 0 ∨ x = 1.
Proof.
intros Hb Hrow Hx.
unfold binary in Hb. rewrite Forall_forall in Hb.
specialize (Hb row Hrow). rewrite Forall_forall in Hb. by apply Hb.
Qed.

Lemma numnbr_count (N : nat) (board : list (list Z)) (ns : list (Z * Z)) (acc : Z) :
shape N board → binary board →
Forall (λ c, - Z.of_nat N ≤ c.1 < Z.of_nat N ∧ - Z.of_nat N ≤ c.2 < Z.of_nat N) ns →
for_fold (add_neighbour board) ns acc =
  Some (acc + Z.of_nat (Spec.Life.alive_neighbours board ns)).
Proof.
intros Hs Hb. revert acc. induction ns as [|[k l] ns IH]; intros acc Hns; cbn [for_fold].
- f_equal. unfold Spec.Life.alive_neighbours. simpl. lia.
- apply Forall_cons in Hns as [[Hk Hl] Hns]. simpl in Hk, Hl.
  destruct (get2_is_Some N board k l) as (x & row & Hx & Hrow & Hin); [done..|].
  replace (add_neighbour board acc (k, l)) with (Some (acc + x))
    by (unfold add_neighbour; cbn [fst snd]; by rewrite Hx).
  simpl. rewrite IH by done. f_equal.
  unfold Spec.Life.alive_neighbours. rewrite filter_cons.
  assert (Spec.Life.alive board (k, l) = bool_decide (x = 1)) as ->.
  { unfold Spec.Life.alive. cbn [fst snd]. rewrite Hx. apply bool_decide_ext. split; congruence. }
  destruct (binary_elem _ _ _ Hb Hrow Hin) as [->| ->].
  + rewrite decide_False by (by rewrite bool_decide_eq_true). lia.
  + rewrite decide_True by (by rewrite bool_decide_eq_true). simpl. lia.
Qed.

Lemma for_fold_app {A B} (body : B → A → option B) (l1 l2 : list A) (acc : B) :
for_fold body (l1 ++ l2) acc = for_fold body l1 acc ≫= for_fold body l2.
Proof.
revert acc. induction l1 as [|x l1 IH]; intros acc; simpl; [done|].
destruct (body acc x); simpl; [apply IH|done].
Qed.

Lemma for_fold_fmap {A B C} (body : B → A → option B) (g : C → A) (l : list C) (acc : B) :
for_fold body (g <$> l) acc = for_fold (λ acc x, body acc (g x)) l acc.
Proof.
revert acc. induction l as [|x l IH]; intros acc; simpl; [done|].
destruct (body acc (g x)); simpl; [apply IH|done].
Qed.

Lemma for_fold_ext {A B} (f g : B → A → option B) (l : list A) (acc : B) :
(∀ acc x, f acc x = g acc x) → for_fold f l acc = for_fold g l acc.
Proof.
intros Hfg. revert acc. induction l as [|x l IH]; intros acc; simpl; [done|].
rewrite Hfg. destruct (g acc x); simpl; [apply IH|done].
Qed.

Lemma range_0_nat (N : nat) : range 0 (Z.of_nat N) = Z.of_nat <$> seq 0 N.
Proof.
unfold range, seqZ. rewrite Z.sub_0_r, Nat2Z.id.
apply list_fmap_ext. intros _ x _. lia.
Qed.


Section Turn.
Variables (N : nat) (table : gmap (Z * Z) (list (Z * Z))) (board : list (list Z)).
Hypotheses (Hshape : shape N board) (Hbin : binary board) (Htable : table_valid N table).

Lemma set2_run (a : list (list Z)) (i j : nat) (x : Z) :
shape N a → (i < N)%nat → (j < N)%nat →
∃ a', Py.set2 a (Z.of_nat i) (Z.of_nat j) x = Some a' ∧ shape N a' ∧
      ∀ k l, at2 a' k l = if decide (k = i ∧ l = j) then Some x else at2 a k l.
Proof.
intros [Hlen Hrows] Hi Hj. unfold Py.set2.
rewrite axis_nat by lia. simpl.
destruct (lookup_lt_is_Some_2 a i) as [row Hrow]; [lia|]. rewrite Hrow. simpl.
assert (length row = N) as Hrl.
{ rewrite Forall_forall in Hrows. apply Hrows. eapply list_elem_of_lookup_2; eauto. }
rewrite axis_nat by lia. simpl. eexists. split; [done|]. split.
- split; [by rewrite length_insert|].
  apply Forall_insert; [done|]. by rewrite length_insert.
- intros k l. unfold at2. case_decide as Hkl.
  + destruct Hkl as [-> ->]. rewrite list_lookup_insert_eq by lia. simpl.
    apply list_lookup_insert_eq. lia.
  + destruct (decide (k = i)) as [->|Hk].
    * rewrite list_lookup_insert_eq by lia. rewrite Hrow. simpl.
      apply list_lookup_insert_ne. naive_solver.
    * by rewrite list_lookup_insert_ne.
Qed.

Lemma update_cell_run (a : list (list Z)) (i j : nat) :
shape N a → (i < N)%nat → (j < N)%nat →
∃ a', update_cell table board a (Z.of_nat i) (Z.of_nat j) = Some a' ∧ shape N a' ∧
      ∀ k l, at2 a' k l = if decide (k = i ∧ l = j) then Some (Spec.Life.next_cell table board i j) else at2 a k l.
Proof.
intros Ha Hi Hj. unfold update_cell.
destruct (Htable (Z.of_nat i) (Z.of_nat j)) as (ns & Hns & Hrange); [lia..|].
rewrite Hns. simpl. rewrite (numnbr_count N) by done. simpl.
destruct (get2_is_Some N board (Z.of_nat i) (Z.of_nat j)) as (c & row & Hc & Hrow & Hin);
  [done|lia..|].
rewrite Hc. simpl.
assert (Spec.Life.next_cell table board i j =
  Spec.Life.of_bool (Spec.Life.next_state (bool_decide (c = 1))
    (Spec.Life.alive_neighbours board ns))) as ->.
{ unfold Spec.Life.next_cell. cbn zeta. rewrite Hns. simpl. do 2 f_equal.
  unfold Spec.Life.alive. cbn [fst snd]. rewrite Hc. apply bool_decide_ext. split; congruence. }
set (cnt := Spec.Life.alive_neighbours board ns).
rewrite Z.add_0_l. unfold Spec.Life.next_state.
destruct (Z.eqb_spec c 1) as [->|Hc1].
- rewrite bool_decide_eq_true_2 by done.
  destruct (Z.ltb_spec (Z.of_nat cnt) 2), (Z.ltb_spec 3 (Z.of_nat cnt)); simpl;
    (rewrite bool_decide_eq_true_2 by lia) || (rewrite bool_decide_eq_false_2 by lia);
    by apply set2_run.
- rewrite bool_decide_eq_false_2 by done.
  destruct (Z.eqb_spec (Z.of_nat cnt) 3); simpl;
    (rewrite bool_decide_eq_true_2 by lia) || (rewrite bool_decide_eq_false_2 by lia);
    by apply set2_run.
Qed.

Lemma row_loop (a : list (list Z)) (i c : nat) :
shape N a → (i < N)%nat → (c ≤ N)%nat →
∃ a', for_fold (λ nb j, update_cell table board nb (Z.of_nat i) (Z.of_nat j))
        (seq 0 c) a = Some a' ∧ shape N a' ∧
      ∀ k l, at2 a' k l =
        if decide (k = i ∧ l < c)%nat then Some (Spec.Life.next_cell table board i l) else at2 a k l.
Proof.
intros Ha Hi. induction c as [|c IH]; intros Hc.
- exists a. split; [done|]. split; [done|].
  intros k l. rewrite decide_False; [done|lia].
- destruct IH as (a1 & Hrun & Ha1 & Hat1); [lia|].
  destruct (update_cell_run a1 i c) as (a2 & Hrun2 & Ha2 & Hat2); [done|lia..|].
  exists a2. rewrite seq_S, for_fold_app, Hrun. simpl. rewrite Hrun2.
  split; [done|]. split; [done|]. intros k l. rewrite Hat2, Hat1.
  destruct (decide (k = i ∧ l = c)) as [[-> ->]|Hn1].
  { by rewrite decide_True by lia. }
  destruct (decide (k = i ∧ l < c)%nat) as [[-> Hl]|Hn2].
  { by rewrite decide_True by lia. }
  rewrite decide_False; [done|]. intros [-> Hl].
  destruct (decide (l = c)); [apply Hn1|apply Hn2]; split; (done || lia).
Qed.

Lemma board_loop (a : list (list Z)) (r : nat) :
shape N a → (r ≤ N)%nat →
∃ a', for_fold (λ nb i,
        for_fold (λ nb j, update_cell table board nb (Z.of_nat i) (Z.of_nat j))
          (seq 0 N) nb) (seq 0 r) a = Some a' ∧ shape N a' ∧
      ∀ k l, at2 a' k l =
        if decide (k < r ∧ l < N)%nat then Some (Spec.Life.next_cell table board k l) else at2 a k l.
Proof.
intros Ha. induction r as [|r IH]; intros Hr.
- exists a. split; [done|]. split; [done|].
  intros k l. rewrite decide_False; [done|lia].
- destruct IH as (a1 & Hrun & Ha1 & Hat1); [lia|].
  destruct (row_loop a1 r N) as (a2 & Hrun2 & Ha2 & Hat2); [done|lia..|].
  exists a2. rewrite seq_S, for_fold_app, Hrun. simpl. rewrite Hrun2.
  split; [done|]. split; [done|]. intros k l. rewrite Hat2, Hat1.
  destruct (decide (k = r ∧ l < N)%nat) as [[-> Hl]|Hn1].
  { by rewrite decide_True by lia. }
  destruct (decide (k < r ∧ l < N)%nat) as [[Hk Hl]|Hn2].
  { by rewrite decide_True by lia. }
  rewrite decide_False; [done|]. intros [Hk Hl].
  destruct (decide (k = r)); [apply Hn1|apply Hn2]; split; (done || lia).
Qed.

Lemma shape_zeros : shape N (Py.zeros N N).
Proof.
unfold Py.zeros. split; [by rewrite length_replicate|].
apply Forall_replicate. by rewrite length_replicate.
Qed.

Lemma at2_ext (a b : list (list Z)) :
shape N a → shape N b →
(∀ k l, (k < N)%nat → (l < N)%nat → at2 a k l = at2 b k l) → a = b.
Proof.
intros [Hla Hra] [Hlb Hrb] Heq. apply list_eq_same_length with N; [done..|].
intros k ra rb Hk Hka Hkb.
rewrite Forall_forall in Hra, Hrb.
apply list_eq_same_length with N;
  [apply Hrb; eapply list_elem_of_lookup_2; eauto
  |apply Hra; eapply list_elem_of_lookup_2; eauto|].
intros l x y Hl Hx Hy. specialize (Heq k l Hk Hl). unfold at2 in Heq.
rewrite Hka, Hkb in Heq. simpl in Heq. congruence.
Qed.

Lemma turn_run : turn N table board = Some (Spec.Life.step N table board).
Proof.
unfold turn. rewrite range_0_nat, for_fold_fmap.
destruct (board_loop (Py.zeros N N) N) as (a' & Hrun & Ha' & Hat); [apply shape_zeros|lia|].
erewrite (for_fold_ext _ _ (seq 0 N)); [rewrite Hrun|].
- f_equal. apply at2_ext; [done| |].
  + unfold Spec.Life.step. split; [by rewrite length_fmap, length_seq|].
    apply Forall_fmap, Forall_forall. intros i _. simpl.
    by rewrite length_fmap, length_seq.
  + intros k l Hk Hl. rewrite Hat, decide_True by lia.
    unfold at2, Spec.Life.step. rewrite list_lookup_fmap, lookup_seq_lt by done.
    simpl. rewrite list_lookup_fmap, lookup_seq_lt by done. done.
- intros nb i. simpl. by rewrite for_fold_fmap.
Qed.
End Turn.

End Life_turn.

(** ** The claims about the Game of Life *)

Section Life_claims.

Import Life.

(** C5. The neighbour list has an entry for every cell of the [N] by [N]
    board, with 3 neighbours for each of the four corner cells, 5 for each
    other cell of the border and 8 for each interior cell. *)
Theorem nbrs_counts (N : nat) (i j : Z) :
  0 ≤ i < Z.of_nat N → 0 ≤ j < Z.of_nat N →
  ∃ ns, nbrs N !! (i, j) = Some ns ∧
        length ns = Spec.Life.fixed_count (Z.of_nat N) i j.
Proof.
  intros Hi Hj. exists (entry (Z.of_nat N) i j). split; [by apply nbrs_lookup|].
  unfold entry, mid, Spec.Life.fixed_count, Spec.Life.on_border.
  set (n := Z.of_nat N) in *.
  destruct (Z.eqb_spec i 0), (Z.eqb_spec i (n - 1)), (Z.eqb_spec j 0),
    (Z.eqb_spec j (n - 1)); simpl;
    destruct (Z.leb_spec 1 i), (Z.ltb_spec i (n - 1)); simpl; try lia;
    destruct (Z.leb_spec 1 j), (Z.ltb_spec j (n - 1)); simpl; try lia; reflexivity.
Qed.

Lemma nbrs_counts_witness :
  0 ≤ 0 < Z.of_nat 20 ∧ 0 ≤ 7 < Z.of_nat 20 ∧
  ∃ ns, nbrs 20 !! (0, 7) = Some ns ∧
        length ns = Spec.Life.fixed_count (Z.of_nat 20) 0 7.
Proof.
  assert (0 ≤ 0 < Z.of_nat 20) as H1 by (vm_compute; split; congruence).
  assert (0 ≤ 7 < Z.of_nat 20) as H2 by (vm_compute; split; congruence).
  split; [exact H1|]. split; [exact H2|]. exact (nbrs_counts 20 0 7 H1 H2).
Defined.

(** On a board of at least 2 by 2 cells every neighbour the list names is a
    cell of the board. *)
Lemma nbrs_valid (N : nat) : (2 ≤ N)%nat → table_valid N (nbrs N).
Proof.
  intros HN i j Hi Hj. exists (entry (Z.of_nat N) i j). split; [by apply nbrs_lookup|].
  unfold entry, mid. set (n := Z.of_nat N) in *.
  destruct (Z.eqb_spec i 0), (Z.eqb_spec i (n - 1)), (Z.eqb_spec j 0),
    (Z.eqb_spec j (n - 1)); simpl;
    destruct (Z.leb_spec 1 i), (Z.ltb_spec i (n - 1)); simpl; try lia;
    destruct (Z.leb_spec 1 j), (Z.ltb_spec j (n - 1)); simpl; try lia;
    repeat constructor; simpl; lia.
Qed.

(** On a 1 by 1 board the four corners are one cell, the list names cells
    outside the board for it, and the turn raises [IndexError]. *)
Lemma turn_raises_on_1_by_1 :
  nbrs 1 !! (0, 0) = Some [(-1, 0); (-1, 1); (0, 1)] ∧
  turn 1 (nbrs 1) [[0]] = None.
Proof. split; by vm_compute. Qed.

Lemma step_shape N table grid : shape N (Spec.Life.step N table grid).
Proof.
  unfold Spec.Life.step. split; [by rewrite length_fmap, length_seq|].
  apply Forall_fmap, Forall_forall. intros i _. simpl.
  by rewrite length_fmap, length_seq.
Qed.

Lemma step_binary N table grid : binary (Spec.Life.step N table grid).
Proof.
  unfold Spec.Life.step, binary.
  apply Forall_fmap, Forall_forall. intros i _. simpl.
  apply Forall_fmap, Forall_forall. intros j _. simpl.
  unfold Spec.Life.next_cell, Spec.Life.of_bool. case_match; auto.
Qed.

(** C2. On every [N] by [N] board of dead and alive cells, with a
    neighbour list that covers the board, one turn succeeds and returns a
    new board each cell of which is the rule of the specification applied
    to the state of the cell and the number of its alive neighbours in the
    current board: alive with fewer than 2 or more than 3 becomes dead,
    alive with 2 or 3 stays alive, dead with exactly 3 becomes alive, any
    other dead cell stays dead.  The loop over [T] turns iterates it. *)
Theorem turn_is_synchronous (N : nat) (table : gmap (Z * Z) (list (Z * Z)))
    (board : list (list Z)) :
  shape N board → binary board → table_valid N table →
  turn N table board = Some (Spec.Life.step N table board) ∧
  shape N (Spec.Life.step N table board) ∧
  binary (Spec.Life.step N table board) ∧
  ∀ T, turns N table T board = Some (Nat.iter T (Spec.Life.step N table) board).
Proof.
  intros Hs Hb Ht. split; [by apply turn_run|].
  split; [apply step_shape|]. split; [apply step_binary|].
  intros T. revert board Hs Hb. induction T as [|T IH]; intros board Hs Hb; [done|].
  rewrite Nat.iter_succ_r. cbn [turns]. rewrite turn_run by done. simpl.
  apply IH; [apply step_shape|apply step_binary].
Qed.

Lemma turn_is_synchronous_witness :
  let blinker := [[0; 1; 0]; [0; 1; 0]; [0; 1; 0]] in
  shape 3 blinker ∧ binary blinker ∧ table_valid 3 (nbrs 3) ∧
  turn 3 (nbrs 3) blinker = Some (Spec.Life.step 3 (nbrs 3) blinker) ∧
  shape 3 (Spec.Life.step 3 (nbrs 3) blinker) ∧
  binary (Spec.Life.step 3 (nbrs 3) blinker) ∧
  ∀ T, turns 3 (nbrs 3) T blinker =
         Some (Nat.iter T (Spec.Life.step 3 (nbrs 3)) blinker).
Proof.
  intros blinker.
  assert (shape 3 blinker) as H1 by (split; [done|repeat constructor]).
  assert (binary blinker) as H2 by (repeat constructor; auto).
  assert (table_valid 3 (nbrs 3)) as H3 by (apply nbrs_valid; lia).
  split; [exact H1|]. split; [exact H2|]. split; [exact H3|].
  exact (turn_is_synchronous 3 (nbrs 3) blinker H1 H2 H3).
Defined.

End Life_claims.
(** * Further properties of the traffic notebook *)

(** ** When the update loop raises *)

Section NS_errors.

Import NS.

Variables (L : Z) (N : nat) (vmax : Z) (p : Q) (u : nat → Q).

Lemma set_vel_keeps i x s s' :
  set_vel i x s = Some (tt, s') →
  pos s' = pos s ∧ length (vel s') = length (vel s) ∧
  traffic s' = traffic s ∧ calls s' = calls s.
Proof.
  unfold set_vel, Py.setitem. case_decide; [|done]. simpl.
  intros [= <-]. simpl. by rewrite length_insert.
Qed.

Lemma set_pos_keeps i x s s' :
  set_pos i x s = Some (tt, s') →
  length (pos s') = length (pos s) ∧ vel s' = vel s ∧
  traffic s' = traffic s ∧ calls s' = calls s.
Proof.
  unfold set_pos, Py.setitem. case_decide; [|done]. simpl.
  intros [= <-]. simpl. by rewrite length_insert.
Qed.

Lemma get_vel_inv i s v s' : get_vel i s = Some (v, s') → vel s !! i = Some v ∧ s' = s.
Proof.
  unfold get_vel, lift, Py.getitem. destruct (vel s !! i); simpl; [|done].
  by intros [= <- <-].
Qed.

Lemma get_pos_inv i s x s' : get_pos i s = Some (x, s') → pos s !! i = Some x ∧ s' = s.
Proof.
  unfold get_pos, lift, Py.getitem. destruct (pos s !! i); simpl; [|done].
  by intros [= <- <-].
Qed.

(** A block that succeeds has found the cells it reads. *)
Lemma acceleration_inv i s s' :
  acceleration vmax i s = Some (tt, s') → is_Some (vel s !! i).
Proof.
  unfold acceleration. rewrite bind_run.
  destruct (get_vel i s) as [[v s1]|] eqn:E; [|done].
  apply get_vel_inv in E as [E _]. by eexists.
Qed.

Lemma slowing_down_inv i s s' :
  slowing_down L N i s = Some (tt, s') →
  is_Some (vel s !! i) ∧ is_Some (pos s !! i) ∧ is_Some (pos s !! ahead N i).
Proof.
  unfold slowing_down, ahead. destruct (Z.of_nat i <? Z.of_nat N - 1).
  - rewrite bind_run. destruct (get_vel i s) as [[v s1]|] eqn:E1; [|done].
    apply get_vel_inv in E1 as [E1 ->].
    rewrite bind_run. destruct (get_pos (i + 1) s) as [[xj s1]|] eqn:E2; [|done].
    apply get_pos_inv in E2 as [E2 ->].
    rewrite bind_run. destruct (get_pos i s) as [[xi s1]|] eqn:E3; [|done].
    apply get_pos_inv in E3 as [E3 ->]. eauto.
  - rewrite bind_run. destruct (get_vel i s) as [[v s1]|] eqn:E1; [|done].
    apply get_vel_inv in E1 as [E1 ->].
    rewrite bind_run. destruct (get_pos i s) as [[xi s1]|] eqn:E2; [|done].
    apply get_pos_inv in E2 as [E2 ->].
    rewrite bind_run. destruct (get_pos 0 s) as [[x0 s1]|] eqn:E3; [|done].
    apply get_pos_inv in E3 as [E3 ->]. eauto.
Qed.

Lemma periodic_boundary_keeps s s' :
  periodic_boundary L N s = Some (tt, s') →
  is_Some (pos s !! (N - 1)%nat) ∧
  length (pos s') = length (pos s) ∧ length (vel s') = length (vel s) ∧
  traffic s' = traffic s ∧ calls s' = calls s.
Proof.
  unfold periodic_boundary. rewrite bind_run.
  destruct (get_pos (N - 1) s) as [[xl s1]|] eqn:E; [|done].
  apply get_pos_inv in E as [Hxl ->]. unfold when.
  destruct (L <=? xl); [|by intros [= <-]; eauto].
  rewrite bind_run. unfold pop_pos at 1, Py.pop. rewrite Hxl. simpl.
  rewrite bind_run. unfold pop_vel at 1, Py.pop. simpl.
  destruct (vel s !! (N - 1)%nat) as [vl|] eqn:Hvl; [|done]. simpl.
  intros [= <-]. simpl. split; [eauto|].
  rewrite !length_delete by eauto.
  apply lookup_lt_Some in Hxl, Hvl. repeat split; lia.
Qed.

Lemma periodic_boundary_run_ge s :
  (1 ≤ N)%nat → (N ≤ length (pos s))%nat → (N ≤ length (vel s))%nat →
  periodic_boundary L N s = Some (tt, rotate L N s).
Proof.
  intros HN Hp Hv.
  destruct (lookup_lt_is_Some_2 (pos s) (N - 1)%nat) as [xl Hxl]; [lia|].
  destruct (lookup_lt_is_Some_2 (vel s) (N - 1)%nat) as [vl Hvl]; [lia|].
  unfold periodic_boundary, rotate, when.
  rewrite bind_run, (get_pos_run _ _ _ Hxl), Hxl, Hvl.
  destruct (L <=? xl); [|done].
  rewrite !bind_run. unfold pop_pos at 1, Py.pop. rewrite Hxl. simpl.
  rewrite bind_run. unfold pop_vel at 1, Py.pop. simpl. by rewrite Hvl.
Qed.

(** The loop body with both lists of [N] elements or more computes
    [vehicle_step]. *)
Lemma update_vehicle_run_ge i s :
  (i < N)%nat → (N ≤ length (pos s))%nat → (N ≤ length (vel s))%nat →
  update_vehicle L N vmax p u i s = (λ s', (tt, s')) <$> vehicle_step L N vmax p u i s.
Proof.
  intros Hi Hp Hv. pose proof (ahead_lt N i Hi) as Ha.
  destruct (lookup_lt_is_Some_2 (vel s) i) as [v Hvi]; [lia|].
  destruct (lookup_lt_is_Some_2 (pos s) i) as [xi Hxi]; [lia|].
  destruct (lookup_lt_is_Some_2 (pos s) (ahead N i)) as [xa Hxa]; [lia|].
  unfold vehicle_step, vehicle_move. rewrite Hvi, Hxi, Hxa. simpl.
  unfold update_vehicle.
  rewrite bind_run, (acceleration_run vmax i s v) by done.
  rewrite bind_run, (slowing_down_run L N i _ (accelerate vmax v) xi xa);
    [|by apply list_lookup_insert_eq; lia|done..].
  rewrite bind_run,
    (random_deceleration_run p u i _ (slow_down (gap_to L N i xi xa) (accelerate vmax v)));
    [|simpl; rewrite list_lookup_insert_eq; [done|rewrite length_insert; lia]].
  set (r := randomize _ _ _ _).
  rewrite bind_run, (move_vehicle_run i _ r.1 xi);
    [|simpl; rewrite list_lookup_insert_eq; [done|rewrite !length_insert; lia]|done].
  rewrite periodic_boundary_run_ge;
    [|lia|simpl; by rewrite length_insert|simpl; by rewrite !length_insert].
  simpl. by rewrite !list_insert_insert_eq.
Qed.

Lemma randomize_calls k v :
  (k ≤ (randomize p u k v).2 ≤ S k)%nat.
Proof. unfold randomize. destruct (1 <=? v); simpl; lia. Qed.

(** The loop body, when it succeeds, keeps the lengths of the two lists
    and the snapshot array, and draws at most one random value. *)
Lemma update_vehicle_keeps i s s' :
  update_vehicle L N vmax p u i s = Some (tt, s') →
  length (pos s') = length (pos s) ∧ length (vel s') = length (vel s) ∧
  traffic s' = traffic s ∧ (calls s ≤ calls s' ≤ S (calls s))%nat.
Proof.
  intros H. unfold update_vehicle in H. rewrite bind_run in H.
  destruct (acceleration vmax i s) as [[[] s1]|] eqn:E1; [|done].
  destruct (acceleration_inv _ _ _ E1) as [v Hv].
  rewrite (acceleration_run vmax i s v Hv) in E1. injection E1 as <-.
  rewrite bind_run in H.
  destruct (slowing_down L N i _) as [[[] s2]|] eqn:E2; [|done].
  destruct (slowing_down_inv _ _ _ E2) as ([v1 Hv1] & [xi Hxi] & [xa Hxa]).
  rewrite (slowing_down_run L N i _ v1 xi xa Hv1 Hxi Hxa) in E2. injection E2 as <-.
  pose proof (lookup_lt_Some _ _ _ Hv) as Hlt.
  cbn [pos vel traffic calls] in *.
  rewrite bind_run, (random_deceleration_run p u i _ (slow_down (gap_to L N i xi xa) v1)) in H;
    [|cbn [vel]; rewrite list_lookup_insert_eq; [done|by rewrite length_insert]].
  cbn [pos vel traffic calls] in H.
  set (r := randomize _ _ _ _) in H.
  rewrite bind_run, (move_vehicle_run i _ r.1 xi) in H;
    [|cbn [vel]; rewrite list_lookup_insert_eq; [done|by rewrite !length_insert]|done].
  cbn [pos vel traffic calls] in H.
  apply periodic_boundary_keeps in H as (_ & Hp & Hvl & Ht & Hc).
  cbn [pos vel traffic calls] in *.
  rewrite Hp, Hvl, Ht, Hc, !length_insert.
  pose proof (randomize_calls (calls s) (slow_down (gap_to L N i xi xa) v1)).
  done.
Qed.

Lemma for_each_keeps (l : list nat) s s' :
  for_each l (update_vehicle L N vmax p u) s = Some (tt, s') →
  length (pos s') = length (pos s) ∧ length (vel s') = length (vel s) ∧
  traffic s' = traffic s ∧ (calls s ≤ calls s' ≤ calls s + length l)%nat.
Proof.
  revert s. induction l as [|i l IH]; intros s; simpl.
  - intros [= <-]. repeat split; lia.
  - rewrite bind_run.
    destruct (update_vehicle L N vmax p u i s) as [[[] s1]|] eqn:E; [|done].
    intros H. apply update_vehicle_keeps in E as (Hp & Hv & Ht & Hc).
    apply IH in H as (Hp' & Hv' & Ht' & Hc').
    rewrite Hp', Hv', Ht', Hp, Hv, Ht. repeat split; lia.
Qed.

(** With [N] elements or more in both lists the loop does not raise. *)
Lemma for_each_total (l : list nat) s :
  Forall (λ i, i < N)%nat l →
  (N ≤ length (pos s))%nat → (N ≤ length (vel s))%nat →
  is_Some (for_each l (update_vehicle L N vmax p u) s).
Proof.
  intros Hl. revert s. induction Hl as [|i l Hi Hl IH]; intros s Hp Hv; simpl.
  - by eexists.
  - rewrite bind_run.
    destruct (update_vehicle L N vmax p u i s) as [[[] s1]|] eqn:E.
    + apply update_vehicle_keeps in E as (Hp1 & Hv1 & _). apply IH; lia.
    + rewrite update_vehicle_run_ge in E by done.
      unfold vehicle_step, vehicle_move in E. pose proof (ahead_lt N i Hi) as Ha.
      destruct (lookup_lt_is_Some_2 (vel s) i) as [v Hvi]; [lia|].
      destruct (lookup_lt_is_Some_2 (pos s) i) as [xi Hxi]; [lia|].
      destruct (lookup_lt_is_Some_2 (pos s) (ahead N i)) as [xa Hxa]; [lia|].
      by rewrite Hvi, Hxi, Hxa in E.
Qed.

(** With a list of fewer than [N] elements the body of the last vehicle
    raises. *)
Lemma update_vehicle_short s :
  (1 ≤ N)%nat → (length (pos s) < N ∨ length (vel s) < N)%nat →
  update_vehicle L N vmax p u (N - 1) s = None.
Proof.
  intros HN Hshort. unfold update_vehicle. rewrite bind_run.
  destruct (acceleration vmax (N - 1) s) as [[[] s1]|] eqn:E1; [|done].
  destruct (acceleration_inv _ _ _ E1) as [v Hv].
  rewrite (acceleration_run vmax _ s v Hv) in E1. injection E1 as <-.
  rewrite bind_run.
  destruct (slowing_down L N (N - 1) _) as [[[] s2]|] eqn:E2; [|done].
  destruct (slowing_down_inv _ _ _ E2) as (_ & [xi Hxi] & _).
  apply lookup_lt_Some in Hv, Hxi. cbn [pos] in Hxi. lia.
Qed.

End NS_errors.

Section NS_error_claims.

Import NS.

(** X1. The update loop raises [IndexError] exactly when one of the lists
    [pos] and [vel] has fewer than [N] elements, whatever the positions
    and velocities are. *)
Theorem update_raises_iff (L : Z) (N : nat) (vmax : Z) (p : Q) (u : nat → Q)
    (s : state) :
  (1 ≤ N)%nat →
  update L N vmax p u s = None ↔ (length (pos s) < N ∨ length (vel s) < N)%nat.
Proof.
  intros HN. split.
  - intros Hnone.
    destruct (decide (N ≤ length (pos s))%nat) as [Hp|Hp]; [|lia].
    destruct (decide (N ≤ length (vel s))%nat) as [Hv|Hv]; [|lia].
    destruct (for_each_total L N vmax p u (seq 0 N) s) as [r Hr]; [|done..|].
    + apply Forall_forall. intros i Hi%elem_of_seq. lia.
    + unfold update in Hnone. congruence.
  - intros Hshort. unfold update.
    replace (seq 0 N) with (seq 0 (N - 1) ++ [(N - 1)%nat])
      by (rewrite <- seq_S; f_equal; lia).
    rewrite for_each_app.
    destruct (for_each (seq 0 (N - 1)) _ s) as [[[] s1]|] eqn:E; [|done].
    apply for_each_keeps in E as (Hp & Hv & _). simpl. rewrite bind_run.
    rewrite update_vehicle_short; [done|done|lia].
Qed.

Lemma update_raises_iff_witness :
  let s := State [0; 5] [0] [] 0 in
  (1 ≤ 2)%nat ∧
  (update 10 2 2 (1#5) (λ _, 1#2)%Q s = None ↔
   (length (pos s) < 2 ∨ length (vel s) < 2)%nat).
Proof.
  intros s. assert (1 ≤ 2)%nat as H by lia. split; [exact H|].
  exact (update_raises_iff 10 2 2 (1#5) (λ _, 1#2)%Q s H).
Defined.

(** X2. An update loop that does not raise keeps the number of elements of
    [pos] and of [vel], leaves the snapshot array alone, and calls
    [np.random.rand()] at most [N] times. *)
Theorem update_keeps_the_vehicles (L : Z) (N : nat) (vmax : Z) (p : Q)
    (u : nat → Q) (s s' : state) :
  update L N vmax p u s = Some (tt, s') →
  length (pos s') = length (pos s) ∧ length (vel s') = length (vel s) ∧
  traffic s' = traffic s ∧ (calls s ≤ calls s' ≤ calls s + N)%nat.
Proof.
  intros H. apply for_each_keeps in H. by rewrite length_seq in H.
Qed.

Lemma update_keeps_the_vehicles_witness :
  let s := State [0; 5] [0; 0] [[7]] 0 in
  let s' := State [1; 6] [1; 1] [[7]] 2 in
  update 10 2 2 (1#5) (λ _, 1#2)%Q s = Some (tt, s') ∧
  length (pos s') = length (pos s) ∧ length (vel s') = length (vel s) ∧
  traffic s' = traffic s ∧ (calls s ≤ calls s' ≤ calls s + 2)%nat.
Proof.
  intros s s'.
  assert (update 10 2 2 (1#5) (λ _, 1#2)%Q s = Some (tt, s')) as H by (by vm_compute).
  split; [exact H|].
  exact (update_keeps_the_vehicles 10 2 2 (1#5) (λ _, 1#2)%Q s s' H).
Defined.

End NS_error_claims.

(** ** The gap of the last vehicle, in general *)

Section NS_wrap_gap_general.

Import NS.

Variables (L : Z) (N : nat) (vmax : Z) (p : Q) (u : nat → Q).

(** A vehicle other than the last one, while the last one is on the road:
    its step changes its own cells only. *)
Lemma vehicle_step_frame i s y :
  (i < N - 1)%nat → length (pos s) = N → length (vel s) = N →
  pos s !! (N - 1)%nat = Some y → y < L →
  ∃ s', vehicle_step L N vmax p u i s = Some s' ∧
        length (pos s') = N ∧ length (vel s') = N ∧ traffic s' = traffic s ∧
        (∀ j, j ≠ i → pos s' !! j = pos s !! j) ∧
        (∀ j, j ≠ i → vel s' !! j = vel s !! j).
Proof.
  intros Hi Hp Hv Hy HyL.
  assert (ahead N i < N)%nat as Ha by (apply ahead_lt; lia).
  destruct (lookup_lt_is_Some_2 (vel s) i) as [v Hvi]; [lia|].
  destruct (lookup_lt_is_Some_2 (pos s) i) as [xi Hxi]; [lia|].
  destruct (lookup_lt_is_Some_2 (pos s) (ahead N i)) as [xa Hxa]; [lia|].
  unfold vehicle_step, vehicle_move. rewrite Hvi, Hxi, Hxa. simpl.
  eexists. split; [done|].
  rewrite (rotate_idle L N).
  - simpl. rewrite !length_insert.
    repeat split; try done; intros j Hj; by rewrite list_lookup_insert_ne.
  - simpl. intros y'. rewrite list_lookup_insert_ne by lia. rewrite Hy.
    by intros [= <-].
Qed.

Lemma for_each_frame (l : list nat) s y vl :
  Forall (λ i, 0 < i < N - 1)%nat l →
  length (pos s) = N → length (vel s) = N →
  pos s !! (N - 1)%nat = Some y → y < L → vel s !! (N - 1)%nat = Some vl →
  ∃ s', for_each l (update_vehicle L N vmax p u) s = Some (tt, s') ∧
        length (pos s') = N ∧ length (vel s') = N ∧ traffic s' = traffic s ∧
        pos s' !! 0%nat = pos s !! 0%nat ∧
        pos s' !! (N - 1)%nat = Some y ∧ vel s' !! (N - 1)%nat = Some vl.
Proof.
  intros Hl. revert s. induction Hl as [|i l Hi Hl IH]; intros s Hp Hv Hy HyL Hvl; simpl.
  - by exists s.
  - destruct (vehicle_step_frame i s y) as (s1 & Hs1 & Hp1 & Hv1 & Ht1 & Hpos & Hvel);
      [lia|done..|].
    rewrite bind_run, update_vehicle_run, Hs1 by (done || lia). simpl.
    destruct (IH s1) as (s' & Hs' & Hp' & Hv' & Ht' & H0 & Hy' & Hvl'); [done..| | | |].
    + by rewrite Hpos by lia.
    + done.
    + by rewrite Hvel by lia.
    + exists s'. rewrite Hs'. repeat split; try done; [congruence|].
      rewrite H0. apply Hpos. lia.
Qed.

(** The last vehicle on cell [L - 1] with the first one on cell [0]: the
    gap is [(L - (L-1) - 1) + 0 = 0], the velocity becomes [0 - 1], no
    random value is drawn, and the vehicle moves one cell back. *)
Lemma update_last_vehicle_gap_zero s v :
  (1 ≤ N)%nat → length (pos s) = N → length (vel s) = N →
  pos s !! 0%nat = Some 0 → pos s !! (N - 1)%nat = Some (L - 1) →
  vel s !! (N - 1)%nat = Some v → 0 ≤ v →
  update_vehicle L N vmax p u (N - 1) s =
    Some (tt, State (<[(N - 1)%nat := L - 2]> (pos s)) (<[(N - 1)%nat := -1]> (vel s))
                (traffic s) (calls s)).
Proof.
  intros HN Hp Hv H0 Hl Hvl Hv0.
  rewrite update_vehicle_run by (done || lia).
  unfold vehicle_step, vehicle_move, ahead, gap_to.
  rewrite (proj2 (Z.ltb_ge _ _)) by lia. rewrite Hvl, Hl, H0. simpl.
  replace (L - (L - 1) - 1 + 0) with 0 by lia.
  assert (slow_down 0 (accelerate vmax v) = -1) as ->.
  { unfold slow_down, accelerate. destruct (v <? vmax).
    - by rewrite (proj2 (Z.leb_le _ _)) by lia.
    - by rewrite (proj2 (Z.leb_le _ _)) by lia. }
  unfold randomize. simpl. f_equal. f_equal.
  replace (L - 1 + -1) with (L - 2) by lia.
  apply rotate_idle. simpl. intros y.
  rewrite list_lookup_insert_eq by lia. intros [= <-]. lia.
Qed.

End NS_wrap_gap_general.

Section NS_wrap_gap_claims.

Import NS.

(** X3. The velocity bounds fail from every well-formed state of three
    vehicles or more with the first vehicle on cell [0], the second on
    cell [1] and the last on cell [L - 1]: vehicle 0 is blocked and stays
    on cell [0], the gap of the last vehicle is
    [(L - (L - 1) - 1) + 0 = 0], its velocity becomes [-1] and it moves
    back to cell [L - 2]. *)
Theorem wrap_gap_zero_in_general (L : Z) (N : nat) (vmax : Z) (p : Q)
    (u : nat → Q) (s : state) :
  well_formed L N vmax s → (3 ≤ N)%nat →
  pos s !! 0%nat = Some 0 → pos s !! 1%nat = Some 1 →
  pos s !! (N - 1)%nat = Some (L - 1) →
  ∃ s', update L N vmax p u s = Some (tt, s') ∧
        pos s' !! 0%nat = Some 0 ∧
        pos s' !! (N - 1)%nat = Some (L - 2) ∧
        vel s' !! (N - 1)%nat = Some (-1) ∧
        ¬ well_formed L N vmax s'.
Proof.
  intros [Hp Hv Hasc Hcells Hbounds] HN H0 H1 Hl.
  destruct (lookup_lt_is_Some_2 (vel s) 0) as [v0 Hv0]; [lia|].
  destruct (lookup_lt_is_Some_2 (vel s) (N - 1)) as [vl Hvl]; [lia|].
  assert (0 ≤ v0 ≤ vmax) as Hv0r.
  { rewrite Forall_forall in Hbounds. apply Hbounds. by eapply list_elem_of_lookup_2. }
  assert (0 ≤ vl ≤ vmax) as Hvlr.
  { rewrite Forall_forall in Hbounds. apply Hbounds. by eapply list_elem_of_lookup_2. }
  unfold update.
  replace (seq 0 N) with ([0%nat] ++ seq 1 (N - 2) ++ [(N - 1)%nat]).
  2:{ replace N with (S (S (N - 2))) at 3 by lia.
      rewrite seq_S. simpl. do 3 f_equal. lia. }
  rewrite for_each_app. cbn [for_each]. rewrite bind_run.
  (* vehicle 0 is blocked *)
  rewrite update_vehicle_run by (done || lia).
  unfold vehicle_step at 1, vehicle_move, ahead, gap_to.
  rewrite (proj2 (Z.ltb_lt _ _)) by lia. rewrite Hv0, H0. simpl. rewrite H1. simpl.
  assert (slow_down (1 - 0) (accelerate vmax v0) = 0) as ->.
  { unfold slow_down, accelerate. destruct (Z.ltb_spec v0 vmax).
    - by rewrite (proj2 (Z.leb_le _ _)) by lia.
    - destruct (Z.leb_spec (1 - 0) v0); lia. }
  unfold randomize at 1 2. simpl.
  rewrite (list_insert_id (pos s)) by done.
  rewrite (rotate_idle L N).
  2:{ simpl. intros y. rewrite Hl. intros [= <-]. lia. }
  (* the vehicles in between leave cells 0 and L - 1 alone *)
  rewrite for_each_app.
  set (s1 := State (pos s) (<[0%nat:=0]> (vel s)) (traffic s) (calls s)).
  destruct (for_each_frame L N vmax p u (seq 1 (N - 2)) s1 (L - 1) vl)
    as (s2 & Hs2 & Hp2 & Hv2 & _ & H02 & Hl2 & Hvl2).
  { apply Forall_forall. intros i Hi%elem_of_seq. lia. }
  { done. }
  { subst s1. simpl. by rewrite length_insert. }
  { done. }
  { lia. }
  { subst s1. simpl. by rewrite list_lookup_insert_ne by lia. }
  rewrite Hs2. cbn [for_each]. rewrite bind_run.
  (* the last vehicle *)
  rewrite (update_last_vehicle_gap_zero L N vmax p u s2 vl);
    [|lia|done..|by rewrite H02|done|done|lia].
  eexists. split; [done|]. simpl.
  split; [rewrite list_lookup_insert_ne by lia; by rewrite H02|].
  split; [apply list_lookup_insert_eq; lia|].
  split; [apply list_lookup_insert_eq; lia|].
  intros [_ _ _ _ Hb]. simpl in Hb. rewrite Forall_forall in Hb.
  assert (0 ≤ -1 ≤ vmax) as Hbad; [|lia].
  apply Hb. apply list_elem_of_lookup. exists (N - 1)%nat.
  apply list_lookup_insert_eq. lia.
Qed.

Lemma wrap_gap_zero_in_general_witness :
  let s := State [0; 1; 7; 9] [0; 2; 1; 0] [] 0 in
  well_formed 10 4 2 s ∧ (3 ≤ 4)%nat ∧
  pos s !! 0%nat = Some 0 ∧ pos s !! 1%nat = Some 1 ∧
  pos s !! (4 - 1)%nat = Some (10 - 1) ∧
  ∃ s', update 10 4 2 (1#5) (λ _, 1#2)%Q s = Some (tt, s') ∧
        pos s' !! 0%nat = Some 0 ∧
        pos s' !! (4 - 1)%nat = Some (10 - 2) ∧
        vel s' !! (4 - 1)%nat = Some (-1) ∧
        ¬ well_formed 10 4 2 s'.
Proof.
  intros s.
  assert (well_formed 10 4 2 s) as Hwf.
  { constructor; simpl; [done|done|solve_ascending|repeat constructor; lia..]. }
  assert (3 ≤ 4)%nat as HN by lia.
  assert (pos s !! 0%nat = Some 0) as H0 by done.
  assert (pos s !! 1%nat = Some 1) as H1 by done.
  assert (pos s !! (4 - 1)%nat = Some (10 - 1)) as Hl by done.
  split; [exact Hwf|]. split; [exact HN|]. split; [exact H0|].
  split; [exact H1|]. split; [exact Hl|].
  exact (wrap_gap_zero_in_general 10 4 2 (1#5) (λ _, 1#2)%Q s Hwf HN H0 H1 Hl).
Defined.

End NS_wrap_gap_claims.

(** ** How far a time step moves the vehicles *)

Section NS_displacement.

Import NS.

Variables (L : Z) (N : nat) (vmax : Z) (p : Q) (u : nat → Q).

(** The four sub-rules on the agents [0 .. k-1]: each of them has moved by
    its new velocity, the others are as before. *)
Lemma move_prefix_displacement (st : list Spec.Traffic.Agent * nat) (k : nat) :
  (k ≤ length st.1)%nat →
  let cur := foldl (λ cur i, Spec.Traffic.apply_rules L vmax p u
                     (Spec.Traffic.position (cur.1 !!! 0%nat)) i cur) st (seq 0 k) in
  length cur.1 = length st.1 ∧
  (∀ i a, (i < k)%nat → st.1 !! i = Some a →
     ∃ b, cur.1 !! i = Some b ∧
          Spec.Traffic.position b = Spec.Traffic.position a + Spec.Traffic.velocity b) ∧
  (∀ i, (k ≤ i)%nat → cur.1 !! i = st.1 !! i).
Proof.
  induction k as [|k IH]; intros Hk.
  - simpl. split; [done|]. split; [intros; lia|done].
  - rewrite seq_S, foldl_app. cbn [foldl Nat.add].
    destruct IH as (Hlen & Hmoved & Hrest); [lia|].
    set (cur := foldl _ st (seq 0 k)) in *.
    unfold Spec.Traffic.apply_rules. cbn [fst snd].
    set (r := Spec.Traffic.random_deceleration _ _ _ _).
    split; [by rewrite length_insert|]. split.
    + intros i a Hi Ha. destruct (decide (i = k)) as [->|Hne].
      * rewrite list_lookup_insert_eq by lia. eexists. split; [done|]. simpl.
        do 2 f_equal. rewrite (list_lookup_total_correct cur.1 k a); [done|].
        by rewrite Hrest.
      * rewrite list_lookup_insert_ne by done. apply Hmoved; [lia|done].
    + intros i Hi. rewrite list_lookup_insert_ne by lia. apply Hrest. lia.
Qed.

Lemma move_all_displacement (st : list Spec.Traffic.Agent * nat) :
  let m := Spec.Traffic.move_all L vmax p u st in
  length m.1 = length st.1 ∧
  ∀ i a, st.1 !! i = Some a →
    ∃ b, m.1 !! i = Some b ∧
         Spec.Traffic.position b = Spec.Traffic.position a + Spec.Traffic.velocity b.
Proof.
  destruct (move_prefix_displacement st (length st.1) ltac:(done)) as (Hlen & Hmoved & _).
  split; [done|]. intros i a Ha. apply Hmoved; [|done]. by apply lookup_lt_Some in Ha.
Qed.

Lemma zip_agents (m : list Spec.Traffic.Agent) :
  zip_with Spec.Traffic.Build_Agent
    (Spec.Traffic.position <$> m) (Spec.Traffic.velocity <$> m) = m.
Proof. induction m as [|[x v] m IH]; [done|]. cbn. by f_equal. Qed.

Lemma rotate_lengths s :
  length (pos s) = N → length (vel s) = N →
  length (pos (rotate L N s)) = N ∧ length (vel (rotate L N s)) = N.
Proof.
  intros Hp Hv. unfold rotate.
  destruct (pos s !! (N - 1)%nat) as [xl|] eqn:Hxl; [|done].
  destruct (vel s !! (N - 1)%nat) as [vl|] eqn:Hvl; [|done].
  destruct (L <=? xl); [|done]. simpl.
  apply lookup_lt_Some in Hxl as Hl1. apply lookup_lt_Some in Hvl as Hl2.
  rewrite !length_delete by eauto. lia.
Qed.

Lemma rotate_vel_elem s w :
  w ∈ vel s → w ∈ vel (rotate L N s).
Proof.
  intros Hw. unfold rotate.
  destruct (pos s !! (N - 1)%nat) as [xl|] eqn:Hxl; [|done].
  destruct (vel s !! (N - 1)%nat) as [vl|] eqn:Hvl; [|done].
  destruct (L <=? xl); [|done]. simpl.
  apply list_elem_of_lookup in Hw as [j Hj].
  destruct (decide (j = N - 1)%nat) as [->|Hne].
  - rewrite Hvl in Hj. injection Hj as ->. apply list_elem_of_here.
  - apply list_elem_of_further, list_elem_of_lookup.
    destruct (decide (j < N - 1)%nat).
    + exists j. by rewrite list_lookup_delete_lt.
    + exists (j - 1)%nat. rewrite list_lookup_delete_ge by lia.
      by replace (S (j - 1)) with j by lia.
Qed.

End NS_displacement.

Section NS_displacement_claims.

Import NS.

(** X4. From a state of the invariant of the update loop, one time step
    moves every vehicle forward by its new velocity, which lies between
    [0] and [vmax]: the new state is the state with the velocities [ws]
    and the positions [pos[i] + ws[i]], after the wrap of the last
    vehicle if it has reached [L]. *)
Theorem update_moves_by_the_new_velocity (L : Z) (N : nat) (vmax : Z) (p : Q)
    (u : nat → Q) (s : state) :
  invariant L N vmax 0 s →
  ∃ s' ws,
    update L N vmax p u s = Some (tt, s') ∧
    length ws = N ∧ Forall (λ w, 0 ≤ w ≤ vmax) ws ∧
    s' = rotate L N (State (zip_with Z.add (pos s) ws) ws (traffic s) (calls s')).
Proof.
  intros Hinv.
  destruct (update_invariant L N vmax p u s Hinv) as (s' & Hrun & Hinv').
  pose proof (inv_pos _ _ _ _ _ Hinv) as Hp. pose proof (inv_vel _ _ _ _ _ Hinv) as Hv.
  pose proof (inv_pos _ _ _ _ _ Hinv') as Hp'. pose proof (inv_vel _ _ _ _ _ Hinv') as Hv'.
  destruct (update_refines L N vmax p u s Hp Hv) as (s'' & Hrun' & Hag & Htr).
  { intros y Hy. pose proof (inv_last _ _ _ _ _ Hinv y Hy). lia. }
  rewrite Hrun in Hrun'. injection Hrun' as <-.
  unfold Spec.Traffic.step in Hag. injection Hag as Hag Hcalls.
  set (m := Spec.Traffic.move_all L vmax p u (agents_of s, calls s)) in *.
  destruct (move_all_displacement L vmax p u (agents_of s, calls s)) as (Hlen & Hmoved).
  fold m in Hlen, Hmoved. cbn [fst] in Hlen, Hmoved.
  rewrite (length_agents_of N s Hp Hv) in Hlen.
  set (ws := Spec.Traffic.velocity <$> m.1).
  assert (length ws = N) as Hws by (subst ws; by rewrite length_fmap).
  assert (zip_with Z.add (pos s) ws = Spec.Traffic.position <$> m.1) as Hxs.
  { apply list_eq. intros i. subst ws.
    rewrite lookup_zip_with, !list_lookup_fmap.
    destruct (pos s !! i) as [x|] eqn:Hx; simpl.
    - destruct (lookup_lt_is_Some_2 (vel s) i) as [v Hvi];
        [apply lookup_lt_Some in Hx; lia|].
      destruct (Hmoved i (Spec.Traffic.Build_Agent x v)) as (b & Hb & Hpos).
      + unfold agents_of. rewrite lookup_zip_with, Hx. simpl. by rewrite Hvi.
      + rewrite Hb. simpl. f_equal. simpl in Hpos. lia.
    - apply lookup_ge_None in Hx. rewrite lookup_ge_None_2; [done|lia]. }
  set (st := State (zip_with Z.add (pos s) ws) ws (traffic s) (calls s')).
  assert (length (pos st) = N) as Hpst.
  { subst st. simpl. rewrite Hxs, length_fmap. done. }
  assert (agents_of st = m.1) as Hagst.
  { unfold agents_of, st. simpl. rewrite Hxs. apply zip_agents. }
  destruct (rotate_normalize L N st Hpst Hws) as (Hrot & Hrc & Hrt).
  destruct (rotate_lengths L N st Hpst Hws) as [Hrp Hrv].
  rewrite Hagst, <- Hag in Hrot.
  assert (pos (rotate L N st) = pos s') as Hpos.
  { rewrite <- (agents_of_pos (rotate L N st)), <- (agents_of_pos s'), Hrot; [done|lia..]. }
  assert (vel (rotate L N st) = vel s') as Hvel.
  { rewrite <- (agents_of_vel (rotate L N st)), <- (agents_of_vel s'), Hrot; [done|lia..]. }
  exists s', ws. split; [done|]. split; [done|]. split.
  - apply Forall_forall. intros w Hw.
    apply (rotate_vel_elem L N st) in Hw. rewrite Hvel in Hw.
    apply list_elem_of_lookup in Hw as [j Hj]. by apply (inv_bounds _ _ _ _ _ Hinv' j).
  - fold st. destruct s' as [ps vs tr k]. simpl in *.
    destruct (rotate L N st) as [ps' vs' tr' k'] eqn:Hr. simpl in *.
    congruence.
Qed.

Lemma update_moves_by_the_new_velocity_witness :
  let s := State [1; 5] [0; 2] [] 0 in
  invariant 10 2 2 0 s ∧
  ∃ s' ws,
    update 10 2 2 (1#5) (λ _, 1#2)%Q s = Some (tt, s') ∧
    length ws = 2%nat ∧ Forall (λ w, 0 ≤ w ≤ 2) ws ∧
    s' = rotate 10 2 (State (zip_with Z.add (pos s) ws) ws (traffic s) (calls s')).
Proof.
  intros s.
  assert (invariant 10 2 2 0 s) as Hinv.
  { constructor; simpl; [done|done|solve_ascending|..].
    - intros x [= <-]. lia.
    - intros y [= <-]. lia.
    - intros x y [= <-] [= <-]. lia.
    - intros [|[|i]] v; simpl; intros [= <-]; lia. }
  split; [exact Hinv|].
  exact (update_moves_by_the_new_velocity 10 2 2 (1#5) (λ _, 1#2)%Q s Hinv).
Defined.

End NS_displacement_claims.

(** ** What the snapshot loop writes, and when it raises *)

Section NS_draw.

Import NS.

Variable N : nat.

Lemma set_traffic_inv t k x s s' :
  set_traffic t k x s = Some (tt, s') →
  ∃ row c, traffic s !! t = Some row ∧ Py.axis (length row) k = Some c ∧
           s' = State (pos s) (vel s) (<[t := <[c := x]> row]> (traffic s)) (calls s).
Proof.
  unfold set_traffic, Py.set2.
  destruct (Py.axis (length (traffic s)) (Z.of_nat t)) as [r|] eqn:E; [|done].
  assert (r = t) as ->.
  { unfold Py.axis in E. repeat case_decide; [|lia|done].
    injection E as <-. lia. }
  simpl. destruct (traffic s !! t) as [row|] eqn:Hrow; [|done]. simpl.
  destruct (Py.axis (length row) k) as [c|] eqn:Hc; [|done]. simpl.
  intros [= <-]. by exists row, c.
Qed.

(** One vehicle of the snapshot loop: only row [t] of the array changes,
    and it keeps its length. *)
Lemma draw_vehicle_rows t i s s' :
  draw_vehicle t i s = Some (tt, s') →
  length (traffic s') = length (traffic s) ∧
  (∀ t', t' ≠ t → traffic s' !! t' = traffic s !! t') ∧
  (length <$> traffic s' !! t) = (length <$> traffic s !! t).
Proof.
  intros H.
  assert (∃ k x, set_traffic t k x s = Some (tt, s')) as (k & x & Hset).
  { unfold draw_vehicle in H. rewrite bind_run in H.
    destruct (get_vel i s) as [[v s1]|] eqn:E1; [|done].
    apply get_vel_inv in E1 as [Hv ->].
    destruct (v =? 0).
    - rewrite bind_run in H. destruct (get_pos i s) as [[y s1]|] eqn:E2; [|done].
      apply get_pos_inv in E2 as [_ ->]. eauto.
    - rewrite bind_run, (get_vel_run _ _ _ Hv) in H.
      destruct (v =? 1); rewrite bind_run in H;
        (destruct (get_pos i s) as [[y s1]|] eqn:E2; [|done]);
        apply get_pos_inv in E2 as [_ ->]; eauto. }
  apply set_traffic_inv in Hset as (row & c & Hrow & _ & ->). simpl.
  split; [by rewrite length_insert|]. split.
  - intros t' Hne. by rewrite list_lookup_insert_ne.
  - rewrite list_lookup_insert_eq by (by eapply lookup_lt_Some).
    rewrite Hrow. simpl. by rewrite length_insert.
Qed.

Lemma for_each_draw_rows t (l : list nat) s s' :
  for_each l (draw_vehicle t) s = Some (tt, s') →
  pos s' = pos s ∧ vel s' = vel s ∧ calls s' = calls s ∧
  length (traffic s') = length (traffic s) ∧
  (∀ t', t' ≠ t → traffic s' !! t' = traffic s !! t') ∧
  (length <$> traffic s' !! t) = (length <$> traffic s !! t).
Proof.
  revert s. induction l as [|i l IH]; intros s; simpl.
  - by intros [= <-].
  - rewrite bind_run. destruct (draw_vehicle t i s) as [[[] s1]|] eqn:E; [|done].
    intros H. apply IH in H as (Hp & Hv & Hc & Hlen & Hother & Hrow).
    pose proof (draw_vehicle_frame t i s s1 E) as (Hp1 & Hv1 & Hc1).
    apply draw_vehicle_rows in E as (Hlen1 & Hother1 & Hrow1).
    rewrite Hp, Hv, Hc, Hlen, Hrow. repeat split; try done.
    intros t' Hne. rewrite Hother by done. by apply Hother1.
Qed.

Lemma sheet_rows T W a a' t :
  sheet T W a → length a' = length a →
  (∀ t', t' ≠ t → a' !! t' = a !! t') →
  (length <$> a' !! t) = (length <$> a !! t) →
  sheet T W a'.
Proof.
  intros [Hlen Hrows] Hlen' Hother Hrow. split; [lia|].
  apply Forall_lookup. intros j row Hj.
  rewrite Forall_lookup in Hrows.
  destruct (decide (j = t)) as [->|Hne].
  - rewrite Hj in Hrow. simpl in Hrow.
    destruct (a !! t) as [row0|] eqn:E; [|done]. injection Hrow as ->.
    by apply (Hrows t).
  - rewrite Hother in Hj by done. by apply (Hrows j).
Qed.

(** With every position a legal column the snapshot loop does not
    raise. *)
Lemma for_each_draw_total T W t (l : list nat) s :
  sheet T W (traffic s) → (t < T)%nat →
  length (pos s) = N → length (vel s) = N →
  Forall (λ i, i < N)%nat l →
  (∀ i x, pos s !! i = Some x → - Z.of_nat W ≤ x < Z.of_nat W) →
  is_Some (for_each l (draw_vehicle t) s).
Proof.
  intros Hsh Ht Hp Hv Hl. revert s Hsh Hp Hv.
  induction Hl as [|i l Hi Hl IH]; intros s Hsh Hp Hv Hcols; simpl.
  - by eexists.
  - destruct (lookup_lt_is_Some_2 (pos s) i) as [x Hx]; [lia|].
    destruct (lookup_lt_is_Some_2 (vel s) i) as [v Hvi]; [lia|].
    destruct (lookup_lt_is_Some_2 (traffic s) t) as [row Hrow];
      [destruct Hsh as [-> _]; lia|].
    rewrite bind_run, (draw_vehicle_run t i s x v) by done.
    unfold set_traffic, Py.set2.
    rewrite axis_nat by (destruct Hsh as [-> _]; lia). simpl. rewrite Hrow. simpl.
    destruct (axis_is_Some (length row) x) as (c & -> & Hc).
    { rewrite (sheet_row T W _ t row Hsh Hrow). by eapply Hcols. }
    simpl. apply IH; simpl; try done.
    apply sheet_insert; [done|]. rewrite length_insert. by eapply sheet_row.
Qed.

(** With a position that is no legal column it raises. *)
Lemma for_each_draw_raises T W t (l : list nat) s i x :
  sheet T W (traffic s) → (t < T)%nat →
  i ∈ l → pos s !! i = Some x → is_Some (vel s !! i) →
  ¬ (- Z.of_nat W ≤ x < Z.of_nat W) →
  for_each l (draw_vehicle t) s = None.
Proof.
  intros Hsh Ht Hi Hx Hv Hbad. revert s Hsh Hx Hv.
  induction l as [|j l IH]; intros s Hsh Hx [v Hv]; [by apply elem_of_nil in Hi|].
  simpl. rewrite bind_run.
  destruct (draw_vehicle t j s) as [[[] s1]|] eqn:E; [|done].
  destruct (decide (j = i)) as [->|Hne].
  - rewrite (draw_vehicle_run t i s x v) in E by done.
    apply set_traffic_inv in E as (row & c & Hrow & Hc & _).
    rewrite (sheet_row T W _ t row Hsh Hrow) in Hc.
    unfold Py.axis in Hc. repeat case_decide; try done; lia.
  - pose proof (draw_vehicle_frame t j s s1 E) as (Hp1 & Hv1 & _).
    apply draw_vehicle_rows in E as (Hlen1 & Hother1 & Hrow1).
    apply IH.
    + apply elem_of_cons in Hi as [->|Hi]; done.
    + by eapply sheet_rows.
    + by rewrite Hp1.
    + rewrite Hv1. by eexists.
Qed.

End NS_draw.

Section NS_draw_claims.

Import NS.

(** X5. A snapshot loop that does not raise changes nothing but row [t]
    of the array: the positions, the velocities and the random source are
    as before, the array has as many rows, every other row is untouched,
    and row [t] keeps its length. *)
Theorem draw_writes_row_t_only (N : nat) (t : nat) (s s' : state) :
  draw N t s = Some (tt, s') →
  pos s' = pos s ∧ vel s' = vel s ∧ calls s' = calls s ∧
  length (traffic s') = length (traffic s) ∧
  (∀ t', t' ≠ t → traffic s' !! t' = traffic s !! t') ∧
  (length <$> traffic s' !! t) = (length <$> traffic s !! t).
Proof. apply for_each_draw_rows. Qed.

Lemma draw_writes_row_t_only_witness :
  let s := State [1; 5] [0; 2] [[0; 0; 0; 0; 0; 0]; [7; 7; 7; 7; 7; 7]] 0 in
  let s' := State [1; 5] [0; 2] [[0; 1; 0; 0; 0; 3]; [7; 7; 7; 7; 7; 7]] 0 in
  draw 2 0 s = Some (tt, s') ∧
  pos s' = pos s ∧ vel s' = vel s ∧ calls s' = calls s ∧
  length (traffic s') = length (traffic s) ∧
  (∀ t', t' ≠ 0%nat → traffic s' !! t' = traffic s !! t') ∧
  (length <$> traffic s' !! 0%nat) = (length <$> traffic s !! 0%nat).
Proof.
  intros s s'.
  assert (draw 2 0 s = Some (tt, s')) as H by (by vm_compute).
  split; [exact H|]. exact (draw_writes_row_t_only 2 0 s s' H).
Defined.

(** X6. On an array of [T] rows and [W] columns, with [N] vehicles and
    [t < T], the snapshot loop raises [IndexError] exactly when the
    position of some vehicle is outside [-W .. W-1], the columns numpy
    accepts (a negative position counts from the end of the row). *)
Theorem draw_raises_iff (N T W : nat) (t : nat) (s : state) :
  sheet T W (traffic s) → (t < T)%nat →
  length (pos s) = N → length (vel s) = N →
  draw N t s = None ↔
  ∃ i x, pos s !! i = Some x ∧ ¬ (- Z.of_nat W ≤ x < Z.of_nat W).
Proof.
  intros Hsh Ht Hp Hv. split.
  - intros Hnone.
    destruct (decide (Forall (λ x, - Z.of_nat W ≤ x < Z.of_nat W) (pos s)))
      as [Hall|Hex].
    + destruct (for_each_draw_total N T W t (seq 0 N) s) as [r Hr]; try done.
      * apply Forall_forall. intros i Hi%elem_of_seq. lia.
      * intros i x Hx. rewrite Forall_forall in Hall. apply Hall.
        by eapply list_elem_of_lookup_2.
      * unfold draw in Hnone. congruence.
    + apply not_Forall_Exists in Hex; [|apply _].
      apply Exists_exists in Hex as (x & Hin & Hbad).
      apply list_elem_of_lookup in Hin as [i Hi]. by exists i, x.
  - intros (i & x & Hx & Hbad). unfold draw.
    apply (for_each_draw_raises T W t (seq 0 N) s i x); try done.
    + apply elem_of_seq. apply lookup_lt_Some in Hx. lia.
    + apply lookup_lt_is_Some_2. apply lookup_lt_Some in Hx. lia.
Qed.

Lemma draw_raises_iff_witness :
  let s := State [1; 6] [0; 2] [[0; 0; 0; 0; 0; 0]] 0 in
  sheet 1 6 (traffic s) ∧ (0 < 1)%nat ∧
  length (pos s) = 2%nat ∧ length (vel s) = 2%nat ∧
  (draw 2 0 s = None ↔
   ∃ i x, pos s !! i = Some x ∧ ¬ (- Z.of_nat 6 ≤ x < Z.of_nat 6)).
Proof.
  intros s.
  assert (sheet 1 6 (traffic s)) as Hsh by (split; [done|by repeat constructor]).
  assert (0 < 1)%nat as Ht by lia.
  assert (length (pos s) = 2%nat) as Hp by done.
  assert (length (vel s) = 2%nat) as Hv by done.
  split; [exact Hsh|]. split; [exact Ht|]. split; [exact Hp|]. split; [exact Hv|].
  exact (draw_raises_iff 2 1 6 0 s Hsh Ht Hp Hv).
Defined.

End NS_draw_claims.

(** ** The rows of the space-time array *)

Section NS_rows.

Import NS.

Variables (L : Z) (N : nat) (vmax : Z) (p : Q) (u : nat → Q) (lo : Z).

Hypothesis lo_range : -1 ≤ lo ≤ 0.

Hypothesis vmax_nonneg : lo < 0 → 0 ≤ vmax.

Lemma traffic_value_nonzero v : traffic_value v ≠ 0.
Proof. unfold traffic_value. destruct (v =? 0); [done|]. by destruct (v =? 1). Qed.

Lemma occupied_replicate (W : nat) : occupied (replicate W 0) = 0%nat.
Proof.
  unfold occupied. induction W as [|W IH]; [done|]. simpl.
  by rewrite filter_cons_False by (intros H; by apply H).
Qed.

(** Writing a vehicle on an empty cell. *)
Lemma occupied_insert (row : list Z) (i : nat) (x : Z) :
  row !! i = Some 0 → x ≠ 0 → occupied (<[i := x]> row) = S (occupied row).
Proof.
  unfold occupied. revert i. induction row as [|y row IH]; intros i Hi Hx; [done|].
  destruct i as [|i]; simpl in *.
  - injection Hi as ->. rewrite filter_cons_True by done.
    by rewrite (filter_cons_False _ 0) by (intros H; by apply H).
  - rewrite !filter_cons. destruct (decide (y ≠ 0)); simpl; by rewrite IH.
Qed.

Lemma occupied_paint (cells : list (Z * Z)) (row : list Z) :
  NoDup ((λ c, Z.to_nat c.1) <$> cells) →
  (∀ c, c ∈ cells → row !! Z.to_nat c.1 = Some 0) →
  occupied (paint cells row) = (occupied row + length cells)%nat.
Proof.
  revert row. induction cells as [|c cells IH]; intros row Hnd Hfree.
  - simpl. unfold paint. simpl. lia.
  - simpl in Hnd. apply NoDup_cons in Hnd as [Hnotin Hnd].
    unfold paint. simpl. fold (paint cells (<[Z.to_nat c.1 := traffic_value c.2]> row)).
    rewrite IH; [|done|].
    + rewrite occupied_insert; [simpl; lia| |apply traffic_value_nonzero].
      apply Hfree. apply list_elem_of_here.
    + intros d Hd. rewrite list_lookup_insert_ne.
      * apply Hfree. by apply list_elem_of_further.
      * intros Heq. apply Hnotin. rewrite Heq. apply list_elem_of_fmap. by exists d.
Qed.

(** A row that shows the vehicles of a state of the invariant is the row
    of zeros painted with these vehicles. *)
Lemma shows_paint (row : list Z) (st : state) :
  invariant L N vmax lo st → shows L row st →
  row = paint (cells_of st (seq 0 N)) (replicate (Z.to_nat L) 0).
Proof.
  intros Hinv (Hlen & Hveh & Hfree).
  pose proof (inv_pos _ _ _ _ _ Hinv) as Hp. pose proof (inv_vel _ _ _ _ _ Hinv) as Hv.
  pose proof (invariant_cells L N vmax lo st Hinv) as Hcells.
  apply list_eq. intros c.
  destruct (decide (c < Z.to_nat L)%nat) as [Hc|Hc].
  - destruct (decide (c ∈ Z.to_nat <$> pos st)) as [Hin|Hout].
    + apply list_elem_of_fmap in Hin as (x & -> & Hx).
      apply list_elem_of_lookup in Hx as [i Hi].
      destruct (lookup_lt_is_Some_2 (vel st) i) as [v Hvi];
        [apply lookup_lt_Some in Hi; lia|].
      rewrite (Hveh i x v Hi Hvi). symmetry. apply paint_vehicle.
      * by apply (cells_of_NoDup L N vmax lo).
      * apply cells_of_elem; eauto.
      * by rewrite length_replicate.
    + rewrite Hfree; [|done|].
      * rewrite paint_other; [by rewrite lookup_replicate_2|].
        intros x v Hin Heq. apply cells_of_elem in Hin as (i & Hi & _); [|done..].
        apply Hout. apply list_elem_of_fmap. exists x. split; [done|].
        by eapply list_elem_of_lookup_2.
      * intros i x Hi Heq. apply Hout. apply list_elem_of_fmap. exists x.
        split; [done|]. by eapply list_elem_of_lookup_2.
  - rewrite !lookup_ge_None_2; [done|rewrite length_paint, length_replicate; lia|lia].
Qed.

Lemma shows_occupied (row : list Z) (st : state) :
  invariant L N vmax lo st → shows L row st → occupied row = N.
Proof.
  intros Hinv Hshows. rewrite (shows_paint row st Hinv Hshows).
  rewrite occupied_paint.
  - rewrite occupied_replicate. unfold cells_of. by rewrite length_fmap, length_seq.
  - by apply (cells_of_NoDup L N vmax lo).
  - intros [x v] Hin. simpl.
    apply cells_of_elem in Hin as (i & Hi & _);
      [|apply (inv_pos _ _ _ _ _ Hinv)|apply (inv_vel _ _ _ _ _ Hinv)].
    pose proof (invariant_cells L N vmax lo st Hinv) as Hcells.
    rewrite Forall_forall in Hcells.
    specialize (Hcells x (list_elem_of_lookup_2 _ _ _ Hi)).
    apply lookup_replicate_2. lia.
Qed.

Lemma updates_invariant (t : nat) (s st : state) :
  invariant L N vmax lo s → updates L N vmax p u t s = Some st →
  invariant L N vmax lo st.
Proof.
  intros Hinv. revert st. induction t as [|t IH]; intros st; simpl.
  - by intros [= <-].
  - destruct (updates L N vmax p u t s) as [s1|]; [|done]. simpl.
    destruct (update_invariant_from L N vmax p u lo lo_range vmax_nonneg s1 (IH s1 eq_refl))
      as (s2 & Hrun & Hinv2).
    rewrite Hrun. simpl. by intros [= <-].
Qed.

(** The simulation proper from a state of the invariant, on a road of
    [0 <= L] cells. *)
Lemma simulate_run (T : nat) (s : state) :
  0 ≤ L →
  invariant L N vmax lo s →
  ∃ sT sk,
    simulate L N vmax p u T s = Some (tt, sT) ∧
    updates L N vmax p u T s = Some sk ∧ invariant L N vmax lo sk ∧
    pos sT = pos sk ∧ vel sT = vel sk ∧ calls sT = calls sk ∧
    sheet T (Z.to_nat L) (traffic sT) ∧
    ∀ t row, traffic sT !! t = Some row → occupied row = N.
Proof.
  intros HL Hinv.
  set (σ := State (pos s) (vel s) (Py.zeros T (Z.to_nat L)) (calls s)).
  destruct (simulate_loop L N vmax p u lo lo_range vmax_nonneg T T s σ Hinv)
    as (σT & sk & Hrun & Hupd & Hinvk & Hp & Hv & Hc & Hsh & Hrows & _); [done..|].
  exists σT, sk. split; [by rewrite simulate_nonneg|].
  repeat (split; [done|]).
  intros t row Hrow.
  assert (t < T)%nat as Ht.
  { apply lookup_lt_Some in Hrow. by destruct Hsh as [<- _]. }
  destruct (Hrows t Ht) as (st & row' & Hst & Hrow' & Hshows).
  rewrite Hrow in Hrow'. injection Hrow' as <-.
  apply (shows_occupied row st); [|done]. by apply (updates_invariant t s).
Qed.

End NS_rows.

Section NS_rows_claims.

Import NS.

(** X7. The space-time array keeps count of the vehicles: on a road of
    [0 <= L] cells ([np.zeros((T, L))] raises for a negative [L]), from a
    state of the invariant of the update loop, the simulation proper
    returns an array of [T] rows and [L] columns in which every row has
    exactly [N] cells different from [0]. *)
Theorem every_row_shows_N_vehicles (L : Z) (N : nat) (vmax : Z) (p : Q)
    (u : nat → Q) (T : nat) (s : state) :
  0 ≤ L → 0 ≤ vmax → invariant L N vmax (-1) s →
  ∃ sT, simulate L N vmax p u T s = Some (tt, sT) ∧
        sheet T (Z.to_nat L) (traffic sT) ∧
        ∀ t row, traffic sT !! t = Some row → occupied row = N.
Proof.
  intros HL Hvmax Hinv.
  destruct (simulate_run L N vmax p u (-1) ltac:(lia) ltac:(done) T s HL Hinv)
    as (sT & sk & Hrun & _ & _ & _ & _ & _ & Hsh & Hrows).
  by exists sT.
Qed.

Lemma every_row_shows_N_vehicles_witness :
  let s := State [1; 5] [0; 2] [] 0 in
  0 ≤ 10 ∧ 0 ≤ 2 ∧ invariant 10 2 2 (-1) s ∧
  ∃ sT, simulate 10 2 2 (1#5) (λ _, 1#2)%Q 3 s = Some (tt, sT) ∧
        sheet 3 (Z.to_nat 10) (traffic sT) ∧
        ∀ t row, traffic sT !! t = Some row → occupied row = 2%nat.
Proof.
  intros s.
  assert (0 ≤ 2) as Hvmax by lia.
  assert (invariant 10 2 2 (-1) s) as Hinv.
  { constructor; simpl; [done|done|solve_ascending|..].
    - intros x [= <-]. lia.
    - intros y [= <-]. lia.
    - intros x y [= <-] [= <-]. lia.
    - intros [|[|i]] v; simpl; intros [= <-]; lia. }
  assert (0 ≤ 10) as HL by lia.
  split; [exact HL|]. split; [exact Hvmax|]. split; [exact Hinv|].
  exact (every_row_shows_N_vehicles 10 2 2 (1#5) (λ _, 1#2)%Q 3 s HL Hvmax Hinv).
Defined.

(** X8. The snapshot loops do not disturb the vehicles: on a road of
    [0 <= L] cells ([np.zeros((T, L))] raises for a negative [L]), from a
    state of the invariant of the update loop, the positions, the
    velocities and the number of random values drawn at the end of the
    simulation proper of [T] time steps are those of [T] update loops run
    without any snapshot. *)
Theorem simulate_ends_where_the_updates_end (L : Z) (N : nat) (vmax : Z)
    (p : Q) (u : nat → Q) (T : nat) (s : state) :
  0 ≤ L → 0 ≤ vmax → invariant L N vmax (-1) s →
  ∃ sT sk, simulate L N vmax p u T s = Some (tt, sT) ∧
           updates L N vmax p u T s = Some sk ∧
           pos sT = pos sk ∧ vel sT = vel sk ∧ calls sT = calls sk.
Proof.
  intros HL Hvmax Hinv.
  destruct (simulate_run L N vmax p u (-1) ltac:(lia) ltac:(done) T s HL Hinv)
    as (sT & sk & Hrun & Hupd & _ & Hp & Hv & Hc & _).
  by exists sT, sk.
Qed.

Lemma simulate_ends_where_the_updates_end_witness :
  let s := State [1; 5] [0; 2] [] 0 in
  0 ≤ 10 ∧ 0 ≤ 2 ∧ invariant 10 2 2 (-1) s ∧
  ∃ sT sk, simulate 10 2 2 (1#5) (λ _, 1#2)%Q 3 s = Some (tt, sT) ∧
           updates 10 2 2 (1#5) (λ _, 1#2)%Q 3 s = Some sk ∧
           pos sT = pos sk ∧ vel sT = vel sk ∧ calls sT = calls sk.
Proof.
  intros s.
  assert (0 ≤ 2) as Hvmax by lia.
  assert (invariant 10 2 2 (-1) s) as Hinv.
  { constructor; simpl; [done|done|solve_ascending|..].
    - intros x [= <-]. lia.
    - intros y [= <-]. lia.
    - intros x y [= <-] [= <-]. lia.
    - intros [|[|i]] v; simpl; intros [= <-]; lia. }
  assert (0 ≤ 10) as HL by lia.
  split; [exact HL|]. split; [exact Hvmax|]. split; [exact Hinv|].
  exact (simulate_ends_where_the_updates_end 10 2 2 (1#5) (λ _, 1#2)%Q 3 s HL Hvmax Hinv).
Defined.

(** X9. Run in the order of its cells (initialisation, single time step,
    simulation proper), the notebook does not raise with [0 < N < L],
    whatever values [np.random.randint] and [np.random.rand] return: the
    single time step brings a last vehicle placed at position [L] back on
    the road before the first snapshot.  At the end the vehicles stand on
    pairwise different cells of [0 .. L-1], in ascending order, and every
    row of the array shows [N] vehicles. *)
Theorem notebook_does_not_raise (L : Z) (N : nat) (vmax : Z) (p : Q)
    (u : nat → Q) (gaps vels : list Z) (T : nat) (s0 : state) :
  (1 ≤ N)%nat → Z.of_nat N < L →
  randint_outcome 1 (1 + L / Z.of_nat N) N gaps →
  randint_outcome 0 (vmax + 1) N vels →
  ∃ sT, notebook L N vmax p u gaps vels T s0 = Some (tt, sT) ∧
        NoDup (pos sT) ∧ ascending (pos sT) ∧
        Forall (λ x, 0 ≤ x ≤ L - 1) (pos sT) ∧
        sheet T (Z.to_nat L) (traffic sT) ∧
        ∀ t row, traffic sT !! t = Some row → occupied row = N.
Proof.
  intros HN HNL Hgaps Hvels.
  set (s1 := State (running 0 gaps) vels (traffic s0) (calls s0)).
  assert (initialize N gaps vels s0 = Some (tt, s1)) as Hinit.
  { apply initialize_run; [apply Hgaps|done]. }
  assert (reachable L N vmax p u s1) as Hreach by (by eapply reach_initialize).
  assert (0 ≤ vmax) as Hvmax by (apply (reachable_vmax L N vmax p u s1 Hreach); lia).
  destruct (reachable_update L N vmax p u HNL s1 Hreach) as (s2 & Hupd & Hinv2).
  destruct (simulate_run L N vmax p u (-1) ltac:(lia) ltac:(done) T s2 ltac:(lia) Hinv2)
    as (sT & sk & Hrun & _ & Hinvk & Hp & Hv & _ & Hsh & Hrows).
  exists sT. split.
  { unfold notebook. by rewrite bind_run, Hinit, bind_run, Hupd. }
  rewrite Hp.
  split; [apply ascending_NoDup, Hinvk|]. split; [apply Hinvk|].
  split; [by apply invariant_cells with N vmax (-1)|]. done.
Qed.

Lemma notebook_does_not_raise_witness :
  (1 ≤ 2)%nat ∧ Z.of_nat 2 < 4 ∧
  randint_outcome 1 (1 + 4 / Z.of_nat 2) 2 [2; 2] ∧
  randint_outcome 0 (2 + 1) 2 [0; 0] ∧
  ∃ sT, notebook 4 2 2 (1#5) (λ _, 1#2)%Q [2; 2] [0; 0] 3 (State [] [] [] 0) =
          Some (tt, sT) ∧
        NoDup (pos sT) ∧ ascending (pos sT) ∧
        Forall (λ x, 0 ≤ x ≤ 4 - 1) (pos sT) ∧
        sheet 3 (Z.to_nat 4) (traffic sT) ∧
        ∀ t row, traffic sT !! t = Some row → occupied row = 2%nat.
Proof.
  assert (1 ≤ 2)%nat as HN by lia.
  assert (Z.of_nat 2 < 4) as HNL by lia.
  assert (randint_outcome 1 (1 + 4 / Z.of_nat 2) 2 [2; 2]) as Hg.
  { split; [done|]. repeat constructor; vm_compute; congruence. }
  assert (randint_outcome 0 (2 + 1) 2 [0; 0]) as Hv.
  { split; [done|]. repeat constructor; vm_compute; congruence. }
  split; [exact HN|]. split; [exact HNL|]. split; [exact Hg|]. split; [exact Hv|].
  exact (notebook_does_not_raise 4 2 2 (1#5) (λ _, 1#2)%Q [2; 2] [0; 0] 3
           (State [] [] [] 0) HN HNL Hg Hv).
Defined.

End NS_rows_claims.

(** ** Where the initialisation puts the vehicles *)

Section NS_layout.

Import NS.

(** The running sums of gaps between [1] and [g]. *)
Lemma running_bounds (g acc : Z) (gaps : list Z) (i : nat) (x : Z) :
  Forall (λ y, 1 ≤ y ≤ g) gaps → running acc gaps !! i = Some x →
  acc + (Z.of_nat i + 1) ≤ x ≤ acc + (Z.of_nat i + 1) * g.
Proof.
  intros Hg. revert acc i. induction Hg as [|y gaps Hy Hg IH]; intros acc i; [done|].
  destruct i as [|i]; simpl.
  - intros [= <-]. lia.
  - intros Hx. apply IH in Hx. nia.
Qed.

End NS_layout.

Section NS_layout_claims.

Import NS.

(** X10. The initialisation cell, for every outcome of its calls of
    [np.random.randint]: it does not raise, the [N] positions increase
    strictly and lie between [1] and [L] (cell [0] is never occupied), and
    a vehicle stands at position [L], outside the road, exactly when [N]
    divides [L] and every gap has the largest value [L // N]. *)
Theorem initialize_layout (L : Z) (N : nat) (vmax : Z) (gaps vels : list Z)
    (s0 : state) :
  (1 ≤ N)%nat →
  randint_outcome 1 (1 + L / Z.of_nat N) N gaps →
  randint_outcome 0 (vmax + 1) N vels →
  ∃ s, initialize N gaps vels s0 = Some (tt, s) ∧
       length (pos s) = N ∧ vel s = vels ∧ ascending (pos s) ∧
       Forall (λ x, 1 ≤ x ≤ L) (pos s) ∧
       (L ∈ pos s ↔
        gaps = replicate N (L / Z.of_nat N) ∧ Z.of_nat N * (L / Z.of_nat N) = L).
Proof.
  intros HN [Hlen Hgaps] [Hvlen Hvels]. set (g := L / Z.of_nat N) in *.
  assert (Forall (λ y, 1 ≤ y ≤ g) gaps) as Hg.
  { eapply Forall_impl; [exact Hgaps|]. simpl. intros y Hy. lia. }
  assert (1 ≤ g) as Hg1.
  { destruct gaps as [|y gaps]; [simpl in Hlen; lia|].
    apply Forall_cons in Hg as [Hy _]. lia. }
  assert (Z.of_nat N * g ≤ L) as Hmul.
  { subst g. apply Z.mul_div_le. lia. }
  exists (State (running 0 gaps) vels (traffic s0) (calls s0)).
  split; [by apply initialize_run|]. simpl.
  split; [by rewrite length_running|]. split; [done|].
  split; [apply running_ascending; eapply Forall_impl; [exact Hg|]; simpl; lia|].
  split.
  - apply Forall_lookup. intros i x Hx.
    pose proof (running_bounds g 0 gaps i x Hg Hx) as Hb.
    apply lookup_lt_Some in Hx. rewrite length_running, Hlen in Hx. nia.
  - split.
    + intros Hin. apply list_elem_of_lookup in Hin as [i Hi].
      pose proof (running_bounds g 0 gaps i L Hg Hi) as Hb.
      apply lookup_lt_Some in Hi as Hlt. rewrite length_running, Hlen in Hlt.
      assert (i = N - 1)%nat as -> by nia.
      assert (Z.of_nat N * g = L) as HL by nia.
      split; [|done].
      destruct (running_last_le g 0 gaps L) as [_ Heq].
      * eapply Forall_impl; [exact Hg|]. simpl. lia.
      * rewrite last_lookup, length_running, Hlen.
        by replace (pred N) with (N - 1)%nat by lia.
      * rewrite Hlen in Heq. apply Heq. lia.
    + intros [-> HL]. apply list_elem_of_lookup. exists (N - 1)%nat.
      rewrite running_replicate by lia. f_equal. nia.
Qed.

Lemma initialize_layout_witness :
  (1 ≤ 25)%nat ∧
  randint_outcome 1 (1 + 100 / Z.of_nat 25) 25 (replicate 25 3) ∧
  randint_outcome 0 (2 + 1) 25 (replicate 25 1) ∧
  ∃ s, initialize 25 (replicate 25 3) (replicate 25 1) (State [] [] [] 0) = Some (tt, s) ∧
       length (pos s) = 25%nat ∧ vel s = replicate 25 1 ∧ ascending (pos s) ∧
       Forall (λ x, 1 ≤ x ≤ 100) (pos s) ∧
       (100 ∈ pos s ↔
        replicate 25 3 = replicate 25 (100 / Z.of_nat 25) ∧
        Z.of_nat 25 * (100 / Z.of_nat 25) = 100).
Proof.
  assert (1 ≤ 25)%nat as HN by lia.
  assert (randint_outcome 1 (1 + 100 / Z.of_nat 25) 25 (replicate 25 3)) as Hg.
  { split; [done|]. apply Forall_replicate. by vm_compute. }
  assert (randint_outcome 0 (2 + 1) 25 (replicate 25 1)) as Hv.
  { split; [done|]. apply Forall_replicate. lia. }
  split; [exact HN|]. split; [exact Hg|]. split; [exact Hv|].
  exact (initialize_layout 100 25 2 (replicate 25 3) (replicate 25 1)
           (State [] [] [] 0) HN Hg Hv).
Defined.

End NS_layout_claims.

(** * Further properties of the Game of Life notebook *)

(** ** The random initialisation of the board *)

Section Life_initialize.

Import Life.

Variables (N : nat) (u : nat → Q) (k0 : nat).

(** [a[i, j] = x] inside an [N] by [N] array. *)
Lemma set2_at (a : list (list Z)) (i j : nat) (x : Z) :
  shape N a → (i < N)%nat → (j < N)%nat →
  ∃ a', Py.set2 a (Z.of_nat i) (Z.of_nat j) x = Some a' ∧ shape N a' ∧
        ∀ k l, at2 a' k l = if decide (k = i ∧ l = j) then Some x else at2 a k l.
Proof.
  intros [Hlen Hrows] Hi Hj. unfold Py.set2.
  rewrite axis_nat by lia. simpl.
  destruct (lookup_lt_is_Some_2 a i) as [row Hrow]; [lia|]. rewrite Hrow. simpl.
  assert (length row = N) as Hrl.
  { rewrite Forall_forall in Hrows. apply Hrows. eapply list_elem_of_lookup_2; eauto. }
  rewrite axis_nat by lia. simpl. eexists. split; [done|]. split.
  - split; [by rewrite length_insert|].
    apply Forall_insert; [done|]. by rewrite length_insert.
  - intros k l. unfold at2. case_decide as Hkl.
    + destruct Hkl as [-> ->]. rewrite list_lookup_insert_eq by lia. simpl.
      apply list_lookup_insert_eq. lia.
    + destruct (decide (k = i)) as [->|Hk].
      * rewrite list_lookup_insert_eq by lia. rewrite Hrow. simpl.
        apply list_lookup_insert_ne. naive_solver.
      * by rewrite list_lookup_insert_ne.
Qed.

Lemma at2_zeros (i j : nat) :
  (i < N)%nat → (j < N)%nat → at2 (Py.zeros N N) i j = Some 0.
Proof.
  intros Hi Hj. unfold at2, Py.zeros. rewrite lookup_replicate_2 by done. simpl.
  by apply lookup_replicate_2.
Qed.

Lemma seed_cell_run (st : list (list Z) * nat) (i j : nat) :
  (i < N)%nat → (j < N)%nat → seeded_up_to N u k0 (i * N + j) st →
  ∃ st', seed_cell u st (Z.of_nat i) (Z.of_nat j) = Some st' ∧
         seeded_up_to N u k0 (i * N + j + 1) st'.
Proof.
  intros Hi Hj (Hk & Hsh & Hat). unfold seed_cell, seeded_up_to.
  assert (∀ r l, (r < N)%nat → (l < N)%nat →
            (r * N + l < i * N + j + 1)%nat ↔
            (r * N + l < i * N + j)%nat ∨ (r = i ∧ l = j)) as Hcell.
  { intros r l Hr Hl. split; [|intros [?|[-> ->]]; lia].
    intros Hlt. destruct (decide (r = i ∧ l = j)) as [|Hne]; [by right|left].
    destruct (decide (r = i)) as [->|Hri]; [lia|]. nia. }
  destruct (Qltb (u st.2) one_fifth) eqn:Hdraw.
  - destruct (set2_at st.1 i j 1 Hsh Hi Hj) as (a' & -> & Hsh' & Hat'). simpl.
    eexists. split; [done|]. split; [simpl; lia|]. split; [done|]. simpl.
    intros r l Hr Hl. rewrite Hat'. case_decide as Hrl.
    + destruct Hrl as [-> ->]. rewrite decide_True by lia.
      unfold seeded. rewrite Hk in Hdraw.
      replace (k0 + i * N + j)%nat with (k0 + (i * N + j))%nat by lia. by rewrite Hdraw.
    + rewrite Hat by done. f_equal.
      destruct (decide (r * N + l < i * N + j)%nat) as [Hlt|Hge].
      * by rewrite decide_True by lia.
      * rewrite decide_False; [done|]. rewrite Hcell by done. tauto.
  - eexists. split; [done|]. split; [simpl; lia|]. split; [done|]. simpl.
    intros r l Hr Hl. rewrite Hat by done. f_equal.
    destruct (decide (r * N + l < i * N + j)%nat) as [Hlt|Hge].
    + by rewrite decide_True by lia.
    + destruct (decide (r * N + l < i * N + j + 1)%nat) as [Hlt'|]; [|done].
      apply Hcell in Hlt'; [|done..]. destruct Hlt' as [?|[-> ->]]; [lia|].
      unfold seeded. rewrite Hk in Hdraw.
      replace (k0 + i * N + j)%nat with (k0 + (i * N + j))%nat by lia. by rewrite Hdraw.
Qed.

Lemma seed_row_run (st : list (list Z) * nat) (i c : nat) :
  (i < N)%nat → (c ≤ N)%nat → seeded_up_to N u k0 (i * N) st →
  ∃ st', for_fold (λ st j, seed_cell u st (Z.of_nat i) (Z.of_nat j)) (seq 0 c) st
           = Some st' ∧ seeded_up_to N u k0 (i * N + c) st'.
Proof.
  intros Hi Hc Hst. induction c as [|c IH].
  - exists st. split; [done|]. by rewrite Nat.add_0_r.
  - destruct IH as (st1 & Hrun & Hst1); [lia|].
    destruct (seed_cell_run st1 i c) as (st2 & Hrun2 & Hst2); [lia..|done|].
    exists st2. rewrite seq_S, for_fold_app, Hrun. simpl. rewrite Hrun2.
    split; [done|]. by replace (i * N + S c)%nat with (i * N + c + 1)%nat by lia.
Qed.

Lemma seed_board_run (r : nat) :
  (r ≤ N)%nat →
  ∃ st', for_fold (λ st i,
           for_fold (λ st j, seed_cell u st (Z.of_nat i) (Z.of_nat j)) (seq 0 N) st)
           (seq 0 r) (Py.zeros N N, k0) = Some st' ∧ seeded_up_to N u k0 (r * N) st'.
Proof.
  intros Hr. induction r as [|r IH].
  - eexists. split; [done|]. split; [simpl; lia|]. split; [apply shape_zeros|].
    cbn [fst snd]. intros i j Hi Hj. rewrite at2_zeros by done.
    by destruct (decide _); [lia|].
  - destruct IH as (st1 & Hrun & Hst1); [lia|].
    destruct (seed_row_run st1 r N) as (st2 & Hrun2 & Hst2); [lia..|done|].
    exists st2. rewrite seq_S, for_fold_app, Hrun. simpl. rewrite Hrun2.
    split; [done|]. by replace (N + r * N)%nat with (r * N + N)%nat by lia.
Qed.

Lemma initialize_board_seeded :
  ∃ board, initialize_board N u k0 = Some (board, (k0 + N * N)%nat) ∧
           shape N board ∧
           ∀ i j, (i < N)%nat → (j < N)%nat →
             at2 board i j =
               Some (if Qltb (u (k0 + i * N + j)) one_fifth then 1 else 0).
Proof.
  destruct (seed_board_run N) as ([board k] & Hrun & Hk & Hsh & Hat); [done|].
  simpl in Hk, Hsh, Hat. exists board. split; [|split; [done|]].
  - unfold initialize_board. cbn zeta. rewrite range_0_nat, for_fold_fmap.
    erewrite (for_fold_ext _ _ (seq 0 N)); [rewrite Hrun; by rewrite Hk|].
    intros st i. simpl. by rewrite for_fold_fmap.
  - intros i j Hi Hj. rewrite Hat by done. rewrite decide_True by nia. done.
Qed.

End Life_initialize.

(** A board all of whose cells hold [0] or [1]. *)
Lemma binary_at2 (N : nat) (a : list (list Z)) :
  Life.shape N a →
  (∀ i j, (i < N)%nat → (j < N)%nat → ∃ x, Life.at2 a i j = Some x ∧ (x = 0 ∨ x = 1)) →
  Life.binary a.
Proof.
  intros [Hlen Hrows] Hat. apply Forall_lookup. intros i row Hrow.
  apply Forall_lookup. intros j x Hx.
  assert (i < N)%nat as Hi by (apply lookup_lt_Some in Hrow; lia).
  assert (j < N)%nat as Hj.
  { apply lookup_lt_Some in Hx. rewrite Forall_lookup in Hrows.
    by rewrite (Hrows i row Hrow) in Hx. }
  destruct (Hat i j Hi Hj) as (y & Hy & Hy01).
  unfold Life.at2 in Hy. rewrite Hrow in Hy. simpl in Hy. congruence.
Qed.

Lemma initialize_board_run (N : nat) (u : nat → Q) (k : nat) :
  ∃ board, Life.initialize_board N u k = Some (board, (k + N * N)%nat) ∧
           Life.shape N board ∧ Life.binary board.
Proof.
  destruct (initialize_board_seeded N u k) as (board & Hrun & Hsh & Hat).
  exists board. split; [done|]. split; [done|].
  apply (binary_at2 N); [done|]. intros i j Hi Hj. eexists. split; [by apply Hat|].
  destruct (Qltb _ _); auto.
Qed.

Section Life_initialize_claims.

Import Life.

(** X11. The initialisation of the board does not raise and calls
    [np.random.rand()] once per cell, row by row: it returns an [N] by [N]
    board of zeros and ones in which the cell [(i, j)] is alive exactly
    when the call number [i * N + j] has returned a value below [0.2]. *)
Theorem initialize_board_follows_the_draws (N : nat) (u : nat → Q) (k : nat) :
  ∃ board, initialize_board N u k = Some (board, (k + N * N)%nat) ∧
           shape N board ∧ binary board ∧
           ∀ i j, (i < N)%nat → (j < N)%nat →
             at2 board i j =
               Some (if Qltb (u (k + i * N + j)%nat) one_fifth then 1 else 0).
Proof.
  destruct (initialize_board_seeded N u k) as (board & Hrun & Hsh & Hat).
  exists board. split; [done|]. split; [done|]. split; [|done].
  apply (binary_at2 N); [done|]. intros i j Hi Hj. eexists. split; [by apply Hat|].
  destruct (Qltb _ _); auto.
Qed.

End Life_initialize_claims.

(** ** The neighbour list *)

Section Life_nbrs.

Import Life.

(** Outside the board the dictionary has no entry. *)
Lemma nbrs_lookup_outside (N : nat) (i j : Z) :
  (1 ≤ N)%nat → ¬ (0 ≤ i < Z.of_nat N ∧ 0 ≤ j < Z.of_nat N) →
  nbrs N !! (i, j) = None.
Proof.
  intros HN Hout. unfold nbrs. set (n := Z.of_nat N) in *.
  repeat skip_fold. repeat skip_insert. apply lookup_empty.
Qed.

Ltac find_cell :=
  rewrite !elem_of_cons, elem_of_nil;
  repeat first [ solve [left; f_equal; lia] | right ].

Ltac other_cells :=
  rewrite ?elem_of_cons, elem_of_nil;
  let H := fresh in
  intros H; repeat (destruct H as [H|H]; [injection H; lia|]); done.

(** The entry of a cell of the board lists the cells of the board that
    touch it, each of them once. *)
Lemma entry_touches (n i j : Z) (d : Z * Z) :
  2 ≤ n → 0 ≤ i < n → 0 ≤ j < n →
  d ∈ entry n i j ↔ Spec.Life.touches n (i, j) d.
Proof.
  intros Hn Hi Hj. destruct d as [k l]. unfold Spec.Life.touches. cbn [fst snd].
  assert ((i, j) ≠ (k, l) ↔ (i ≠ k ∨ j ≠ l)) as ->.
  { split; [|intros [?|?] [= ]; lia]. intros Hne.
    destruct (decide (i = k)) as [->|]; [|lia]. right. congruence. }
  unfold entry, mid.
  destruct (decide (i = 0)) as [Hi0|Hi0]; [|destruct (decide (i = n - 1)) as [Hi1|Hi1]];
    (destruct (decide (j = 0)) as [Hj0|Hj0]; [|destruct (decide (j = n - 1)) as [Hj1|Hj1]]);
    bools;
    (split;
     [ rewrite !elem_of_cons, elem_of_nil; intros Hin;
       repeat (destruct Hin as [Hin|Hin]; [injection Hin as -> ->; lia|]); done
     | intros (Hne & Hk & Hl & Hkn & Hln);
       assert (k = i - 1 ∨ k = i ∨ k = i + 1) as Hkc by lia;
       assert (l = j - 1 ∨ l = j ∨ l = j + 1) as Hlc by lia;
       destruct Hkc as [-> | [-> | ->] ], Hlc as [-> | [-> | ->] ]; try lia; find_cell ]).
Qed.

Lemma entry_NoDup (n i j : Z) :
  2 ≤ n → 0 ≤ i < n → 0 ≤ j < n → NoDup (entry n i j).
Proof.
  intros Hn Hi Hj. unfold entry, mid.
  destruct (decide (i = 0)) as [Hi0|Hi0]; [|destruct (decide (i = n - 1)) as [Hi1|Hi1]];
    (destruct (decide (j = 0)) as [Hj0|Hj0]; [|destruct (decide (j = n - 1)) as [Hj1|Hj1]]);
    bools;
    repeat (apply NoDup_cons; split; [other_cells|]); apply NoDup_nil_2.
Qed.

Lemma touches_sym (n : Z) (c d : Z * Z) :
  0 ≤ c.1 < n → 0 ≤ c.2 < n →
  Spec.Life.touches n c d → Spec.Life.touches n d c.
Proof.
  unfold Spec.Life.touches. intros ? ? (Hne & ? & ? & ? & ?).
  split; [congruence|lia].
Qed.

End Life_nbrs.

Section Life_nbrs_claims.

Import Life.

(** X12. On a board of at least one cell the dictionary [nbrs] has an
    entry for the cells of the board and for no other pair: reading it
    elsewhere raises [KeyError]. *)
Theorem nbrs_keys_are_the_cells (N : nat) (i j : Z) :
  (1 ≤ N)%nat →
  is_Some (nbrs N !! (i, j)) ↔ 0 ≤ i < Z.of_nat N ∧ 0 ≤ j < Z.of_nat N.
Proof.
  intros HN. split.
  - intros [ns Hns].
    destruct (decide (0 ≤ i < Z.of_nat N ∧ 0 ≤ j < Z.of_nat N)) as [|Hout]; [done|].
    by rewrite nbrs_lookup_outside in Hns.
  - intros [Hi Hj]. rewrite nbrs_lookup by done. by eexists.
Qed.

Lemma nbrs_keys_are_the_cells_witness :
  (1 ≤ 20)%nat ∧
  (is_Some (nbrs 20 !! (20, 3)) ↔ 0 ≤ 20 < Z.of_nat 20 ∧ 0 ≤ 3 < Z.of_nat 20).
Proof.
  assert (1 ≤ 20)%nat as HN by lia. split; [exact HN|].
  exact (nbrs_keys_are_the_cells 20 20 3 HN).
Defined.

(** X13. On a board of 2 by 2 cells or more the entry of a cell lists,
    each one once, the cells of the board that touch it (the cells other
    than itself at most one row and one column away). *)
Theorem nbrs_lists_the_touching_cells (N : nat) (i j : Z) :
  (2 ≤ N)%nat → 0 ≤ i < Z.of_nat N → 0 ≤ j < Z.of_nat N →
  ∃ ns, nbrs N !! (i, j) = Some ns ∧ NoDup ns ∧
        ∀ d, d ∈ ns ↔ Spec.Life.touches (Z.of_nat N) (i, j) d.
Proof.
  intros HN Hi Hj. exists (entry (Z.of_nat N) i j).
  split; [by apply nbrs_lookup|].
  split; [apply entry_NoDup; lia|].
  intros d. apply entry_touches; lia.
Qed.

Lemma nbrs_lists_the_touching_cells_witness :
  (2 ≤ 20)%nat ∧ 0 ≤ 19 < Z.of_nat 20 ∧ 0 ≤ 7 < Z.of_nat 20 ∧
  ∃ ns, nbrs 20 !! (19, 7) = Some ns ∧ NoDup ns ∧
        ∀ d, d ∈ ns ↔ Spec.Life.touches (Z.of_nat 20) (19, 7) d.
Proof.
  assert (2 ≤ 20)%nat as HN by lia.
  assert (0 ≤ 19 < Z.of_nat 20) as Hi by lia.
  assert (0 ≤ 7 < Z.of_nat 20) as Hj by lia.
  split; [exact HN|]. split; [exact Hi|]. split; [exact Hj|].
  exact (nbrs_lists_the_touching_cells 20 19 7 HN Hi Hj).
Defined.

(** X14. On a board of 2 by 2 cells or more the neighbour relation is
    symmetric and irreflexive: [d] is listed for [c] exactly when [c] is
    listed for [d], and no cell is listed for itself. *)
Theorem nbrs_is_symmetric (N : nat) (c d : Z * Z) (nc nd : list (Z * Z)) :
  (2 ≤ N)%nat → nbrs N !! c = Some nc → nbrs N !! d = Some nd →
  (d ∈ nc ↔ c ∈ nd) ∧ c ∉ nc.
Proof.
  intros HN Hc Hd. destruct c as [i j], d as [k l].
  assert (0 ≤ i < Z.of_nat N ∧ 0 ≤ j < Z.of_nat N) as [Hi Hj].
  { destruct (decide (0 ≤ i < Z.of_nat N ∧ 0 ≤ j < Z.of_nat N)) as [|Hout]; [done|].
    rewrite nbrs_lookup_outside in Hc; [done|lia|done]. }
  assert (0 ≤ k < Z.of_nat N ∧ 0 ≤ l < Z.of_nat N) as [Hk Hl].
  { destruct (decide (0 ≤ k < Z.of_nat N ∧ 0 ≤ l < Z.of_nat N)) as [|Hout]; [done|].
    rewrite nbrs_lookup_outside in Hd; [done|lia|done]. }
  rewrite nbrs_lookup in Hc, Hd by done.
  injection Hc as <-. injection Hd as <-.
  rewrite !entry_touches by lia. split.
  - split; apply touches_sym; done.
  - by intros [Hne _].
Qed.

Lemma nbrs_is_symmetric_witness :
  (2 ≤ 3)%nat ∧
  nbrs 3 !! (0, 0) = Some [(0, 1); (1, 1); (1, 0)] ∧
  nbrs 3 !! (1, 1) =
    Some [(1, 2); (2, 2); (2, 1); (2, 0); (1, 0); (0, 0); (0, 1); (0, 2)] ∧
  ((1, 1) ∈ [(0, 1); (1, 1); (1, 0)] ↔
   (0, 0) ∈ [(1, 2); (2, 2); (2, 1); (2, 0); (1, 0); (0, 0); (0, 1); (0, 2)]) ∧
  (0, 0) ∉ [(0, 1); (1, 1); (1, 0)].
Proof.
  assert (2 ≤ 3)%nat as HN by lia.
  assert (nbrs 3 !! (0, 0) = Some [(0, 1); (1, 1); (1, 0)]) as Hc by (by vm_compute).
  assert (nbrs 3 !! (1, 1) =
    Some [(1, 2); (2, 2); (2, 1); (2, 0); (1, 0); (0, 0); (0, 1); (0, 2)]) as Hd
    by (by vm_compute).
  split; [exact HN|]. split; [exact Hc|]. split; [exact Hd|].
  exact (nbrs_is_symmetric 3 (0, 0) (1, 1) _ _ HN Hc Hd).
Defined.

End Life_nbrs_claims.

(** ** One turn: errors and results *)

Section Life_turn_more.

Import Life.

Lemma for_fold_None {A B} (body : B → A → option B) (l : list A) (x : A) (acc : B) :
  x ∈ l → (∀ acc, body acc x = None) → for_fold body l acc = None.
Proof.
  intros Hx Hnone. revert acc. induction l as [|a l IH]; intros acc.
  - by apply elem_of_nil in Hx.
  - simpl. apply elem_of_cons in Hx as [<-|Hx]; [by rewrite Hnone|].
    destruct (body acc a); simpl; [by apply IH|done].
Qed.

Lemma for_fold_keeps {A B} (P : B → Prop) (body : B → A → option B) (l : list A)
    (acc r : B) :
  (∀ acc x acc', P acc → body acc x = Some acc' → P acc') →
  P acc → for_fold body l acc = Some r → P r.
Proof.
  intros Hbody. revert acc. induction l as [|a l IH]; intros acc HP; simpl.
  - by intros [= <-].
  - destruct (body acc a) as [acc'|] eqn:E; simpl; [|done].
    apply IH. by eapply Hbody.
Qed.

(** The cell [(i, j)] of the board cannot be updated without an entry of
    the neighbour list, nor without the cell itself. *)
Lemma update_cell_None (table : gmap (Z * Z) (list (Z * Z)))
    (board newboard : list (list Z)) (i j : Z) :
  table !! (i, j) = None ∨ Py.get2 board i j = None →
  update_cell table board newboard i j = None.
Proof.
  intros Hnone. unfold update_cell.
  destruct (table !! (i, j)) as [ns|] eqn:Hns; simpl; [|done].
  destruct Hnone as [?|Hc]; [done|].
  destruct (for_fold (add_neighbour board) ns 0); simpl; [|done].
  by rewrite Hc.
Qed.

(** A write of [0] or [1] keeps a board a board. *)
Lemma set2_keeps (N : nat) (a a' : list (list Z)) (k l x : Z) :
  Py.set2 a k l x = Some a' → x = 0 ∨ x = 1 →
  shape N a ∧ binary a → shape N a' ∧ binary a'.
Proof.
  unfold Py.set2. intros Hset Hx [[Hlen Hrows] Hbin].
  destruct (Py.axis (length a) k) as [r|]; simpl in Hset; [|done].
  destruct (a !! r) as [row|] eqn:Hrow; simpl in Hset; [|done].
  destruct (Py.axis (length row) l) as [c|]; simpl in Hset; [|done].
  injection Hset as <-.
  rewrite Forall_lookup in Hrows. unfold binary in *. rewrite Forall_lookup in Hbin.
  split; [split|].
  - by rewrite length_insert.
  - apply Forall_insert; [by apply Forall_lookup|].
    rewrite length_insert. by apply (Hrows r).
  - apply Forall_insert; [by apply Forall_lookup|].
    apply Forall_insert; [by apply (Hbin r)|done].
Qed.

Lemma update_cell_keeps (N : nat) (table : gmap (Z * Z) (list (Z * Z)))
    (board a a' : list (list Z)) (i j : Z) :
  shape N a ∧ binary a → update_cell table board a i j = Some a' →
  shape N a' ∧ binary a'.
Proof.
  intros Ha. unfold update_cell.
  destruct (table !! (i, j)) as [ns|]; simpl; [|done].
  destruct (for_fold (add_neighbour board) ns 0) as [numnbr|]; simpl; [|done].
  destruct (Py.get2 board i j) as [c|]; simpl; [|done].
  destruct (c =? 1); [destruct ((numnbr <? 2) || (3 <? numnbr))|destruct (numnbr =? 3)];
    intros Hset; eapply set2_keeps; eauto.
Qed.

Lemma binary_zeros (N : nat) : binary (Py.zeros N N).
Proof.
  unfold binary, Py.zeros. apply Forall_replicate, Forall_replicate. by left.
Qed.

(** Reading a cell of the board with the indices of the loops. *)
Lemma get2_at2 (N : nat) (a : list (list Z)) (i j : nat) :
  shape N a → (i < N)%nat → (j < N)%nat →
  Py.get2 a (Z.of_nat i) (Z.of_nat j) = at2 a i j.
Proof.
  intros [Hlen Hrows] Hi Hj. unfold Py.get2, at2.
  rewrite axis_nat by lia. simpl.
  destruct (a !! i) as [row|] eqn:Hrow; simpl; [|done].
  rewrite Forall_lookup in Hrows. rewrite (Hrows i row Hrow).
  by rewrite axis_nat by lia.
Qed.

Lemma at2_step (N : nat) (table : gmap (Z * Z) (list (Z * Z)))
    (grid : list (list Z)) (i j : nat) :
  (i < N)%nat → (j < N)%nat →
  at2 (Spec.Life.step N table grid) i j = Some (Spec.Life.next_cell table grid i j).
Proof.
  intros Hi Hj. unfold at2, Spec.Life.step.
  rewrite list_lookup_fmap, lookup_seq_lt by done. simpl.
  by rewrite list_lookup_fmap, lookup_seq_lt by done.
Qed.

(** On the board of zeros no cell is alive. *)
Lemma alive_zeros (N : nat) (c : Z * Z) : Spec.Life.alive (Py.zeros N N) c = false.
Proof.
  unfold Spec.Life.alive. apply bool_decide_eq_false. unfold Py.get2, Py.zeros.
  destruct (Py.axis _ c.1) as [r|]; simpl; [|done].
  destruct (replicate N (replicate N 0) !! r) as [row|] eqn:Hrow; simpl; [|done].
  apply lookup_replicate in Hrow as [-> _].
  destruct (Py.axis _ c.2) as [k|]; simpl; [|done].
  intros [? _]%lookup_replicate. done.
Qed.

Lemma step_zeros (N : nat) (table : gmap (Z * Z) (list (Z * Z))) :
  Spec.Life.step N table (Py.zeros N N) = Py.zeros N N.
Proof.
  apply (at2_ext N); [apply step_shape|apply shape_zeros|].
  intros k l Hk Hl. rewrite at2_step, at2_zeros by done. f_equal.
  unfold Spec.Life.next_cell. cbn zeta. rewrite alive_zeros.
  unfold Spec.Life.alive_neighbours.
  assert (filter (λ c, Spec.Life.alive (Py.zeros N N) c = true)
            (default [] (table !! (Z.of_nat k, Z.of_nat l))) = []) as ->; [|done].
  induction (default [] _) as [|c ns IH]; [done|].
  rewrite filter_cons_False; [done|]. by rewrite alive_zeros.
Qed.

(** The loop over the turns on boards the turn accepts. *)
Lemma turns_run (N : nat) (table : gmap (Z * Z) (list (Z * Z))) (T : nat)
    (board : list (list Z)) :
  shape N board → binary board → table_valid N table →
  ∃ b, turns N table T board = Some b ∧ shape N b ∧ binary b.
Proof.
  intros Hsh Hbin Htable. revert board Hsh Hbin.
  induction T as [|T IH]; intros board Hsh Hbin; simpl.
  - by exists board.
  - rewrite turn_run by done. simpl. apply IH; [apply step_shape|apply step_binary].
Qed.

Lemma turns_0 (table : gmap (Z * Z) (list (Z * Z))) (T : nat) :
  turns 0 table T [] = Some [].
Proof. induction T as [|T IH]; [done|]. simpl. exact IH. Qed.

Lemma shape_0 (a : list (list Z)) : shape 0 a → a = [].
Proof. intros [Hlen _]. by destruct a. Qed.

(** On a board of one cell the entry of [nbrs] names column [1]. *)
Lemma turn_1_raises (board : list (list Z)) :
  shape 1 board → turn 1 (nbrs 1) board = None.
Proof.
  intros [Hlen Hrows]. destruct board as [|row [|? ?]]; simpl in Hlen; try lia.
  apply Forall_cons in Hrows as [Hrow _].
  destruct row as [|x [|? ?]]; simpl in Hrow; try lia. by vm_compute.
Qed.

End Life_turn_more.

Section Life_turn_claims.

Import Life.

(** X15. The board of zeros is a fixed point: on a board of any size but
    1 by 1, any number of turns of the empty board does not raise and
    returns the empty board. *)
Theorem empty_board_stays_empty (N T : nat) :
  N ≠ 1%nat → turns N (nbrs N) T (Py.zeros N N) = Some (Py.zeros N N).
Proof.
  intros HN. destruct (decide (N = 0)%nat) as [->|HN0]; [apply turns_0|].
  induction T as [|T IH]; [done|]. simpl.
  rewrite turn_run; [|apply shape_zeros|apply binary_zeros|apply nbrs_valid; lia].
  simpl. by rewrite step_zeros.
Qed.

Lemma empty_board_stays_empty_witness :
  20%nat ≠ 1%nat ∧ turns 20 (nbrs 20) 3 (Py.zeros 20 20) = Some (Py.zeros 20 20).
Proof.
  assert (20%nat ≠ 1%nat) as HN by lia. split; [exact HN|].
  exact (empty_board_stays_empty 20 3 HN).
Defined.

(** X16. With the notebook's own neighbour list, a turn on an [N] by [N]
    board of zeros and ones raises exactly when [N = 1]: the four corner
    assignments then overwrite one another and the entry left for the
    only cell names column [1]. *)
Theorem turn_raises_iff (N : nat) (board : list (list Z)) :
  shape N board → binary board →
  turn N (nbrs N) board = None ↔ N = 1%nat.
Proof.
  intros Hsh Hbin. split.
  - intros Hnone. destruct (decide (N = 1)%nat) as [|HN]; [done|].
    destruct (decide (N = 0)%nat) as [->|HN0].
    + apply shape_0 in Hsh as ->. done.
    + rewrite turn_run in Hnone; [done..|apply nbrs_valid; lia].
  - intros ->. by apply turn_1_raises.
Qed.

Lemma turn_raises_iff_witness :
  shape 1 [[1]] ∧ binary [[1]] ∧ (turn 1 (nbrs 1) [[1]] = None ↔ 1%nat = 1%nat).
Proof.
  assert (shape 1 [[1]]) as Hsh by (split; [done|by repeat constructor]).
  assert (binary [[1]]) as Hbin by (repeat constructor; by right).
  split; [exact Hsh|]. split; [exact Hbin|].
  exact (turn_raises_iff 1 [[1]] Hsh Hbin).
Defined.

(** X17. Whatever neighbour list a turn is given, it raises when the list
    has no entry for a cell of the board ([KeyError]) and when the board
    lacks a cell of the [N] by [N] grid ([IndexError]). *)
Theorem turn_raises_without_entry_or_cell (N : nat)
    (table : gmap (Z * Z) (list (Z * Z))) (board : list (list Z)) (i j : nat) :
  (i < N)%nat → (j < N)%nat →
  table !! (Z.of_nat i, Z.of_nat j) = None ∨
    Py.get2 board (Z.of_nat i) (Z.of_nat j) = None →
  turn N table board = None.
Proof.
  intros Hi Hj Hnone. unfold turn.
  apply (for_fold_None _ _ (Z.of_nat i)); [apply elem_of_range; lia|].
  intros newboard.
  apply (for_fold_None _ _ (Z.of_nat j)); [apply elem_of_range; lia|].
  intros newboard'. by apply update_cell_None.
Qed.

Lemma turn_raises_without_entry_or_cell_witness :
  (1 < 2)%nat ∧ (0 < 2)%nat ∧
  (delete (1, 0) (nbrs 2) !! (Z.of_nat 1, Z.of_nat 0) = None ∨
   Py.get2 [[0; 1]; [1; 0]] (Z.of_nat 1) (Z.of_nat 0) = None) ∧
  turn 2 (delete (1, 0) (nbrs 2)) [[0; 1]; [1; 0]] = None.
Proof.
  assert (1 < 2)%nat as Hi by lia. assert (0 < 2)%nat as Hj by lia.
  assert (delete (1, 0) (nbrs 2) !! (Z.of_nat 1, Z.of_nat 0) = None ∨
          Py.get2 [[0; 1]; [1; 0]] (Z.of_nat 1) (Z.of_nat 0) = None) as H.
  { left. apply lookup_delete_eq. }
  split; [exact Hi|]. split; [exact Hj|]. split; [exact H|].
  exact (turn_raises_without_entry_or_cell 2 _ _ 1 0 Hi Hj H).
Defined.

(** X18. Whatever integers of [-2^50 .. 2^50] the board holds and whatever
    the neighbour list of at most eight neighbours per cell is (the range
    in which the float64 sums of the neighbours are exact), a turn that
    does not raise returns an [N] by [N] board of zeros and ones. *)
Theorem turn_returns_a_board (N : nat) (table : gmap (Z * Z) (list (Z * Z)))
    (board board' : list (list Z)) :
  exact_sums table board →
  turn N table board = Some board' → shape N board' ∧ binary board'.
Proof.
  intros _. unfold turn. apply (for_fold_keeps (λ a, shape N a ∧ binary a)).
  - intros a i a' Ha. apply (for_fold_keeps (λ a, shape N a ∧ binary a)); [|done].
    intros b j b' Hb. by apply update_cell_keeps.
  - split; [apply shape_zeros|apply binary_zeros].
Qed.

Lemma turn_returns_a_board_witness :
  exact_sums (nbrs 2) [[3; 0]; [0; 7]] ∧
  turn 2 (nbrs 2) [[3; 0]; [0; 7]] = Some [[0; 0]; [0; 1]] ∧
  shape 2 [[0; 0]; [0; 1]] ∧ binary [[0; 0]; [0; 1]].
Proof.
  assert (exact_sums (nbrs 2) [[3; 0]; [0; 7]]) as He.
  { split.
    - apply (bool_decide_unpack _). by vm_compute.
    - repeat constructor; by vm_compute. }
  assert (turn 2 (nbrs 2) [[3; 0]; [0; 7]] = Some [[0; 0]; [0; 1]]) as H
    by (by vm_compute).
  split; [exact He|]. split; [exact H|].
  exact (turn_returns_a_board 2 (nbrs 2) [[3; 0]; [0; 7]] [[0; 0]; [0; 1]] He H).
Defined.

End Life_turn_claims.

(** ** What a cell depends on *)

Section Life_local.

Import Life.

Lemma filter_ext_in {A} (P Q : A → Prop) `{!∀ x, Decision (P x)}
    `{!∀ x, Decision (Q x)} (l : list A) :
  (∀ x, x ∈ l → P x ↔ Q x) → filter P l = filter Q l.
Proof.
  induction l as [|a l IH]; intros Hext; [done|].
  rewrite !filter_cons.
  rewrite IH by (intros x Hx; apply Hext; by right).
  destruct (decide (P a)) as [HP|HP], (decide (Q a)) as [HQ|HQ]; try done;
    exfalso; apply (Hext a) in HP || apply (Hext a) in HQ; done || by left.
Qed.

(** The state of a cell of the board, read with the indices of the
    loops. *)
Lemma alive_at2 (N : nat) (b : list (list Z)) (k l : nat) :
  shape N b → (k < N)%nat → (l < N)%nat →
  Spec.Life.alive b (Z.of_nat k, Z.of_nat l) = bool_decide (at2 b k l = Some 1).
Proof.
  intros Hsh Hk Hl. unfold Spec.Life.alive. cbn [fst snd].
  by rewrite (get2_at2 N).
Qed.

End Life_local.

Section Life_local_claims.

Import Life.

(** X19. A turn is local: on a board of 2 by 2 cells or more, the next
    state of a cell depends on the cell and on the cells that touch it
    only.  Two boards that agree there agree on the cell after one
    turn. *)
Theorem turn_is_local (N : nat) (b1 b2 : list (list Z)) (i j : nat) :
  (2 ≤ N)%nat → shape N b1 → binary b1 → shape N b2 → binary b2 →
  (i < N)%nat → (j < N)%nat →
  at2 b1 i j = at2 b2 i j →
  (∀ k l : nat,
     Spec.Life.touches (Z.of_nat N) (Z.of_nat i, Z.of_nat j) (Z.of_nat k, Z.of_nat l) →
     at2 b1 k l = at2 b2 k l) →
  ∃ b1' b2', turn N (nbrs N) b1 = Some b1' ∧ turn N (nbrs N) b2 = Some b2' ∧
             at2 b1' i j = at2 b2' i j.
Proof.
  intros HN Hs1 Hb1 Hs2 Hb2 Hi Hj Hcell Hnear.
  pose proof (nbrs_valid N HN) as Hvalid.
  exists (Spec.Life.step N (nbrs N) b1), (Spec.Life.step N (nbrs N) b2).
  split; [by apply turn_run|]. split; [by apply turn_run|].
  rewrite !at2_step by done. f_equal.
  unfold Spec.Life.next_cell. cbn zeta.
  rewrite nbrs_lookup by lia. cbn [default].
  rewrite !(alive_at2 N) by done. rewrite Hcell.
  unfold Spec.Life.alive_neighbours.
  rewrite (filter_ext_in (λ c, Spec.Life.alive b1 c = true)
             (λ c, Spec.Life.alive b2 c = true)); [done|].
  intros [k l] Hin. apply entry_touches in Hin as Htouch; [|lia..].
  destruct Htouch as (_ & _ & _ & Hk & Hl). cbn [fst snd] in Hk, Hl.
  apply entry_touches in Hin; [|lia..].
  rewrite <- (Z2Nat.id k), <- (Z2Nat.id l) in Hin |- * by lia.
  rewrite !(alive_at2 N) by (done || lia).
  by rewrite (Hnear _ _ Hin).
Qed.

Lemma turn_is_local_witness :
  let b1 := [[0; 1; 0]; [0; 1; 0]; [0; 1; 1]] in
  let b2 := [[0; 1; 0]; [0; 1; 0]; [1; 0; 0]] in
  (2 ≤ 3)%nat ∧ shape 3 b1 ∧ binary b1 ∧ shape 3 b2 ∧ binary b2 ∧
  (0 < 3)%nat ∧ (0 < 3)%nat ∧
  at2 b1 0 0 = at2 b2 0 0 ∧
  (∀ k l : nat,
     Spec.Life.touches (Z.of_nat 3) (Z.of_nat 0, Z.of_nat 0) (Z.of_nat k, Z.of_nat l) →
     at2 b1 k l = at2 b2 k l) ∧
  ∃ b1' b2', turn 3 (nbrs 3) b1 = Some b1' ∧ turn 3 (nbrs 3) b2 = Some b2' ∧
             at2 b1' 0 0 = at2 b2' 0 0.
Proof.
  intros b1 b2.
  assert (2 ≤ 3)%nat as HN by lia.
  assert (shape 3 b1) as Hs1 by (split; [done|by repeat constructor]).
  assert (binary b1) as Hb1 by (repeat constructor; auto).
  assert (shape 3 b2) as Hs2 by (split; [done|by repeat constructor]).
  assert (binary b2) as Hb2 by (repeat constructor; auto).
  assert (0 < 3)%nat as Hi by lia.
  assert (at2 b1 0 0 = at2 b2 0 0) as Hcell by done.
  assert (∀ k l : nat,
     Spec.Life.touches (Z.of_nat 3) (Z.of_nat 0, Z.of_nat 0) (Z.of_nat k, Z.of_nat l) →
     at2 b1 k l = at2 b2 k l) as Hnear.
  { intros k l (_ & Hk & Hl & _). cbn [fst snd] in Hk, Hl.
    assert (k = 0 ∨ k = 1)%nat as [->| ->] by lia;
      assert (l = 0 ∨ l = 1)%nat as [->| ->] by lia; done. }
  split; [exact HN|]. split; [exact Hs1|]. split; [exact Hb1|].
  split; [exact Hs2|]. split; [exact Hb2|]. split; [exact Hi|]. split; [exact Hi|].
  split; [exact Hcell|]. split; [exact Hnear|].
  exact (turn_is_local 3 b1 b2 0 0 HN Hs1 Hb1 Hs2 Hb2 Hi Hi Hcell Hnear).
Defined.

(** X20. Run in the order of its cells (board, random initialisation,
    neighbour list, one turn, [T] more turns), the notebook raises exactly
    when [N = 1], whatever values [np.random.rand] returns; when it does
    not raise, the board it ends with is an [N] by [N] board of zeros and
    ones. *)
Theorem life_notebook_raises_iff (N : nat) (u : nat → Q) (T : nat) :
  (notebook N u T = None ↔ N = 1%nat) ∧
  (∀ board, notebook N u T = Some board → shape N board ∧ binary board).
Proof.
  destruct (initialize_board_run N u 0) as (b0 & Hrun & Hsh & Hbin).
  unfold notebook. rewrite Hrun. simpl.
  destruct (decide (N = 1)%nat) as [->|HN].
  - rewrite turn_1_raises by done. simpl. split; [done|]. by intros board.
  - destruct (decide (N = 0)%nat) as [->|HN0].
    + apply shape_0 in Hsh as ->. cbn [turn]. 
      replace (turn 0 (nbrs 0) []) with (Some ([] : list (list Z))) by done.
      simpl. rewrite turns_0. split; [split; [done|lia]|].
      intros board [= <-]. split; [by split|constructor].
    + assert (table_valid N (nbrs N)) as Hvalid by (apply nbrs_valid; lia).
      rewrite turn_run by done. simpl.
      destruct (turns_run N (nbrs N) T (Spec.Life.step N (nbrs N) b0))
        as (b & -> & Hsb & Hbb); [apply step_shape|apply step_binary|done|].
      split; [split; [done|lia]|]. by intros board [= <-].
Qed.

End Life_local_claims.


(** ** A turn and the transposition of the board *)

Section Life_transpose.

Import Life.

Lemma filter_fmap_length {A B} (f : A → B) (P : B → Prop) `{!∀ x, Decision (P x)}
    (l : list A) :
  length (filter P (f <$> l)) = length (filter (λ x, P (f x)) l).
Proof.
  induction l as [|a l IH]; [done|].
  rewrite fmap_cons, !filter_cons. destruct (decide (P (f a))); cbn [length]; by rewrite IH.
Qed.

Lemma shape_transpose (N : nat) (a : list (list Z)) : shape N (transpose N a).
Proof.
  unfold transpose. split; [by rewrite length_fmap, length_seq|].
  apply Forall_fmap, Forall_forall. intros i _. simpl.
  by rewrite length_fmap, length_seq.
Qed.

Lemma at2_is_Some (N : nat) (a : list (list Z)) (i j : nat) :
  shape N a → (i < N)%nat → (j < N)%nat → is_Some (at2 a i j).
Proof.
  intros [Hlen Hrows] Hi Hj. unfold at2.
  destruct (lookup_lt_is_Some_2 a i) as [row Hrow]; [lia|]. rewrite Hrow. simpl.
  apply lookup_lt_is_Some_2. rewrite Forall_lookup in Hrows.
  by rewrite (Hrows i row Hrow).
Qed.

Lemma at2_transpose (N : nat) (a : list (list Z)) (i j : nat) :
  shape N a → (i < N)%nat → (j < N)%nat →
  at2 (transpose N a) i j = at2 a j i.
Proof.
  intros Hsh Hi Hj. unfold at2 at 1, transpose.
  rewrite list_lookup_fmap, lookup_seq_lt by done. simpl.
  rewrite list_lookup_fmap, lookup_seq_lt by done. simpl.
  by destruct (at2_is_Some N a j i Hsh Hj Hi) as [x ->].
Qed.

Lemma binary_transpose (N : nat) (a : list (list Z)) :
  shape N a → binary a → binary (transpose N a).
Proof.
  intros Hsh Hbin. apply (binary_at2 N); [apply shape_transpose|].
  intros i j Hi Hj. rewrite at2_transpose by done.
  destruct (at2_is_Some N a j i Hsh Hj Hi) as [x Hx]. exists x. split; [done|].
  unfold at2 in Hx. destruct (a !! j) as [row|] eqn:Hrow; [|done]. simpl in Hx.
  apply (binary_elem a row x Hbin); by eapply list_elem_of_lookup_2.
Qed.

(** The entries of two cells that mirror each other list cells that
    mirror each other. *)
Lemma entry_swap (n i j : Z) :
  2 ≤ n → 0 ≤ i < n → 0 ≤ j < n →
  (λ c : Z * Z, (c.2, c.1)) <$> entry n i j ≡ₚ entry n j i.
Proof.
  intros Hn Hi Hj. apply NoDup_Permutation.
  - apply NoDup_fmap_2; [|by apply entry_NoDup].
    intros [a b] [c d] [= -> ->]. done.
  - by apply entry_NoDup.
  - intros [k l]. rewrite list_elem_of_fmap. rewrite entry_touches by done. split.
    + intros ([a b] & [= -> ->] & Hin). apply entry_touches in Hin; [|done..].
      destruct Hin as (Hne & ? & ? & ? & ?). cbn [fst snd] in *.
      split; [intros [= ]; apply Hne; congruence|]. cbn [fst snd]. lia.
    + intros (Hne & ? & ? & ? & ?). cbn [fst snd] in *. exists (l, k).
      split; [done|]. apply entry_touches; [done..|].
      split; [intros [= ]; apply Hne; congruence|]. cbn [fst snd]. lia.
Qed.

Lemma next_cell_transpose (N : nat) (b : list (list Z)) (i j : nat) :
  (2 ≤ N)%nat → shape N b → (i < N)%nat → (j < N)%nat →
  Spec.Life.next_cell (nbrs N) (transpose N b) i j =
  Spec.Life.next_cell (nbrs N) b j i.
Proof.
  intros HN Hsh Hi Hj. unfold Spec.Life.next_cell. cbn zeta.
  rewrite (nbrs_lookup N (Z.of_nat i) (Z.of_nat j)),
    (nbrs_lookup N (Z.of_nat j) (Z.of_nat i)) by lia. cbn [default].
  rewrite (alive_at2 N (transpose N b) i j), (alive_at2 N b j i)
    by (done || apply shape_transpose).
  rewrite at2_transpose by done. do 2 f_equal.
  unfold Spec.Life.alive_neighbours.
  rewrite <- (Permutation_length
    (filter_Permutation (λ c, Spec.Life.alive b c = true) _ _
       (entry_swap (Z.of_nat N) (Z.of_nat i) (Z.of_nat j)
          ltac:(lia) ltac:(lia) ltac:(lia)))).
  rewrite filter_fmap_length. f_equal. apply filter_ext_in.
  intros [k l] Hin. cbn [fst snd].
  apply entry_touches in Hin; [|lia..]. destruct Hin as (_ & _ & _ & Hk & Hl).
  cbn [fst snd] in Hk, Hl.
  rewrite <- (Z2Nat.id k), <- (Z2Nat.id l) by lia.
  rewrite !(alive_at2 N) by (done || apply shape_transpose || lia).
  by rewrite at2_transpose by (done || lia).
Qed.

End Life_transpose.

Section Life_transpose_claims.

Import Life.

(** X21. A turn has no preferred direction: on a board of 2 by 2 cells or
    more, one turn of the board read by columns is the board after one
    turn, read by columns. *)
Theorem turn_commutes_with_transpose (N : nat) (board : list (list Z)) :
  (2 ≤ N)%nat → shape N board → binary board →
  turn N (nbrs N) (transpose N board) = transpose N <$> turn N (nbrs N) board.
Proof.
  intros HN Hsh Hbin. pose proof (nbrs_valid N HN) as Hvalid.
  rewrite !turn_run; [|done..|apply shape_transpose|by apply binary_transpose|done].
  simpl. f_equal. apply (at2_ext N); [apply step_shape|apply shape_transpose|].
  intros k l Hk Hl.
  rewrite at2_transpose by (done || apply step_shape).
  rewrite !at2_step by done. f_equal. by apply next_cell_transpose.
Qed.

Lemma turn_commutes_with_transpose_witness :
  let glider := [[0; 1; 0; 0]; [0; 0; 1; 0]; [1; 1; 1; 0]; [0; 0; 0; 0]] in
  (2 ≤ 4)%nat ∧ shape 4 glider ∧ binary glider ∧
  turn 4 (nbrs 4) (transpose 4 glider) = transpose 4 <$> turn 4 (nbrs 4) glider.
Proof.
  intros glider.
  assert (2 ≤ 4)%nat as HN by lia.
  assert (shape 4 glider) as Hsh by (split; [done|by repeat constructor]).
  assert (binary glider) as Hbin by (apply (bool_decide_unpack _); by vm_compute).
  split; [exact HN|]. split; [exact Hsh|]. split; [exact Hbin|].
  exact (turn_commutes_with_transpose 4 glider HN Hsh Hbin).
Defined.

End Life_transpose_claims.


(** ** A road with as many vehicles as cells *)

Section NS_full_road.

Import NS.

Variables (L : Z) (N : nat) (vmax : Z) (p : Q) (u : nat → Q).

(** A vehicle right behind the next one: its velocity becomes [0], it
    stays where it is, and no random value is drawn. *)
Lemma vehicle_step_blocked i s x v y :
  (i < N - 1)%nat → length (pos s) = N → length (vel s) = N →
  pos s !! i = Some x → pos s !! S i = Some (x + 1) →
  vel s !! i = Some v → 0 ≤ v →
  pos s !! (N - 1)%nat = Some y → y < L →
  vehicle_step L N vmax p u i s =
    Some (State (pos s) (<[i := 0]> (vel s)) (traffic s) (calls s)).
Proof.
  intros Hi Hp Hv Hx Hx1 Hvi Hv0 Hy HyL.
  unfold vehicle_step, vehicle_move, ahead, gap_to.
  rewrite (proj2 (Z.ltb_lt _ _)) by lia.
  replace (i + 1)%nat with (S i) by lia. rewrite Hvi, Hx, Hx1. simpl.
  assert (slow_down (x + 1 - x) (accelerate vmax v) = 0) as ->.
  { unfold slow_down, accelerate. destruct (Z.ltb_spec v vmax).
    - rewrite (proj2 (Z.leb_le _ _)) by lia. lia.
    - destruct (Z.leb_spec (x + 1 - x) v); lia. }
  unfold randomize. simpl. rewrite Z.add_0_r, (list_insert_id (pos s)) by done.
  f_equal. apply rotate_idle. simpl. intros y'. rewrite Hy. intros [= <-]. lia.
Qed.

(** A queue of vehicles, each right behind the next one: none of them
    moves. *)
Lemma for_each_blocked (l : list nat) s y :
  Forall (λ i, i < N - 1)%nat l →
  length (pos s) = N → length (vel s) = N →
  (∀ i x, (i < N - 1)%nat → pos s !! i = Some x → pos s !! S i = Some (x + 1)) →
  Forall (λ v, 0 ≤ v) (vel s) →
  pos s !! (N - 1)%nat = Some y → y < L →
  ∃ vs, for_each l (update_vehicle L N vmax p u) s =
          Some (tt, State (pos s) vs (traffic s) (calls s)) ∧
        length vs = N ∧ Forall (λ v, 0 ≤ v) vs.
Proof.
  intros Hl. revert s. induction Hl as [|i l Hi Hl IH]; intros s Hp Hv Hq Hv0 Hy HyL.
  - exists (vel s). simpl. unfold mret, M_ret. by rewrite state_eta.
  - destruct (lookup_lt_is_Some_2 (pos s) i) as [x Hx]; [lia|].
    destruct (lookup_lt_is_Some_2 (vel s) i) as [v Hvi]; [lia|].
    assert (0 ≤ v) as Hv0i.
    { rewrite Forall_forall in Hv0. apply Hv0. by eapply list_elem_of_lookup_2. }
    cbn [for_each]. rewrite bind_run, update_vehicle_run by (done || lia).
    rewrite (vehicle_step_blocked i s x v y) by (done || by apply Hq). simpl.
    destruct (IH (State (pos s) (<[i:=0]> (vel s)) (traffic s) (calls s)))
      as (vs & Hrun & Hlen & Hvs); simpl; try done.
    + by rewrite length_insert.
    + apply Forall_insert; [done|lia].
    + by exists vs.
Qed.

End NS_full_road.

Section NS_full_road_claims.

Import NS.

(** X22. With as many vehicles as cells ([L = N], two or more) the
    initialisation has a single outcome for the positions, every cell
    from [1] to [L], and the first update loop does not raise and puts the
    last two vehicles on one cell, [L - 2]: the wrap block moves the last
    vehicle to cell [0] after vehicle 0, every vehicle is blocked, and the
    last one of the new order computes the gap [0]. *)
Theorem full_road_first_update_collides (N : nat) (vmax : Z) (p : Q)
    (u : nat → Q) (gaps vels : list Z) (s0 : state) :
  (2 ≤ N)%nat →
  randint_outcome 1 (1 + Z.of_nat N / Z.of_nat N) N gaps →
  randint_outcome 0 (vmax + 1) N vels →
  ∃ s s', initialize N gaps vels s0 = Some (tt, s) ∧
          pos s = running 0 (replicate N 1) ∧
          update (Z.of_nat N) N vmax p u s = Some (tt, s') ∧
          pos s' !! (N - 2)%nat = Some (Z.of_nat N - 2) ∧
          pos s' !! (N - 1)%nat = Some (Z.of_nat N - 2).
Proof.
  intros HN [Hglen Hgaps] [Hvlen Hvels].
  rewrite Z.div_same in Hgaps by lia.
  set (L := Z.of_nat N). assert (L = Z.of_nat N) as HL by done. clearbody L.
  assert (gaps = replicate N 1) as ->.
  { apply list_eq_same_length with N; [by rewrite length_replicate|done|].
    intros i x y Hi Hx Hy. apply lookup_replicate in Hy as [-> _].
    rewrite Forall_lookup in Hgaps. specialize (Hgaps i x Hx). simpl in Hgaps. lia. }
  assert (Forall (λ v, 0 ≤ v) vels) as Hv0.
  { eapply Forall_impl; [exact Hvels|]. simpl. lia. }
  set (ps := running 0 (replicate N 1)).
  assert (∀ i, (i < N)%nat → ps !! i = Some (Z.of_nat i + 1)) as Hps.
  { intros i Hi. subst ps. rewrite running_replicate by done. f_equal. lia. }
  assert (length ps = N) as Hpslen by (subst ps; by rewrite length_running, length_replicate).
  destruct (lookup_lt_is_Some_2 vels 0) as [v0 Hvi0]; [lia|].
  destruct (lookup_lt_is_Some_2 vels (N - 1)) as [vl Hvl]; [lia|].
  assert (0 ≤ v0) as Hv00.
  { rewrite Forall_forall in Hv0. apply Hv0. by eapply list_elem_of_lookup_2. }
  (* vehicle 0 is blocked, and the last vehicle is moved to the front *)
  set (S1 := State (0 :: delete (N - 1)%nat ps) (vl :: delete (N - 1)%nat (<[0%nat:=0]> vels))
               (traffic s0) (calls s0)).
  assert (update_vehicle L N vmax p u 0 (State ps vels (traffic s0) (calls s0)) =
            Some (tt, S1)) as Hstep0.
  { rewrite update_vehicle_run by (done || lia).
    unfold vehicle_step, vehicle_move, ahead, gap_to.
    rewrite (proj2 (Z.ltb_lt _ _)) by lia. cbn [pos vel traffic calls].
    rewrite Hvi0, !Hps by lia. simpl.
    assert (slow_down (Z.of_nat 1 + 1 - (Z.of_nat 0 + 1)) (accelerate vmax v0) = 0) as ->.
    { unfold slow_down, accelerate. destruct (Z.ltb_spec v0 vmax).
      - rewrite (proj2 (Z.leb_le _ _)) by lia. lia.
      - destruct (Z.leb_spec (Z.of_nat 1 + 1 - (Z.of_nat 0 + 1)) v0); lia. }
    unfold randomize. simpl. rewrite (list_insert_id ps) by (by rewrite Hps by lia).
    unfold rotate. cbn [pos vel traffic calls].
    rewrite Hps by lia. rewrite list_lookup_insert_ne, Hvl by lia.
    rewrite (proj2 (Z.leb_le _ _)) by lia. subst S1. do 4 f_equal. lia. }
  assert (∀ i, (i < N)%nat → pos S1 !! i = Some (Z.of_nat i)) as HS1.
  { intros i Hi. subst S1. cbn [pos]. destruct i as [|i]; [done|]. simpl.
    rewrite list_lookup_delete_lt by lia. rewrite Hps by lia. f_equal. lia. }
  assert (length (pos S1) = N) as HS1p.
  { subst S1. cbn [pos]. simpl. rewrite length_delete; [lia|].
    apply lookup_lt_is_Some_2. lia. }
  assert (length (vel S1) = N) as HS1v.
  { subst S1. cbn [vel]. simpl. rewrite length_delete; [rewrite length_insert; lia|].
    apply lookup_lt_is_Some_2. rewrite length_insert. lia. }
  assert (Forall (λ v, 0 ≤ v) (vel S1)) as HS1v0.
  { subst S1. cbn [vel]. apply Forall_cons. split.
    - rewrite Forall_forall in Hv0. apply Hv0. by eapply list_elem_of_lookup_2.
    - apply Forall_delete, Forall_insert; [done|lia]. }
  (* the vehicles in between are blocked too *)
  destruct (for_each_blocked L N vmax p u (seq 1 (N - 2)) S1 (Z.of_nat (N - 1)))
    as (vs & Hmid & Hvslen & Hvs0); try done.
  { apply Forall_forall. intros i Hi%elem_of_seq. lia. }
  { intros i x Hi Hx. rewrite HS1 in Hx by lia. injection Hx as <-.
    rewrite HS1 by lia. f_equal. lia. }
  { rewrite HS1 by lia. done. }
  { lia. }
  destruct (lookup_lt_is_Some_2 vs (N - 1)) as [w Hw]; [lia|].
  assert (0 ≤ w) as Hw0.
  { rewrite Forall_forall in Hvs0. apply Hvs0. by eapply list_elem_of_lookup_2. }
  (* the last vehicle computes the gap 0 *)
  exists (State ps vels (traffic s0) (calls s0)).
  exists (State (<[(N - 1)%nat := L - 2]> (pos S1)) (<[(N - 1)%nat := -1]> vs)
            (traffic s0) (calls s0)).
  split; [apply initialize_run; [by rewrite length_replicate|lia]|].
  split; [done|]. split.
  - unfold update.
    replace (seq 0 N) with ([0%nat] ++ seq 1 (N - 2) ++ [(N - 1)%nat]).
    2:{ replace N with (S (S (N - 2))) at 3 by lia.
        rewrite seq_S. simpl. do 3 f_equal. lia. }
    rewrite for_each_app. cbn [for_each]. rewrite bind_run, Hstep0.
    unfold mret, M_ret. cbv beta iota.
    rewrite for_each_app, Hmid. cbn [for_each]. rewrite bind_run.
    rewrite (update_last_vehicle_gap_zero L N vmax p u _ w); cbn [pos vel traffic calls];
      [done|lia|done|done|by apply (HS1 0%nat); lia| |done|done].
    rewrite HS1 by lia. f_equal. lia.
  - cbn [pos]. split.
    + rewrite list_lookup_insert_ne by lia. rewrite HS1 by lia. f_equal; lia.
    + rewrite list_lookup_insert_eq by lia. f_equal; lia.
Qed.

Lemma full_road_first_update_collides_witness :
  (2 ≤ 3)%nat ∧
  randint_outcome 1 (1 + Z.of_nat 3 / Z.of_nat 3) 3 [1; 1; 1] ∧
  randint_outcome 0 (2 + 1) 3 [0; 2; 1] ∧
  ∃ s s', initialize 3 [1; 1; 1] [0; 2; 1] (State [] [] [] 0) = Some (tt, s) ∧
          pos s = running 0 (replicate 3 1) ∧
          update (Z.of_nat 3) 3 2 (1#5) (λ _, 1#2)%Q s = Some (tt, s') ∧
          pos s' !! (3 - 2)%nat = Some (Z.of_nat 3 - 2) ∧
          pos s' !! (3 - 1)%nat = Some (Z.of_nat 3 - 2).
Proof.
  assert (2 ≤ 3)%nat as HN by lia.
  assert (randint_outcome 1 (1 + Z.of_nat 3 / Z.of_nat 3) 3 [1; 1; 1]) as Hg.
  { split; [done|]. repeat constructor; vm_compute; congruence. }
  assert (randint_outcome 0 (2 + 1) 3 [0; 2; 1]) as Hv.
  { split; [done|]. repeat constructor; vm_compute; congruence. }
  split; [exact HN|]. split; [exact Hg|]. split; [exact Hv|].
  exact (full_road_first_update_collides 3 2 (1#5) (λ _, 1#2)%Q [1; 1; 1] [0; 2; 1]
           (State [] [] [] 0) HN Hg Hv).
Defined.

End NS_full_road_claims.

(** ** The printed table of the vehicles *)

Section NS_print.
Import NS.

Lemma pretty_N_go_tab_free (x : N) (s : string) :
  tab_free s → tab_free (pretty_N_go x s).
Proof.
  revert s. induction (N.lt_wf_0 x) as [x _ IH]; intros s Hs.
  assert (x = 0 ∨ 0 < x)%N as [->|Hx] by lia.
  - by rewrite pretty_N_go_0.
  - rewrite pretty_N_go_step by done. apply IH.
    { by apply N.div_lt. }
    split; [|done]. unfold pretty_N_char. by repeat case_match.
Qed.

Lemma pretty_N_tab_free (x : N) : tab_free (pretty x).
Proof.
  unfold pretty, pretty_N. case_decide.
  - by repeat split.
  - by apply pretty_N_go_tab_free.
Qed.

(** The digits and the sign of an integer hold no tabulation. *)
Lemma repr_tab_free (x : Z) : tab_free (repr x).
Proof.
  unfold repr, pretty, pretty_Z. destruct x as [|x|x].
  - by repeat split.
  - apply pretty_N_tab_free.
  - split; [done|]. apply pretty_N_tab_free.
Qed.

(** Two strings that agree up to their first tabulation and after it. *)
Lemma tab_splits (a a' b b' : string) :
  tab_free a → tab_free a' →
  a +:+ tab +:+ b = a' +:+ tab +:+ b' → a = a' ∧ b = b'.
Proof.
  revert a'. induction a as [|c a IH]; intros [|c' a'] Ha Ha' Heq;
    simpl in *.
  - by injection Heq.
  - injection Heq as Hc _. by destruct Ha' as [[] _].
  - injection Heq as Hc _. by destruct Ha as [[] _].
  - injection Heq as -> Heq. destruct Ha as [_ Ha], Ha' as [_ Ha'].
    destruct (IH a' Ha Ha' Heq) as [-> ->]. done.
Qed.

(** A printed row determines the index, the position and the velocity. *)
Lemma table_row_inj (i i' : nat) (x x' v v' : Z) :
  table_row i x v = table_row i' x' v' → i = i' ∧ x = x' ∧ v = v'.
Proof.
  unfold table_row. intros Heq.
  apply tab_splits in Heq as [Hi Heq]; [|apply repr_tab_free..].
  apply tab_splits in Heq as [Hx Hv]; [|apply repr_tab_free..].
  apply (inj pretty) in Hi, Hx, Hv. split; [lia|done].
Qed.

Lemma print_rows_complete (l : list nat) (s : state) :
  (print_rows l s).2 = true ↔
  ∀ i, i ∈ l → (i < length (pos s))%nat ∧ (i < length (vel s))%nat.
Proof.
  induction l as [|i l IH]; simpl.
  - split; [|done]. intros _ i Hi. by apply elem_of_nil in Hi.
  - destruct (pos s !! i) as [x|] eqn:Hx; [destruct (vel s !! i) as [v|] eqn:Hv|];
      simpl.
    + rewrite IH. apply lookup_lt_Some in Hx, Hv. split.
      * intros H k [->|Hk]%elem_of_cons; [done|by apply H].
      * intros H k Hk. apply H. by right.
    + split; [done|]. intros H. destruct (H i) as [_ H']; [by left|].
      apply lookup_ge_None in Hv. lia.
    + split; [done|]. intros H. destruct (H i) as [H' _]; [by left|].
      apply lookup_ge_None in Hx. lia.
Qed.

Lemma print_rows_agree (l : list nat) (s1 s2 : state) (lines : list string) :
  print_rows l s1 = (lines, true) → print_rows l s2 = (lines, true) →
  ∀ i, i ∈ l → pos s1 !! i = pos s2 !! i ∧ vel s1 !! i = vel s2 !! i.
Proof.
  revert lines. induction l as [|i l IH]; intros lines H1 H2 k Hk.
  { by apply elem_of_nil in Hk. }
  simpl in H1, H2.
  destruct (pos s1 !! i) as [x1|] eqn:Hx1; [|done].
  destruct (vel s1 !! i) as [v1|] eqn:Hv1; [|done].
  destruct (pos s2 !! i) as [x2|] eqn:Hx2; [|done].
  destruct (vel s2 !! i) as [v2|] eqn:Hv2; [|done].
  destruct (print_rows l s1) as [r1 b1] eqn:E1.
  destruct (print_rows l s2) as [r2 b2] eqn:E2.
  simpl in H1, H2. injection H1 as <- ->. injection H2 as Hrow <- ->.
  apply table_row_inj in Hrow as (_ & -> & ->).
  apply elem_of_cons in Hk as [->|Hk].
  - by rewrite Hx1, Hx2, Hv1, Hv2.
  - by eapply IH.
Qed.

Lemma print_rows_length (l : list nat) (s : state) :
  (print_rows l s).2 = true → length (print_rows l s).1 = length l.
Proof.
  induction l as [|i l IH]; simpl; [done|].
  destruct (pos s !! i); [|done]. destruct (vel s !! i); [|done].
  simpl. intros H. by rewrite IH.
Qed.

End NS_print.

Section NS_print_claims.
Import NS.

(** X23.  The cell that prints the table raises no [IndexError] exactly
    when [pos] and [vel] both hold at least [N] elements, and it then
    prints the heading and [N] rows. *)
Theorem print_table_completes_iff (N : nat) (s : state) :
  ((print_table N s).2 = true ↔
     (N ≤ length (pos s))%nat ∧ (N ≤ length (vel s))%nat) ∧
  ((print_table N s).2 = true → length (print_table N s).1 = S N).
Proof.
  unfold print_table. cbn [fst snd]. split.
  - rewrite print_rows_complete. split.
    + intros H. destruct N as [|n]; [lia|].
      destruct (H n) as [??]; [|lia].
      apply elem_of_seq. lia.
    + intros [??] i Hi%elem_of_seq. lia.
  - intros H. cbn [length]. by rewrite print_rows_length, length_seq.
Qed.

(** X24.  The printed table can be read back: two states for which the
    cell prints the same lines, without raising, hold the same [N] first
    positions and the same [N] first velocities. *)
Theorem printed_table_determines_the_vehicles (N : nat) (s1 s2 : state)
    (lines : list string) :
  print_table N s1 = (lines, true) → print_table N s2 = (lines, true) →
  take N (pos s1) = take N (pos s2) ∧ take N (vel s1) = take N (vel s2).
Proof.
  unfold print_table. intros H1 H2.
  destruct (print_rows (seq 0 N) s1) as [r1 b1] eqn:E1.
  destruct (print_rows (seq 0 N) s2) as [r2 b2] eqn:E2.
  cbn [fst snd] in H1, H2. injection H1 as <- ->. injection H2 as Hr ->.
  subst r2.
  pose proof (print_rows_agree _ _ _ _ E1 E2) as Hag.
  split; apply list_eq; intros i; destruct (decide (i < N)%nat) as [Hi|Hi].
  - rewrite !lookup_take_lt by done. apply Hag, elem_of_seq. lia.
  - by rewrite !lookup_take_ge by lia.
  - rewrite !lookup_take_lt by done. apply Hag, elem_of_seq. lia.
  - by rewrite !lookup_take_ge by lia.
Qed.

Lemma printed_table_determines_the_vehicles_witness :
  let s1 := {| pos := [1; 3; 4]; vel := [2; 0; -1]; traffic := []; calls := 0 |} in
  let s2 := {| pos := [1; 3; 7]; vel := [2; 0]; traffic := [[0]]; calls := 5 |} in
  print_table 2 s1 = print_table 2 s2 ∧
  take 2 (pos s1) = take 2 (pos s2) ∧ take 2 (vel s1) = take 2 (vel s2).
Proof.
  cbv zeta. split; [by vm_compute|].
  eapply printed_table_determines_the_vehicles; by vm_compute.
Defined.

End NS_print_claims.
